(** * A shallow embedding of the robotics interaction engine and of its
    Dijkstra toolset.

    Sources: [src/world/tile.rs] (contents, tile types and their property
    tables), [src/energy/mod.rs] (energy), [src/runner/backpack.rs] and
    [src/utils/mod.rs] (backpack transfer and checks),
    [src/interface/mod.rs] (go, destroy, put, one_direction_view, craft,
    discover_tiles) and [src/tools/dijkstra.rs] (grid to graph conversion,
    dijkstra, reconstruct_shortest_path).

    Rust's [usize] is [nat] (energy, quantities, indices) or [N] where values
    get large (elevations and path weights).  A Rust panic is the [Panic]
    outcome.  Events sent to [Runnable::handle_event] carry no state the
    engine reads back and are not modelled; neither is the [f32] score. *)

From Stdlib Require Import List Arith Lia Bool NArith ZArith Permutation.
Import ListNotations.

(** ** Generic helpers *)

(** [v[i] = x] on a Rust [Vec]: the callers only write at indices they have
    read before, so out of range never happens; it leaves the list as is. *)
Fixpoint list_set {A} (l : list A) (i : nat) (x : A) : list A :=
  match l, i with
  | [], _ => []
  | _ :: t, 0 => x :: t
  | h :: t, S i' => h :: list_set t i' x
  end.

Definition usize_max : N := 18446744073709551615%N.

(** [a + b] on [usize] does not overflow. *)
Definition fits_usize (x : nat) : bool := N.leb (N.of_nat x) usize_max.

(** ** Errors, results and the state-and-error monad *)

Inductive LibError :=
| NotEnoughEnergy
| OutOfBounds
| NoContent
| NotEnoughSpace (n : nat)
| CannotDestroy
| CannotWalk
| WrongContentUsed
| NotEnoughContentProvided
| OperationNotAllowed
| NotCraftable
| NoMoreDiscovery
| EmptyForecast
| WrongHour
| NotEnoughContentInBackPack
| WorldIsNotASquare
| TeleportIsTrueOnGeneration
| ContentValueIsHigherThanMax
| ContentNotAllowedOnTile
| MustDestroyContentFirst.

(** The outcome of a call: [Ok], [Err] (Rust's [Result]) or a panic. *)
Inductive res (A : Type) :=
| Ok (a : A)
| Err (e : LibError)
| Panic.
Arguments Ok {A} a.
Arguments Err {A} e.
Arguments Panic {A}.

(** A computation over a mutable state [S]: the state reached is kept when
    an error is returned early with [?], as in Rust. *)
Definition SM (S A : Type) := S -> res A * S.

Definition ret {S A} (a : A) : SM S A := fun s => (Ok a, s).
Definition fail {S A} (e : LibError) : SM S A := fun s => (Err e, s).
Definition panic {S A} : SM S A := fun s => (Panic, s).
Definition bind {S A B} (m : SM S A) (k : A -> SM S B) : SM S B :=
  fun s => match m s with
           | (Ok a, s') => k a s'
           | (Err e, s') => (Err e, s')
           | (Panic, s') => (Panic, s')
           end.
Definition get {S} : SM S S := fun s => (Ok s, s).
Definition put_state {S} (s : S) : SM S unit := fun _ => (Ok tt, s).

Notation "x <- m ;; k" := (bind m (fun x => k))
  (at level 61, m at next level, right associativity).
Notation "m ;;; k" := (bind m (fun _ => k))
  (at level 61, right associativity).

(** ** Contents and tile types (src/world/tile.rs) *)

Record Range := mkRange { r_start : nat; r_end : nat }.

Module Content.
Inductive t :=
| Rock (v : nat)
| Tree (v : nat)
| Garbage (v : nat)
| Fire
| Coin (v : nat)
| Bin (r : Range)
| Crate (r : Range)
| Bank (r : Range)
| Water (v : nat)
| Market (v : nat)
| Fish (v : nat)
| Building
| Bush (v : nat)
| JollyBlock (v : nat)
| Scarecrow
| None.
End Content.

Module TileType.
Inductive t :=
| DeepWater
| ShallowWater
| Sand
| Grass
| Street
| Hill
| Mountain
| Snow
| Lava
| Teleport (activated : bool)
| Wall.
End TileType.

Definition range_eq_dec (a b : Range) : {a = b} + {a <> b}.
Proof. decide equality; apply Nat.eq_dec. Defined.

Definition content_eq_dec (a b : Content.t) : {a = b} + {a <> b}.
Proof. decide equality; first [apply Nat.eq_dec | apply range_eq_dec]. Defined.

Definition tiletype_eq_dec (a b : TileType.t) : {a = b} + {a <> b}.
Proof. decide equality; apply Bool.bool_dec. Defined.

Definition content_eqb (a b : Content.t) : bool :=
  if content_eq_dec a b then true else false.
Definition tiletype_eqb (a b : TileType.t) : bool :=
  if tiletype_eq_dec a b then true else false.

Definition index (c : Content.t) : nat :=
  match c with
  | Content.Rock _ => 0 | Content.Tree _ => 1 | Content.Garbage _ => 2
  | Content.Fire => 3 | Content.Coin _ => 4 | Content.Bin _ => 5
  | Content.Crate _ => 6 | Content.Bank _ => 7 | Content.Water _ => 8
  | Content.None => 9 | Content.Fish _ => 10 | Content.Market _ => 11
  | Content.Building => 12 | Content.Bush _ => 13
  | Content.JollyBlock _ => 14 | Content.Scarecrow => 15
  end.

Definition r00 := mkRange 0 0.

Definition to_default (c : Content.t) : Content.t :=
  match c with
  | Content.Coin _ => Content.Coin 0
  | Content.Garbage _ => Content.Garbage 0
  | Content.Water _ => Content.Water 0
  | Content.Rock _ => Content.Rock 0
  | Content.Tree _ => Content.Tree 0
  | Content.Market _ => Content.Market 0
  | Content.Fish _ => Content.Fish 0
  | Content.Bin _ => Content.Bin r00
  | Content.Bank _ => Content.Bank r00
  | Content.Crate _ => Content.Crate r00
  | Content.Fire => Content.Fire
  | Content.Scarecrow => Content.Scarecrow
  | Content.Building => Content.Building
  | Content.None => Content.None
  | Content.Bush _ => Content.Bush 0
  | Content.JollyBlock _ => Content.JollyBlock 0
  end.

Definition get_value (c : Content.t) : option nat * option Range :=
  match c with
  | Content.Rock v | Content.Tree v | Content.Garbage v | Content.Coin v
  | Content.Water v | Content.Market v | Content.Fish v | Content.Bush v
  | Content.JollyBlock v => (Some v, None)
  | Content.Fire => (Some 1, None)
  | Content.Bin r | Content.Crate r | Content.Bank r => (None, Some r)
  | Content.None | Content.Building | Content.Scarecrow => (None, None)
  end.

Definition to_value (c : Content.t) (v : nat) : Content.t :=
  match c with
  | Content.Coin _ => Content.Coin v
  | Content.Garbage _ => Content.Garbage v
  | Content.Water _ => Content.Water v
  | Content.Rock _ => Content.Rock v
  | Content.Tree _ => Content.Tree v
  | Content.Market _ => Content.Market v
  | Content.Fish _ => Content.Fish v
  | Content.Bin _ => Content.Bin (mkRange 0 v)
  | Content.Bank _ => Content.Bank (mkRange 0 v)
  | Content.Crate _ => Content.Crate (mkRange 0 v)
  | Content.None => Content.None
  | Content.Fire => Content.Fire
  | Content.Building => Content.Building
  | Content.Bush _ => Content.Bush v
  | Content.JollyBlock _ => Content.JollyBlock v
  | Content.Scarecrow => Content.Scarecrow
  end.

(** [ContentProps], without the score fields (score_weight, disposable). *)
Record ContentProps := {
  destroy_p : bool;
  max_p : nat;
  store_p : bool;
  cost_p : nat;
  craft_p : list (Content.t * nat)
}.

(** The recipe array [craft]: one (ingredient, quantity) entry per content,
    in the array's order; quantity 0 means "not an ingredient". *)
Definition recipe (q : list nat) : list (Content.t * nat) :=
  combine [Content.Rock 0; Content.Tree 0; Content.Garbage 0; Content.Fire;
           Content.Coin 0; Content.Bin r00; Content.Crate r00; Content.Bank r00;
           Content.Water 0; Content.None; Content.Fish 0; Content.Market 0;
           Content.Building; Content.Bush 0; Content.JollyBlock 0;
           Content.Scarecrow] q.

Definition not_craftable := recipe (repeat 0 16).

(** The JollyBlock array lists Scarecrow, JollyBlock and Bush in this
    order at its end. *)
Definition jolly_recipe : list (Content.t * nat) :=
  [(Content.Rock 0, 2); (Content.Tree 0, 2); (Content.Garbage 0, 2);
   (Content.Fire, 0); (Content.Coin 0, 2); (Content.Bin r00, 0);
   (Content.Crate r00, 0); (Content.Bank r00, 0); (Content.Water 0, 0);
   (Content.None, 0); (Content.Fish 0, 2); (Content.Market 0, 0);
   (Content.Building, 0); (Content.Scarecrow, 2); (Content.JollyBlock 0, 0);
   (Content.Bush 0, 2)].

Definition properties (c : Content.t) : ContentProps :=
  match c with
  | Content.Rock _ => Build_ContentProps true 4 false 1 not_craftable
  | Content.Tree _ => Build_ContentProps true 5 false 3 not_craftable
  | Content.Garbage _ => Build_ContentProps true 3 false 4
      (recipe [3; 1; 0; 0; 0; 0; 0; 0; 0; 0; 1; 0; 0; 0; 0; 0])
  | Content.Fire => Build_ContentProps true 1 false 5 not_craftable
  | Content.Coin _ => Build_ContentProps true 10 true 0
      (recipe [0; 0; 5; 0; 0; 0; 0; 0; 0; 0; 0; 0; 0; 0; 0; 0])
  | Content.Bin _ => Build_ContentProps false 10 true 0 not_craftable
  | Content.Crate _ => Build_ContentProps false 20 true 0 not_craftable
  | Content.Bank _ => Build_ContentProps false 50 true 0 not_craftable
  | Content.Water _ => Build_ContentProps true 20 true 3 not_craftable
  | Content.None => Build_ContentProps false 0 false 0 not_craftable
  | Content.Fish _ => Build_ContentProps true 3 true 1 not_craftable
  | Content.Market _ => Build_ContentProps false 20 false 0 not_craftable
  | Content.Building => Build_ContentProps false 0 false 0 not_craftable
  | Content.Bush _ => Build_ContentProps true 10 true 0 not_craftable
  | Content.JollyBlock _ => Build_ContentProps true 2 true 2 jolly_recipe
  | Content.Scarecrow => Build_ContentProps false 0 false 0 not_craftable
  end.

Record TileTypeProps := {
  walk : bool;
  hold : list bool;   (** indexed by [index] *)
  tcost : nat
}.

Definition tt_properties (t : TileType.t) : TileTypeProps :=
  match t with
  | TileType.DeepWater => Build_TileTypeProps false
      [false; false; false; false; false; false; false; false;
       true; true; true; false; false; false; false; false] 0
  | TileType.ShallowWater => Build_TileTypeProps true
      [false; false; false; false; false; false; false; false;
       true; true; true; false; false; false; false; true] 5
  | TileType.Sand => Build_TileTypeProps true
      [true; false; true; false; true; true; true; false;
       false; true; false; false; false; false; true; true] 3
  | TileType.Grass => Build_TileTypeProps true
      [true; true; true; true; true; true; true; true;
       false; true; false; true; true; true; true; true] 1
  | TileType.Street => Build_TileTypeProps true
      [true; false; true; false; true; true; false; true;
       false; true; false; true; true; false; true; true] 0
  | TileType.Hill => Build_TileTypeProps true
      [true; true; true; true; true; true; true; false;
       false; true; false; false; true; true; true; true] 5
  | TileType.Mountain => Build_TileTypeProps true
      [true; true; true; false; true; true; true; false;
       false; true; false; false; true; true; true; true] 10
  | TileType.Snow => Build_TileTypeProps true
      [true; false; false; false; true; false; true; false;
       false; true; false; false; true; true; true; true] 3
  | TileType.Lava => Build_TileTypeProps false
      [false; false; false; false; false; false; false; false;
       false; true; false; false; false; false; false; false] 0
  | TileType.Teleport _ => Build_TileTypeProps true
      [true; false; true; false; true; true; false; true;
       false; true; false; true; false; false; false; false] 0
  | TileType.Wall => Build_TileTypeProps false
      [false; false; false; true; false; false; false; false;
       false; true; false; false; false; false; false; false] 0
  end.

Definition can_hold (p : TileTypeProps) (c : Content.t) : bool :=
  nth (index c) (hold p) false.

Record Tile := mkTile {
  tile_type : TileType.t;
  content : Content.t;
  elevation : N
}.

(** ** Energy (src/energy/mod.rs) *)

Definition MAX_ENERGY_LEVEL := 1000.

Record Energy := mkEnergy { energy_level : nat }.

Definition energy_new (l : nat) : Energy := mkEnergy (Nat.min l MAX_ENERGY_LEVEL).

Definition has_enough_energy (e : Energy) (needed : nat) : bool :=
  needed <=? energy_level e.

Definition consume_energy (needed : nat) : SM Energy unit :=
  fun e => if negb (has_enough_energy e needed) then (Err NotEnoughEnergy, e)
           else (Ok tt, mkEnergy (energy_level e - needed)).

(** [self.energy_level + energy_to_add] panics on overflow. *)
Definition recharge_energy (to_add : nat) : SM Energy unit :=
  fun e => if fits_usize (energy_level e + to_add)
           then (Ok tt, mkEnergy (Nat.min MAX_ENERGY_LEVEL (energy_level e + to_add)))
           else (Panic, e).

(** ** Backpack (src/runner/backpack.rs, src/utils/mod.rs) *)

(** [contents : HashMap<Content, usize>] as an association list. *)
Record BackPack := mkBackPack {
  size : nat;
  contents : list (Content.t * nat)
}.

Definition all_contents : list Content.t :=
  [Content.Rock 0; Content.Tree 0; Content.Garbage 0; Content.Fire;
   Content.Coin 0; Content.Bin r00; Content.Crate r00; Content.Bank r00;
   Content.Water 0; Content.Market 0; Content.Fish 0; Content.Building;
   Content.Bush 0; Content.JollyBlock 0; Content.Scarecrow; Content.None].

(** [BackPack::new]: every content, in its default form, mapped to 0. *)
Definition backpack_new (size : nat) : BackPack :=
  mkBackPack size (map (fun c => (to_default c, 0)) all_contents).

Fixpoint hm_get (l : list (Content.t * nat)) (k : Content.t) : option nat :=
  match l with
  | [] => None
  | (k', v) :: t => if content_eqb k k' then Some v else hm_get t k
  end.

(** [*contents.entry(k).or_insert(0) += q] *)
Fixpoint hm_entry_add (l : list (Content.t * nat)) (k : Content.t) (q : nat)
  : list (Content.t * nat) :=
  match l with
  | [] => [(k, q)]
  | (k', v) :: t => if content_eqb k k' then (k', v + q) :: t
                    else (k', v) :: hm_entry_add t k q
  end.

(** [*contents.get_mut(k) = v] on a present key. *)
Fixpoint hm_set (l : list (Content.t * nat)) (k : Content.t) (v : nat)
  : list (Content.t * nat) :=
  match l with
  | [] => []
  | (k', v') :: t => if content_eqb k k' then (k', v) :: t
                     else (k', v') :: hm_set t k v
  end.

Definition hm_sum (l : list (Content.t * nat)) : nat := list_sum (map snd l).

Definition backpack_sum (b : BackPack) : nat := hm_sum (contents b).

Definition stored (b : BackPack) (c : Content.t) : nat :=
  match hm_get (contents b) (to_default c) with Some v => v | None => 0 end.

(** [add_to_backpack]: [size - sum] is a [usize] subtraction (it would panic
    on a backpack holding more than its size). *)
Definition add_to_backpack (c : Content.t) (quantity : nat) : SM BackPack nat :=
  fun b =>
    if size b <? backpack_sum b then (Panic, b) else
    let remainder := size b - backpack_sum b in
    let quantity_to_add := Nat.min quantity remainder in
    let b' := mkBackPack (size b) (hm_entry_add (contents b) (to_default c) quantity_to_add) in
    if quantity <=? remainder then (Ok quantity_to_add, b')
    else (Err (NotEnoughSpace quantity_to_add), b').

(** [remove_from_backpack] *)
Definition remove_from_backpack (c : Content.t) (quantity : nat) : SM BackPack nat :=
  fun b =>
    match hm_get (contents b) (to_default c) with
    | None => (Err NoContent, b)
    | Some value =>
        if value =? 0 then (Err NoContent, b)
        else if value <=? quantity
        then (Ok value, mkBackPack (size b) (hm_set (contents b) (to_default c) 0))
        else (Ok quantity, mkBackPack (size b) (hm_set (contents b) (to_default c) (value - quantity)))
    end.

(** ** World, robot and the engine state (src/world/mod.rs, src/runner) *)

Inductive WeatherType := Sunny | Rainy | Foggy | TropicalMonsoon | TrentinoSnow.
Inductive DayTime := Morning | Afternoon | Night.

(** What [EnvironmentalConditions] answers: the current weather (front of
    the forecast) and the time of day. *)
Record EnvironmentalConditions := mkEnv {
  weather_condition : WeatherType;
  time_of_day : DayTime
}.

Record Robot := mkRobot {
  energy : Energy;
  coordinate : nat * nat;   (** (row, col) *)
  backpack : BackPack
}.

Record World := mkWorld {
  map : list (list Tile);
  dimension : nat;
  discoverable : nat;
  environmental_conditions : EnvironmentalConditions
}.

(** The engine state: the robot, the world and the process-wide [PLOT] of
    seen coordinates. *)
Record St := mkSt {
  robot : Robot;
  world : World;
  plot : list (nat * nat)
}.

Definition set_energy (s : St) (e : Energy) : St :=
  mkSt (mkRobot e (coordinate (robot s)) (backpack (robot s))) (world s) (plot s).
Definition set_coordinate (s : St) (rc : nat * nat) : St :=
  mkSt (mkRobot (energy (robot s)) rc (backpack (robot s))) (world s) (plot s).
Definition set_backpack (s : St) (b : BackPack) : St :=
  mkSt (mkRobot (energy (robot s)) (coordinate (robot s)) b) (world s) (plot s).
Definition set_map (s : St) (m : list (list Tile)) : St :=
  let w := world s in
  mkSt (robot s) (mkWorld m (dimension w) (discoverable w) (environmental_conditions w)) (plot s).
Definition set_discoverable (s : St) (n : nat) : St :=
  let w := world s in
  mkSt (robot s) (mkWorld (map w) (dimension w) n (environmental_conditions w)) (plot s).
Definition set_plot (s : St) (p : list (nat * nat)) : St :=
  mkSt (robot s) (world s) p.

(** [robot.get_energy_mut().f(..)] and [f(robot, ..)] on the backpack. *)
Definition on_energy {A} (m : SM Energy A) : SM St A :=
  fun s => let '(r, e) := m (energy (robot s)) in (r, set_energy s e).
Definition on_backpack {A} (m : SM BackPack A) : SM St A :=
  fun s => let '(r, b) := m (backpack (robot s)) in (r, set_backpack s b).

Definition tile_at (m : list (list Tile)) (r c : nat) : option Tile :=
  match nth_error m r with
  | Some row => nth_error row c
  | None => None
  end.

(** [world.map[r][c]] (panics out of range). *)
Definition read_tile (r c : nat) : SM St Tile :=
  fun s => match tile_at (map (world s)) r c with
           | Some t => (Ok t, s)
           | None => (Panic, s)
           end.

(** [world.map[r][c] = t]. *)
Definition write_tile (r c : nat) (t : Tile) : SM St unit :=
  fun s => let m := map (world s) in
           (Ok tt, set_map s (list_set m r (list_set (nth r m []) c t))).

Definition with_content (t : Tile) (c : Content.t) : Tile :=
  mkTile (tile_type t) c (elevation t).
Definition with_tile_type (t : Tile) (tt : TileType.t) : Tile :=
  mkTile tt (content t) (elevation t).

Definition check_energy (needed : nat) : SM St unit :=
  fun s => if has_enough_energy (energy (robot s)) needed then (Ok tt, s)
           else (Err NotEnoughEnergy, s).

(** [add_to_plot]: push the coordinate unless already present. *)
Definition add_to_plot (r c : nat) : SM St unit :=
  fun s => if existsb (fun '(a, b) => (a =? r) && (b =? c)) (plot s) then (Ok tt, s)
           else (Ok tt, set_plot s (plot s ++ [(r, c)])).

Inductive Direction := Up | Down | Left | Right.

(** ** Checks (src/utils/mod.rs) *)

(** [world.dimension - 1] is a [usize] subtraction. *)
Definition in_bounds (d : Direction) : SM St unit :=
  fun s =>
    let '(r, c) := coordinate (robot s) in
    let dim := dimension (world s) in
    match d with
    | Up => if r =? 0 then (Err OutOfBounds, s) else (Ok tt, s)
    | Left => if c =? 0 then (Err OutOfBounds, s) else (Ok tt, s)
    | Down => if dim =? 0 then (Panic, s)
              else if r =? dim - 1 then (Err OutOfBounds, s) else (Ok tt, s)
    | Right => if dim =? 0 then (Panic, s)
               else if c =? dim - 1 then (Err OutOfBounds, s) else (Ok tt, s)
    end.

(** [get_coords_row_col] ([robot_row - 1] panics at row 0). *)
Definition get_coords_row_col (d : Direction) : SM St (nat * nat) :=
  fun s =>
    let '(r, c) := coordinate (robot s) in
    match d with
    | Up => if r =? 0 then (Panic, s) else (Ok (r - 1, c), s)
    | Down => (Ok (r + 1, c), s)
    | Left => if c =? 0 then (Panic, s) else (Ok (r, c - 1), s)
    | Right => (Ok (r, c + 1), s)
    end.

Definition go_allowed (d : Direction) : SM St unit :=
  in_bounds d ;;;
  rc <- get_coords_row_col d ;;
  t <- read_tile (fst rc) (snd rc) ;;
  if walk (tt_properties (tile_type t)) then ret tt else fail CannotWalk.

Definition go_allowed_row_col (w : World) (r c : nat) : bool :=
  (r <? dimension w) && (c <? dimension w).

(** [can_destroy]: reads the content stored in the map. *)
Definition can_destroy (r c : nat) : SM St bool :=
  s <- get ;;
  if negb (go_allowed_row_col (world s) r c) then fail OutOfBounds else
  t <- read_tile r c ;;
  if content_eqb (content t) Content.None then fail NoContent
  else ret (destroy_p (properties (content t))).

(** [check_price_view] *)
Definition check_price_view (tile_to_see : nat) : SM St nat :=
  let energy_needed := if tile_to_see <=? 1 then 0 else tile_to_see * 3 in
  check_energy energy_needed ;;; ret energy_needed.

(** ** The interfaces (src/interface/mod.rs) *)

Section Go.

(** [calculate_cost_go_with_environment] works in [f64] (multipliers 1.1,
    1.4, 1.6, 1.7, 2.0, then [ceil]); it is a parameter here. *)
Variable calculate_cost_go_with_environment :
  nat -> EnvironmentalConditions -> TileType.t -> nat.

(** [go]: the new coordinate stands for the returned view (a read of the
    final state). [(new - cur).pow(2)] and the sum are [usize]. *)
Definition go (d : Direction) : SM St (nat * nat) :=
  go_allowed d ;;;
  rc <- get_coords_row_col d ;;
  let '(row, col) := rc in
  target_tile <- read_tile row col ;;
  s <- get ;;
  current_tile <- read_tile (fst (coordinate (robot s))) (snd (coordinate (robot s))) ;;
  let base_cost0 := tcost (tt_properties (tile_type target_tile)) in
  let environmental_conditions := environmental_conditions (world s) in
  let new_elevation := elevation target_tile in
  let current_elevation := elevation current_tile in
  let base_cost := calculate_cost_go_with_environment base_cost0
                     environmental_conditions (tile_type target_tile) in
  let elevation_cost :=
    if (current_elevation <? new_elevation)%N
    then ((new_elevation - current_elevation) ^ 2)%N else 0%N in
  if negb (N.leb elevation_cost usize_max) then panic else
  (if tiletype_eqb (tile_type target_tile) (TileType.Teleport false)
   then write_tile row col (with_tile_type target_tile (TileType.Teleport true))
   else ret tt) ;;;
  let total := base_cost + N.to_nat elevation_cost in
  if negb (fits_usize total) then panic else
  on_energy (consume_energy total) ;;;
  (fun s => (Ok tt, set_coordinate s (row, col))) ;;;
  ret (row, col).

End Go.

(** [destroy], lines 247-270: the content destroyed, the quantity it
    yields and the energy cost.  [water_draw] is the value of
    [rng.gen_range(0..20)] used on a water tile with no content. *)
Definition destroy_target (target_row target_col : nat) (water_draw : nat)
  : SM St (Content.t * nat * nat) :=
  t <- read_tile target_row target_col ;;
  let tiletype := tile_type t in
  let is_water := tiletype_eqb tiletype TileType.ShallowWater
                  || tiletype_eqb tiletype TileType.DeepWater in
  let '(content0, value0, cost0) :=
    if is_water && content_eqb (content t) Content.None
    then (Content.Water 0, water_draw, cost_p (properties (Content.Water 0)))
    else (content t, 0, cost_p (properties (content t))) in
  let value1 := if content_eqb content0 Content.Fire
                then max_p (properties content0) else value0 in
  (if negb is_water
   then (ok <- can_destroy target_row target_col ;;
         if negb ok then fail CannotDestroy else ret tt)
   else ret tt) ;;;
  value <- (if value1 =? 0
            then match fst (get_value content0) with
                 | Some v => ret v
                 | None => panic      (* [.unwrap()] on [None] *)
                 end
            else ret value1) ;;
  ret (content0, value, cost0).

Definition destroy (d : Direction) (water_draw : nat) : SM St nat :=
  in_bounds d ;;;
  rc <- get_coords_row_col d ;;
  let '(target_row, target_col) := rc in
  tgt <- destroy_target target_row target_col water_draw ;;
  let '(content0, value, cost) := tgt in
  s <- get ;;
  if has_enough_energy (energy (robot s)) cost then
    amt <- on_backpack (add_to_backpack (to_default content0) value) ;;
    on_energy (consume_energy cost) ;;;
    t <- read_tile target_row target_col ;;
    write_tile target_row target_col (with_content t Content.None) ;;;
    ret amt
  else fail NotEnoughEnergy.

(** [can_store]: [contents.get(..).unwrap()] panics on a missing key. *)
Definition can_store (available_space : nat) (content_in c : Content.t) (quantity : nat)
  : SM St (nat * nat) :=
  s <- get ;;
  let cost := cost_p (properties c) in
  match hm_get (contents (backpack (robot s))) (to_default content_in) with
  | None => panic
  | Some held =>
      let quantity_to_remove := Nat.min (Nat.min available_space held) quantity in
      if negb (has_enough_energy (energy (robot s)) (cost * quantity_to_remove))
      then fail NotEnoughEnergy
      else ret (quantity_to_remove, cost * quantity_to_remove)
  end.

(** The three receptacle branches of [put] (bank, bin, crate); [mk]
    rebuilds the receptacle from its new range. *)
Definition put_receptacle (target_row target_col : nat) (t : Tile) (r : Range)
  (mk : Range -> Content.t) (content_in : Content.t) (quantity : nat) : SM St nat :=
  if r_end r <? r_start r then panic else          (* [range.end - range.start] *)
  qc <- can_store (r_end r - r_start r) (to_default content_in) (to_default (content t)) quantity ;;
  let '(quantity_to_remove, cost) := qc in
  removed_quantity <- on_backpack (remove_from_backpack (to_default content_in) quantity_to_remove) ;;
  write_tile target_row target_col
    (with_content t (mk (mkRange (r_start r + removed_quantity) (r_end r)))) ;;;
  on_energy (consume_energy cost) ;;;
  ret removed_quantity.

(** The common tail "energy check, remove [n] units, consume [cost], write
    the tile" of the remaining branches. *)
Definition put_spend (cost : nat) (c : Content.t) (n : nat) (update : SM St unit) : SM St nat :=
  s <- get ;;
  if negb (has_enough_energy (energy (robot s)) cost) then fail NotEnoughEnergy else
  removed_quantity <- on_backpack (remove_from_backpack (to_default c) n) ;;
  on_energy (consume_energy cost) ;;;
  update ;;;
  ret removed_quantity.

Definition market_rate (c : Content.t) : nat :=
  match c with
  | Content.Rock _ => 1
  | Content.Tree _ => 2
  | Content.Fish _ => 5
  | _ => 0
  end.

(** The market branch of [put]. *)
Definition put_market_sale (target_row target_col : nat) (t : Tile) (remaining_op : nat)
  (to_sell : Content.t) (quantity : nat) : SM St nat :=
  if remaining_op <? 1 then fail OperationNotAllowed else
  write_tile target_row target_col (with_content t (Content.Market (remaining_op - 1))) ;;;
  items_sold <- on_backpack (remove_from_backpack to_sell quantity) ;;
  let coins := market_rate to_sell in
  if coins =? 0 then fail WrongContentUsed else
  on_backpack (add_to_backpack (Content.Coin 0) (items_sold * coins)).

Definition is_grass_hill_sand_snow (t : TileType.t) : bool :=
  match t with
  | TileType.Grass | TileType.Hill | TileType.Sand | TileType.Snow => true
  | _ => false
  end.

(** [put]. [rock_draw] is [rng.gen_range(1..4)] of the mountain branch.
    The match arms are tried in the source's order. *)
Definition put (content_in : Content.t) (quantity : nat) (d : Direction) (rock_draw : nat)
  : SM St nat :=
  in_bounds d ;;;
  rc <- get_coords_row_col d ;;
  let '(target_row, target_col) := rc in
  t <- read_tile target_row target_col ;;
  if content_eqb content_in Content.None
     && negb (tiletype_eqb (tile_type t) TileType.Mountain)
  then fail WrongContentUsed else
  s <- get ;;
  let held := match hm_get (contents (backpack (robot s))) (to_default content_in) with
              | Some v => v | None => 0 end in
  let amount := Nat.min (Nat.min quantity held) (max_p (properties content_in)) in
  let set_content c := write_tile target_row target_col (with_content t c) in
  let set_street := write_tile target_row target_col (with_tile_type t TileType.Street) in
  let rock_cost := cost_p (properties content_in) in
  match tile_type t, content t, content_in with
  | _, Content.Bank r, Content.Coin _ =>
      put_receptacle target_row target_col t r Content.Bank content_in quantity
  | _, Content.Bin r, Content.Garbage _ =>
      put_receptacle target_row target_col t r Content.Bin content_in quantity
  | _, Content.Crate r, Content.Tree _ =>
      put_receptacle target_row target_col t r Content.Crate content_in quantity
  | tt0, Content.Tree _, Content.Fire | tt0, Content.None, Content.Fire =>
      if negb (can_hold (tt_properties tt0) content_in) then fail WrongContentUsed else
      put_spend (cost_p (properties content_in)) content_in 1 (set_content (to_default content_in))
  | _, Content.Market remaining_op, to_sell =>
      put_market_sale target_row target_col t remaining_op to_sell quantity
  | tt0, c0, Content.Rock _ =>
      if is_grass_hill_sand_snow tt0 then
        if negb (can_hold (tt_properties TileType.Street) c0) then fail MustDestroyContentFirst else
        put_spend rock_cost content_in 1 set_street
      else match tt0 with
      | TileType.ShallowWater =>
        if negb (can_hold (tt_properties TileType.Street) c0) then fail MustDestroyContentFirst else
        if amount <? 2 then fail NotEnoughContentProvided else
        put_spend (rock_cost * 2) content_in 2 set_street
      | TileType.DeepWater =>
        if negb (can_hold (tt_properties TileType.Street) c0) then fail MustDestroyContentFirst else
        if amount <? 3 then fail NotEnoughContentProvided else
        put_spend (rock_cost * 3 * 2) content_in 3 set_street
      | TileType.Lava =>
        if amount <? 3 then fail NotEnoughContentProvided else
        put_spend (rock_cost * 3 * 3) content_in 3 set_street
      | _ =>
        match c0 with
        | Content.None =>
          if negb (can_hold (tt_properties tt0) content_in) then fail WrongContentUsed else
          put_spend (rock_cost * amount) content_in amount (set_content (Content.Rock amount))
        | Content.Fire =>
          put_spend (cost_p (properties (Content.Water 0)) * amount) content_in amount (ret tt)
        | a =>
          (* the last arm, [(_, a, b)] with [b] a rock *)
          if negb (content_eqb (to_default a) (to_default content_in)) then fail WrongContentUsed else
          match fst (get_value a) with
          | None => fail OperationNotAllowed
          | Some value =>
            if max_p (properties a) <? value then panic else
            let amount' := Nat.min amount (max_p (properties a) - value) in
            if amount' =? 0 then fail OperationNotAllowed else
            put_spend (cost_p (properties content_in) * amount') content_in amount'
              (set_content (to_value content_in (amount' + value)))
          end
        end
      end
  | TileType.Mountain, _, Content.None =>
      let amount_to_give := rock_draw in
      let cost := cost_p (properties (Content.Rock 0)) * amount_to_give * 4 in
      if negb (has_enough_energy (energy (robot s)) cost) then fail NotEnoughEnergy else
      added_quantity <- on_backpack (add_to_backpack (Content.Rock 0) amount_to_give) ;;
      on_energy (consume_energy cost) ;;;
      set_street ;;;
      ret added_quantity
  | _, Content.Fire, Content.Water _ =>
      put_spend (cost_p (properties content_in)) content_in 1 (set_content Content.None)
  | _, Content.Fire, _ =>
      put_spend (cost_p (properties (Content.Water 0)) * amount) content_in amount (ret tt)
  | tt0, Content.None, _ =>
      if negb (can_hold (tt_properties tt0) content_in) then fail WrongContentUsed else
      put_spend (cost_p (properties content_in) * amount) content_in amount
        (set_content (to_value content_in amount))
  | _, a, b =>
      if negb (content_eqb (to_default a) (to_default b)) then fail WrongContentUsed else
      match fst (get_value a) with
      | None => fail OperationNotAllowed
      | Some value =>
        if max_p (properties a) <? value then panic else
        let amount' := Nat.min amount (max_p (properties a) - value) in
        if amount' =? 0 then fail OperationNotAllowed else
        put_spend (cost_p (properties b) * amount') b amount'
          (set_content (to_value b (amount' + value)))
      end
  end.

(** [craft]: the [for] loop over the recipe array; an [Err] of
    [remove_from_backpack] moves on to the next entry. *)
Fixpoint craft_loop (c : Content.t) (recipes : list (Content.t * nat)) : SM St Content.t :=
  match recipes with
  | [] => fail NotCraftable
  | (content_n, quantity) :: rest =>
      if quantity =? 0 then craft_loop c rest else
      fun s =>
        match on_backpack (remove_from_backpack content_n quantity) s with
        | (Ok value, s1) =>
            ((if negb (value =? quantity)
              then on_backpack (add_to_backpack (to_default content_n) value) ;;; ret tt
              else ret tt) ;;;
             let cost := cost_p (properties c) in
             on_energy (consume_energy cost) ;;;
             on_backpack (add_to_backpack (to_default c) 1) ;;;
             ret c) s1
        | (_, s1) => craft_loop c rest s1
        end
  end.

Definition craft (c : Content.t) : SM St Content.t :=
  match c with
  | Content.None => fail NotCraftable
  | _ => craft_loop c (craft_p (properties c))
  end.

(** The [HashMap<(usize, usize), Option<Tile>>] returned by
    [discover_tiles], as an association list; [insert] overwrites. *)
Definition coord_eqb (k k' : nat * nat) : bool := (fst k =? fst k') && (snd k =? snd k').

Fixpoint coord_insert (m : list ((nat * nat) * option Tile)) (k : nat * nat) (v : option Tile)
  : list ((nat * nat) * option Tile) :=
  match m with
  | [] => [(k, v)]
  | (k', v') :: t => if coord_eqb k k' then (k', v) :: t
                     else (k', v') :: coord_insert t k v
  end.

Fixpoint coord_lookup (m : list ((nat * nat) * option Tile)) (k : nat * nat) : option (option Tile) :=
  match m with
  | [] => None
  | (k', v) :: t => if coord_eqb k k' then Some v else coord_lookup t k
  end.

Fixpoint discover_loop (to_discover : list (nat * nat)) (acc : list ((nat * nat) * option Tile))
  : SM St (list ((nat * nat) * option Tile)) :=
  match to_discover with
  | [] => ret acc
  | (x, y) :: rest =>
      s <- get ;;
      let m := map (world s) in
      if (x <? length m) && (y <? length (nth x m [])) then
        t <- read_tile x y ;;
        add_to_plot x y ;;;
        discover_loop rest (coord_insert acc (x, y) (Some t))
      else discover_loop rest (coord_insert acc (x, y) None)
  end.

Definition discover_tiles (to_discover : list (nat * nat))
  : SM St (list ((nat * nat) * option Tile)) :=
  s <- get ;;
  if length to_discover <=? discoverable (world s) then
    let energy_needed := length to_discover * 3 in
    if has_enough_energy (energy (robot s)) energy_needed then
      (fun s => (Ok tt, set_discoverable s (discoverable (world s) - length to_discover))) ;;;
      on_energy (consume_energy energy_needed) ;;;
      discover_loop to_discover []
    else fail NotEnoughEnergy
  else fail NoMoreDiscovery.

(** [start..=end] over [isize]. *)
Definition isize_range (a b : Z) : list Z :=
  List.map (fun k => (a + Z.of_nat k)%Z) (seq 0 (Z.to_nat (b - a + 1))).

(** The coordinates [one_direction_view] reads, row by row of its output:
    [tile_to_see] rows ([Up], [Down]) or the 1 to 3 rows around the robot
    ([Left], [Right]). *)
Definition strip_coords (d : Direction) (r c dim tile_to_see : nat) : list (list (nat * nat)) :=
  match d with
  | Up | Down =>
      let start_index_col := if c =? 0 then 0%Z else (-1)%Z in
      let ending_index_col := if c =? dim - 1 then 0%Z else 1%Z in
      List.map (fun i =>
        List.map (fun j => (match d with Up => r - i | _ => r + i end,
                            Z.to_nat (Z.of_nat c + j)))
          (isize_range start_index_col ending_index_col))
        (seq 1 tile_to_see)
  | Left | Right =>
      let start_index_row := if r =? 0 then 0%Z else (-1)%Z in
      let ending_index_row := if r =? dim - 1 then 0%Z else 1%Z in
      List.map (fun i =>
        List.map (fun j => (Z.to_nat (Z.of_nat r + i),
                            match d with Left => c - j | _ => c + j end))
          (seq 1 tile_to_see))
        (isize_range start_index_row ending_index_row)
  end.

Fixpoint read_row (cs : list (nat * nat)) : SM St (list Tile) :=
  match cs with
  | [] => ret []
  | (r, c) :: rest =>
      t <- read_tile r c ;;
      add_to_plot r c ;;;
      ts <- read_row rest ;;
      ret (t :: ts)
  end.

Fixpoint read_rows (rows : list (list (nat * nat))) : SM St (list (list Tile)) :=
  match rows with
  | [] => ret []
  | cs :: rest =>
      row_vec <- read_row cs ;;
      out <- read_rows rest ;;
      ret (row_vec :: out)
  end.

(** [tile_to_see]: [min(distance, ...)] per direction; [dim - r - 1] is a
    [usize] subtraction, the robot being on the map. *)
Definition tile_to_see (d : Direction) (r c dim distance : nat) : nat :=
  match d with
  | Up => Nat.min distance r
  | Down => Nat.min distance (dim - r - 1)
  | Left => Nat.min distance c
  | Right => Nat.min distance (dim - c - 1)
  end.

Definition one_direction_view (d : Direction) (distance : nat) : SM St (list (list Tile)) :=
  s <- get ;;
  let '(robot_row, robot_col) := coordinate (robot s) in
  let map_dimension := dimension (world s) in
  let t := tile_to_see d robot_row robot_col map_dimension distance in
  if t =? 0 then ret [] else
  energy_needed <- check_price_view t ;;
  out <- read_rows (strip_coords d robot_row robot_col map_dimension t) ;;
  on_energy (consume_energy energy_needed) ;;;
  ret out.

(** The strip as described for [one_direction_view]: the cells at most [t]
    steps away from the robot in direction [d], in the robot's column (or
    row) or next to it, on the map. *)
Definition view_band (d : Direction) (r c dim t x y : nat) : Prop :=
  match d with
  | Up => x < r /\ r - x <= t /\ c <= y + 1 /\ y <= c + 1 /\ y < dim
  | Down => r < x /\ x - r <= t /\ c <= y + 1 /\ y <= c + 1 /\ y < dim
  | Left => y < c /\ c - y <= t /\ r <= x + 1 /\ x <= r + 1 /\ x < dim
  | Right => c < y /\ y - c <= t /\ r <= x + 1 /\ x <= r + 1 /\ x < dim
  end.

(** ** Grid to graph and shortest paths (src/tools/dijkstra.rs) *)

(** [let? x := m in k]: [m] or a panic ([None]). *)
Notation "'let?' x ':=' m 'in' k" :=
  (match m with Some x => k | None => None end)
  (at level 200, x pattern, m at level 100, k at level 200, right associativity).

Module Node.
Record t := mk { index : nat; distance : N }.
End Node.

(** [get_cost]: the tile type's cost, 100000 on the unwalkable types. *)
Definition get_cost (tile : Tile) : N :=
  match tile_type tile with
  | TileType.DeepWater | TileType.Lava | TileType.Wall => 100000%N
  | ty => N.of_nat (tcost (tt_properties ty))
  end.

Definition is_wakable (tile : Tile) : bool :=
  match tile_type tile with
  | TileType.DeepWater | TileType.Lava | TileType.Wall => false
  | _ => true
  end.

(** [(tile_arrive.elevation - tile_start.elevation).pow(2)] panics past
    [usize::MAX]. *)
Definition get_cost_elevation (tile_arrive tile_start : Tile) : option N :=
  if (elevation tile_arrive <=? elevation tile_start)%N then Some 0%N
  else let d := (elevation tile_arrive - elevation tile_start)%N in
       if (d ^ 2 <=? usize_max)%N then Some (d ^ 2)%N else None.

(** [a - b] on [usize]: panics below zero. *)
Definition usize_sub (a b : nat) : option nat :=
  if a <? b then None else Some (a - b).

(** One neighbour block of [get_neighbours]: the node for [arrive], a
    neighbour of [tile], labelled [label], if [arrive] is walkable. *)
Definition neighbour_node (arrive tile : Tile) (label : option nat) : option (list Node.t) :=
  if is_wakable arrive then
    let? l := label in
    if (elevation arrive =? 0)%N then Some [Node.mk l (get_cost arrive)]
    else let? ce := get_cost_elevation arrive tile in
         let w := (get_cost arrive + ce)%N in
         if (w <=? usize_max)%N then Some [Node.mk l w] else None
  else Some [].

(** [get_neighbours]: bottom ([x - 1]), right, top ([x + 1]) and left, in this
    order.  [x as i32 - 1 >= 0] is [1 <= x] for the indices of a map. *)
Definition get_neighbours (matrix_tile : list (list Tile)) (x y value : nat) (tile : Tile)
  : option (list Node.t) :=
  let? row0 := nth_error matrix_tile 0 in
  let rows := length matrix_tile in
  let cols := length row0 in
  let? at_bottom :=
    if (1 <=? x) && (x - 1 <? rows) && (y <? cols) then
      let? t := tile_at matrix_tile (x - 1) y in neighbour_node t tile (usize_sub value cols)
    else Some [] in
  let? at_right :=
    if (x <? rows) && (S y <? cols) then
      let? t := tile_at matrix_tile x (S y) in neighbour_node t tile (Some (value + 1))
    else Some [] in
  let? at_top :=
    if (S x <? rows) && (y <? cols) then
      let? t := tile_at matrix_tile (S x) y in neighbour_node t tile (Some (value + cols))
    else Some [] in
  let? at_left :=
    if (x <? rows) && (1 <=? y) && (y - 1 <? cols) then
      let? t := tile_at matrix_tile x (y - 1) in neighbour_node t tile (usize_sub value 1)
    else Some [] in
  Some (at_bottom ++ at_right ++ at_top ++ at_left).

Module TileTypeOrContent.
Inductive t :=
| TileType (ty : TileType.t)
| Content (c : Content.t).
End TileTypeOrContent.

Definition is_target (tile_or_content : TileTypeOrContent.t) (tile : Tile) : bool :=
  match tile_or_content with
  | TileTypeOrContent.TileType ty => tiletype_eqb (tile_type tile) ty
  | TileTypeOrContent.Content c => content_eqb (content tile) c
  end.

(** The inner loop of [change_matrix] over row [x] from column [y]; the
    accumulator is [(matrix_node, target_nodes, label_node)].  Pushing the
    neighbours onto [matrix_node[label_node]] indexes it only when there is
    at least one. *)
Fixpoint change_matrix_row (matrix_tile : list (list Tile)) (tile_or_content : TileTypeOrContent.t)
  (x y : nat) (row : list Tile) (acc : list (list Node.t) * list nat * nat)
  : option (list (list Node.t) * list nat * nat) :=
  match row with
  | [] => Some acc
  | tile :: row' =>
      let '(matrix_node, target_nodes, label_node) := acc in
      let is_walkable := is_wakable tile in
      let target_nodes' :=
        if is_target tile_or_content tile && is_walkable
        then target_nodes ++ [label_node] else target_nodes in
      let? matrix_node' :=
        if is_walkable then
          let? neighbours := get_neighbours matrix_tile x y label_node tile in
          match neighbours with
          | [] => Some matrix_node
          | _ => if label_node <? length matrix_node
                 then Some (list_set matrix_node label_node (nth label_node matrix_node [] ++ neighbours))
                 else None
          end
        else Some matrix_node in
      change_matrix_row matrix_tile tile_or_content x (S y) row'
        (matrix_node', target_nodes', S label_node)
  end.

Fixpoint change_matrix_rows (matrix_tile : list (list Tile)) (tile_or_content : TileTypeOrContent.t)
  (x : nat) (rows : list (list Tile)) (acc : list (list Node.t) * list nat * nat)
  : option (list (list Node.t) * list nat * nat) :=
  match rows with
  | [] => Some acc
  | row :: rows' =>
      let? acc' := change_matrix_row matrix_tile tile_or_content x 0 row acc in
      change_matrix_rows matrix_tile tile_or_content (S x) rows' acc'
  end.

Definition change_matrix (matrix_tile : list (list Tile)) (tile_or_content : TileTypeOrContent.t)
  : option (list (list Node.t) * list nat) :=
  let? row0 := nth_error matrix_tile 0 in
  let rows := length matrix_tile in
  let cols := length row0 in
  let? (matrix_node, target_nodes, _) :=
    change_matrix_rows matrix_tile tile_or_content 0 matrix_tile (repeat [] (rows * cols), [], 0) in
  Some (matrix_node, target_nodes).

(** [i32::MAX]. *)
Definition INF : Z := 2147483647.

(** [n as i32] truncates; [z as usize] sign-extends. *)
Definition usize_as_i32 (n : N) : Z :=
  let z := (Z.of_N n mod 2 ^ 32)%Z in if (z <? 2 ^ 31)%Z then z else (z - 2 ^ 32)%Z.
Definition i32_as_usize (z : Z) : N := Z.to_N (z mod 2 ^ 64).

Definition unwrap_or {A} (o : option A) (d : A) : A :=
  match o with Some a => a | None => d end.

(** The mutable locals of [dijkstra]; the heap is the multiset of its
    entries. *)
Record DState := mkDState {
  distance : list (option Z);
  predecessor : list (option nat);
  visited : list bool;
  heap : list Node.t
}.

(** The body of [for neighbor in &graph[index]], for the node [index] popped
    with distance [dist]. *)
Definition relax (index : nat) (dist : N) (st : DState) (neighbor : Node.t) : option DState :=
  let new_distance := (dist + Node.distance neighbor)%N in
  if negb (new_distance <=? usize_max)%N then None else
  let? dn := nth_error (distance st) (Node.index neighbor) in
  let neighbor_distance := i32_as_usize (unwrap_or dn INF) in
  if (new_distance <? neighbor_distance)%N then
    Some (mkDState
            (list_set (distance st) (Node.index neighbor) (Some (usize_as_i32 new_distance)))
            (list_set (predecessor st) (Node.index neighbor) (Some index))
            (visited st)
            (Node.mk (Node.index neighbor) new_distance :: heap st))
  else Some st.

Fixpoint relax_all (index : nat) (dist : N) (neighbors : list Node.t) (st : DState) : option DState :=
  match neighbors with
  | [] => Some st
  | nb :: rest => let? st' := relax index dist st nb in relax_all index dist rest st'
  end.

Fixpoint edge_count (graph : list (list Node.t)) : nat :=
  match graph with
  | [] => 0
  | ns :: graph' => length ns + edge_count graph'
  end.

Section Dijkstra.

(** [BinaryHeap::pop] under the reversed [Ord] of [Node]: an entry of least
    [distance] and the other entries; which of several such entries comes
    out depends on the heap's layout. *)
Variable pop : list Node.t -> option (Node.t * list Node.t).

(** The [while let] loop.  Each round drops a stale entry or visits a node
    and pushes at most its out-degree, so [1 + edge_count graph] rounds
    empty the heap. *)
Fixpoint dijkstra_loop (fuel : nat) (graph : list (list Node.t)) (st : DState) : option DState :=
  match fuel with
  | 0 => Some st
  | S fuel' =>
      match pop (heap st) with
      | None => Some st
      | Some (node, rest) =>
          let index := Node.index node in
          let? seen := nth_error (visited st) index in
          if seen then dijkstra_loop fuel' graph (mkDState (distance st) (predecessor st) (visited st) rest)
          else
            let st2 := mkDState (distance st) (predecessor st) (list_set (visited st) index true) rest in
            let? neighbors := nth_error graph index in
            let? st3 := relax_all index (Node.distance node) neighbors st2 in
            dijkstra_loop fuel' graph st3
      end
  end.

Definition dijkstra (graph : list (list Node.t)) (start : nat)
  : option (list (option Z) * list (option nat)) :=
  let n := length graph in
  if n <=? start then None else
  let st0 := mkDState (list_set (repeat None n) start (Some 0%Z)) (repeat None n)
                      (repeat false n) [Node.mk start 0] in
  let? st := dijkstra_loop (S (edge_count graph)) graph st0 in
  Some (distance st, predecessor st).

End Dijkstra.

(** The [while let] loop of [reconstruct_shortest_path], [path] being built
    from the target backwards.  Running out of fuel is only possible on a
    cyclic predecessor vector, where the source loops forever; [None] is
    that or an index out of range (a panic). *)
Fixpoint walk_back (fuel : nat) (predecessor : list (option nat)) (current : nat) (path : list nat)
  : option (list nat) :=
  match fuel with
  | 0 => None
  | S fuel' =>
      match nth_error predecessor current with
      | None => None
      | Some (Some prev) => walk_back fuel' predecessor prev (path ++ [current])
      | Some None => Some (path ++ [current])
      end
  end.

Fixpoint list_nat_eqb (l l' : list nat) : bool :=
  match l, l' with
  | [], [] => true
  | a :: t, a' :: t' => (a =? a') && list_nat_eqb t t'
  | _, _ => false
  end.

(** [Some r]: the call returns [r]; [None]: it panics or does not return. *)
Definition reconstruct_shortest_path (predecessor : list (option nat)) (target : nat)
  : option (option (list nat)) :=
  let? path0 := walk_back (S (length predecessor)) predecessor target [] in
  let path := rev path0 in
  if length path =? 0 then Some None
  else if list_nat_eqb path [target] then Some None
  else Some (Some path).

(** Paths of [graph] from [start], the node list written from the last node
    back to [start], with their total weight. *)
Inductive path_to (graph : list (list Node.t)) (start : nat) : list nat -> N -> Prop :=
| path_start : path_to graph start [start] 0
| path_step u rp w nb :
    path_to graph start (u :: rp) w -> In nb (nth u graph []) ->
    path_to graph start (Node.index nb :: u :: rp) (w + Node.distance nb).

Definition is_rectangular (m : list (list Tile)) : bool :=
  forallb (fun row => length row =? length (hd [] m)) m.

(** A heap pop that takes the first entry of least distance. *)
Fixpoint pop_min (h : list Node.t) : option (Node.t * list Node.t) :=
  match h with
  | [] => None
  | x :: t =>
      match pop_min t with
      | None => Some (x, [])
      | Some (y, t') =>
          if (Node.distance x <=? Node.distance y)%N then Some (x, t) else Some (y, x :: t')
      end
  end.


(** ** Sample states *)

Definition env_sunny_afternoon := mkEnv Sunny Afternoon.

(** On a sunny afternoon [calculate_cost_go_with_environment] adds nothing
    for a non-sand tile type (the increment stays [0.0]); for a zero base
    cost it adds nothing under any weather. *)
Definition env_cost_unchanged (cost : nat) (_ : EnvironmentalConditions) (_ : TileType.t) : nat :=
  cost.

Definition grass0 := mkTile TileType.Grass Content.None 0.

(** A backpack of the given size holding [n] units of [c]. *)
Definition backpack_with (sz : nat) (c : Content.t) (n : nat) : BackPack :=
  snd (add_to_backpack c n (backpack_new sz)).

(** A 3x3 map with a bank at (1, 1); the robot stands above it at (0, 1)
    with 20 coins. *)
Definition bank_state : St :=
  mkSt (mkRobot (energy_new 1000) (0, 1) (backpack_with 20 (Content.Coin 0) 20))
       (mkWorld [[grass0; grass0; grass0];
                 [grass0; mkTile TileType.Grass (Content.Bank (mkRange 0 11)) 0; grass0];
                 [grass0; grass0; grass0]] 3 9 env_sunny_afternoon) [].

(** A 1x2 map: the robot at (0, 0) next to [right]. *)
Definition pair_state (e : nat) (b : BackPack) (right : Tile) : St :=
  mkSt (mkRobot (energy_new e) (0, 0) b)
       (mkWorld [[grass0; right]] 2 0 env_sunny_afternoon) [].

(** Three rocks next to a robot whose backpack has room for two. *)
Definition rock_state : St :=
  pair_state 1000 (backpack_new 2) (mkTile TileType.Grass (Content.Rock 3) 0).

(** An unactivated teleport one step up, and no energy left. *)
Definition teleport_state : St :=
  pair_state 0 (backpack_new 2) (mkTile (TileType.Teleport false) Content.None 1).

(** A market with 3 operations left, next to a robot holding nothing. *)
Definition market_state : St :=
  pair_state 1000 (backpack_new 20) (mkTile TileType.Grass (Content.Market 3) 0).

(** A robot holding a single rock and nothing else. *)
Definition one_rock_state : St :=
  pair_state 1000 (backpack_with 20 (Content.Rock 0) 1) grass0.

(** A 1x2 grass map whose second tile stands 46341 above the first: the
    step up costs [1 + 46341 ^ 2 = 2147488282], beyond [i32::MAX]. *)
Definition steep_grid : list (list Tile) :=
  [[grass0; mkTile TileType.Grass Content.None 46341]].

Definition small_grid : list (list Tile) :=
  [[grass0; mkTile TileType.Street Content.None 0; mkTile TileType.Hill Content.None 2];
   [mkTile TileType.Wall Content.None 0; mkTile TileType.Sand (Content.Rock 2) 1; grass0]].


(** ** Sequences of calls *)

Inductive EnergyOp := Consume (n : nat) | Recharge (n : nat).

Definition energy_step (op : EnergyOp) : SM Energy unit :=
  match op with
  | Consume n => consume_energy n
  | Recharge n => recharge_energy n
  end.

(** A sequence of calls on one [Energy]; an [Err] leaves the caller free to
    go on, a panic ends the run ([None]). *)
Fixpoint run_energy (ops : list EnergyOp) (e : Energy) : option Energy :=
  match ops with
  | [] => Some e
  | op :: rest =>
      match energy_step op e with
      | (Panic, _) => None
      | (_, e') => run_energy rest e'
      end
  end.

(** A sequence of [add_to_backpack] calls, each result ignored. *)
Fixpoint run_adds (adds : list (Content.t * nat)) (b : BackPack) : BackPack :=
  match adds with
  | [] => b
  | (c, q) :: rest => run_adds rest (snd (add_to_backpack c q b))
  end.

(** [pop] takes out an entry of least distance, as [BinaryHeap::pop] does
    under the reversed [Ord] of [Node]. *)
Definition pops_min (pop : list Node.t -> option (Node.t * list Node.t)) : Prop :=
  forall h, match pop h with
            | None => h = []
            | Some (x, rest) =>
                Permutation h (x :: rest) /\
                forall y, In y h -> (Node.distance x <= Node.distance y)%N
            end.

(** ** Invariants of the Dijkstra loop *)

(** Following [predecessor] from [y] visits the nodes [l] and stops. *)
Inductive chain (p : list (option nat)) : nat -> list nat -> Prop :=
| chain_end y : nth_error p y = Some None -> chain p y [y]
| chain_step y u l : nth_error p y = Some (Some u) -> chain p u l -> chain p y (y :: l).

Definition reaches (graph : list (list Node.t)) (start v : nat) (w : N) : Prop :=
  exists rp, path_to graph start rp w /\ hd_error rp = Some v.

Definition dist_of (st : DState) (v : nat) : option Z := nth v (distance st) None.
Definition pred_of (st : DState) (v : nat) : option nat := nth v (predecessor st) None.
Definition seen (st : DState) (v : nat) : bool := nth v (visited st) false.

(** [distance[v].unwrap_or(INF) as usize]. *)
Definition dv (o : option Z) : N := i32_as_usize (unwrap_or o INF).

Record dinv (graph : list (list Node.t)) (start : nat) (st : DState) : Prop := {
  inv_len_d : length (distance st) = length graph;
  inv_len_p : length (predecessor st) = length graph;
  inv_len_v : length (visited st) = length graph;
  inv_range : forall v z, dist_of st v = Some z -> (0 <= z < INF)%Z;
  inv_sound : forall v z, dist_of st v = Some z -> reaches graph start v (Z.to_N z);
  inv_start : dist_of st start = Some 0%Z;
  inv_heap : forall x, In x (heap st) ->
    exists z, dist_of st (Node.index x) = Some z /\ (Z.to_N z <= Node.distance x)%N;
  inv_pending : forall v z, seen st v = false -> dist_of st v = Some z ->
    In (Node.mk v (Z.to_N z)) (heap st);
  inv_below : forall u z x, seen st u = true -> dist_of st u = Some z -> In x (heap st) ->
    (Z.to_N z <= Node.distance x)%N;
  inv_pred : forall v u, pred_of st v = Some u ->
    seen st u = true /\
    exists zu zv nb, dist_of st u = Some zu /\ dist_of st v = Some zv /\
      In nb (nth u graph []) /\ Node.index nb = v /\
      Z.to_N zv = (Z.to_N zu + Node.distance nb)%N;
  inv_pred_start : pred_of st start = None;
  inv_has_pred : forall v z, dist_of st v = Some z -> v = start \/ pred_of st v <> None;
  inv_chain : forall v u, pred_of st v = Some u -> exists l, chain (predecessor st) v l
}.

(** Every visited node [u] has a distance, and the edges [relaxed u] out of
    it have been relaxed. *)
Definition settled (relaxed : nat -> list Node.t) (st : DState) : Prop :=
  forall u, seen st u = true ->
    exists z, dist_of st u = Some z /\
      forall nb, In nb (relaxed u) ->
        (dv (dist_of st (Node.index nb)) <= Z.to_N z + Node.distance nb)%N.

Definition relaxed_from (graph : list (list Node.t)) (x : nat) (processed : list Node.t) (u : nat)
  : list Node.t :=
  if u =? x then processed else nth u graph [].

Fixpoint unvisited_edges (graph : list (list Node.t)) (vis : list bool) : nat :=
  match graph with
  | [] => 0
  | ns :: graph' => (if hd false vis then 0 else length ns) + unvisited_edges graph' (tl vis)
  end.

Definition edges_below (bound : nat) (mn : list (list Node.t)) : Prop :=
  forall u nb, In nb (nth u mn []) -> Node.index nb < bound.

(** ** Targets connected to the start (src/tools/dijkstra.rs) *)

(** The mutable locals of [find_connected_targets]. *)
Record CState := mkCState {
  c_heap : list Node.t;
  c_visited : list bool;
  c_connected : list nat
}.

Section Connected.
Variable pop : list Node.t -> option (Node.t * list Node.t).
(** [for &neighbor in graph[index].iter()]: push the unvisited ones with
    [distance + neighbor.index] (a [usize] sum). *)
Fixpoint push_unvisited (distance : N) (neighbors : list Node.t) (visited : list bool)
  (h : list Node.t) : option (list Node.t) :=
  match neighbors with
  | [] => Some h
  | nb :: rest =>
      let? v := nth_error visited (Node.index nb) in
      if v then push_unvisited distance rest visited h
      else
        let d := (distance + N.of_nat (Node.index nb))%N in
        if negb (d <=? usize_max)%N then None else
        push_unvisited distance rest visited (Node.mk (Node.index nb) d :: h)
  end.
(** The [while let Some(..) = heap.pop()] loop; [None] is a panic or the
    fuel running out. *)
Fixpoint connected_loop (fuel : nat) (graph : list (list Node.t)) (targets : list nat)
  (st : CState) : option (list nat) :=
  match fuel with
  | 0 => None
  | S fuel' =>
      match pop (c_heap st) with
      | None => Some (c_connected st)
      | Some (node, rest) =>
          let index := Node.index node in
          let? seen := nth_error (c_visited st) index in
          if seen then connected_loop fuel' graph targets (mkCState rest (c_visited st) (c_connected st))
          else
            let vis := list_set (c_visited st) index true in
            let conn := if existsb (Nat.eqb index) targets
                        then c_connected st ++ [index] else c_connected st in
            let? neighbors := nth_error graph index in
            let? h := push_unvisited (Node.distance node) neighbors vis rest in
            connected_loop fuel' graph targets (mkCState h vis conn)
      end
  end.
(** [find_connected_targets].  Each round drops an entry or visits a node
    for the first time and pushes at most its out-degree, so
    [2 + edge_count graph] rounds reach the empty heap. *)
Definition find_connected_targets (graph : list (list Node.t)) (start : nat) (targets : list nat)
  : option (list nat) :=
  connected_loop (S (S (edge_count graph))) graph targets
    (mkCState [Node.mk start 0] (repeat false (length graph)) []).
End Connected.

Definition reachable (graph : list (list Node.t)) (start t : nat) : Prop :=
  exists rp w, path_to graph start rp w /\ hd_error rp = Some t.

Record cinv (graph : list (list Node.t)) (start : nat) (targets : list nat) (st : CState) : Prop := {
  ci_len : length (c_visited st) = length graph;
  ci_heap : forall x, In x (c_heap st) -> reachable graph start (Node.index x);
  ci_vis : forall u, nth u (c_visited st) false = true -> reachable graph start u;
  ci_conn : forall t, In t (c_connected st) <-> In t targets /\ nth t (c_visited st) false = true;
  ci_nodup : NoDup (c_connected st);
  ci_start : nth start (c_visited st) false = true \/ exists x, In x (c_heap st) /\ Node.index x = start;
  ci_closed : forall u nb, nth u (c_visited st) false = true -> In nb (nth u graph []) ->
    nth (Node.index nb) (c_visited st) false = true \/
    exists x, In x (c_heap st) /\ Node.index x = Node.index nb
}.

Definition count_true (vis : list bool) : nat := length (filter (fun b => b) vis).

(** ** Coordinates, directions and paths (src/tools/dijkstra.rs) *)

(** A [HashMap<usize, V>] as an association list; [insert] overwrites. *)
Fixpoint nat_insert {V} (m : list (nat * V)) (k : nat) (v : V) : list (nat * V) :=
  match m with
  | [] => [(k, v)]
  | (k', v') :: t => if k =? k' then (k', v) :: t else (k', v') :: nat_insert t k v
  end.

Fixpoint nat_lookup {V} (m : list (nat * V)) (k : nat) : option V :=
  match m with
  | [] => None
  | (k', v) :: t => if k =? k' then Some v else nat_lookup t k
  end.

(** The two loops of [get_coordinates]; the accumulator is
    [(hm, current_index)]. *)
Fixpoint get_coordinates_row (i j : nat) (row : list Tile) (acc : list (nat * (nat * nat)) * nat)
  : list (nat * (nat * nat)) * nat :=
  match row with
  | [] => acc
  | _ :: row' =>
      let '(hm, current_index) := acc in
      get_coordinates_row i (S j) row' (nat_insert hm current_index (i, j), S current_index)
  end.

Fixpoint get_coordinates_rows (i : nat) (rows : list (list Tile)) (acc : list (nat * (nat * nat)) * nat)
  : list (nat * (nat * nat)) * nat :=
  match rows with
  | [] => acc
  | row :: rows' => get_coordinates_rows (S i) rows' (get_coordinates_row i 0 row acc)
  end.

Definition get_coordinates (matrix : list (list Tile)) : list (nat * (nat * nat)) :=
  fst (get_coordinates_rows 0 matrix ([], 0)).

(** The three [Err] strings of [path_to_directions]. *)
Inductive PathError := MissingCurrent | MissingNext | InvalidChange.

(** [a - b] on [i32]: panics on overflow. *)
Definition i32_sub (a b : Z) : option Z :=
  let d := (a - b)%Z in
  if ((- 2 ^ 31 <=? d) && (d <? 2 ^ 31))%Z then Some d else None.

(** The [match] on [(next.0 as i32 - current.0 as i32, next.1 as i32 -
    current.1 as i32)]; [Some (inr ..)] is the [Err] arm. *)
Definition direction_of (current next : nat * nat) : option (Direction + PathError) :=
  let? dr := i32_sub (usize_as_i32 (N.of_nat (fst next))) (usize_as_i32 (N.of_nat (fst current))) in
  let? dc := i32_sub (usize_as_i32 (N.of_nat (snd next))) (usize_as_i32 (N.of_nat (snd current))) in
  Some (if (dr =? -1)%Z && (dc =? 0)%Z then inl Up
        else if (dr =? 1)%Z && (dc =? 0)%Z then inl Down
        else if (dr =? 0)%Z && (dc =? -1)%Z then inl Left
        else if (dr =? 0)%Z && (dc =? 1)%Z then inl Right
        else inr InvalidChange).

(** [for i in 1..path.len()] over the pairs [(path[i - 1], path[i])];
    [None] is a panic. *)
Fixpoint path_to_directions_loop (coordinates : list (nat * (nat * nat))) (path : list nat)
  (directions : list Direction) : option (list Direction + PathError) :=
  match path with
  | current_node :: ((next_node :: _) as rest) =>
      match nat_lookup coordinates current_node with
      | None => Some (inr MissingCurrent)
      | Some current_coords =>
          match nat_lookup coordinates next_node with
          | None => Some (inr MissingNext)
          | Some next_coords =>
              let? d := direction_of current_coords next_coords in
              match d with
              | inr e => Some (inr e)
              | inl direction =>
                  path_to_directions_loop coordinates rest (directions ++ [direction])
              end
          end
      end
  | _ => Some (inl directions)
  end.

Definition path_to_directions (coordinates : list (nat * (nat * nat))) (path : list nat)
  : option (list Direction + PathError) :=
  match path with
  | [] => Some (inl [])
  | _ => path_to_directions_loop coordinates path []
  end.

(** The cell one step from [(r, c)] in direction [d], as [go] computes it. *)
Definition step_coords (rc : nat * nat) (d : Direction) : nat * nat :=
  let '(r, c) := rc in
  match d with
  | Up => (r - 1, c)
  | Down => (S r, c)
  | Left => (r, c - 1)
  | Right => (r, S c)
  end.

(** [q] is the cell one step from [p] in direction [d]. *)
Definition moves (p : nat * nat) (d : Direction) (q : nat * nat) : Prop :=
  match d with
  | Up => S (fst q) = fst p /\ snd q = snd p
  | Down => fst q = S (fst p) /\ snd q = snd p
  | Left => fst q = fst p /\ S (snd q) = snd p
  | Right => fst q = fst p /\ snd q = S (snd p)
  end.

Definition coords_small (coordinates : list (nat * (nat * nat))) : Prop :=
  forall k p, nat_lookup coordinates k = Some p ->
    (N.of_nat (fst p) < 2147483647)%N /\ (N.of_nat (snd p) < 2147483647)%N.

Definition steps_ok (coordinates : list (nat * (nat * nat))) (path : list nat) (ds : list Direction) : Prop :=
  length ds = length path - 1 /\
  forall i, i < length ds -> exists p q,
    nat_lookup coordinates (nth i path 0) = Some p /\
    nat_lookup coordinates (nth (S i) path 0) = Some q /\ moves p (nth i ds Up) q.

Definition edges_move (cols : nat) (mn : list (list Node.t)) : Prop :=
  forall u nb, In nb (nth u mn []) ->
    exists d, moves (u / cols, u mod cols) d (Node.index nb / cols, Node.index nb mod cols).

(** [PathResult] *)
Record PathResult := mkPathResult {
  path : option (list nat);
  target_node : nat;
  total_cost : Z
}.

(** The [for target_node in target_nodes] loop of [find_shortest_paths];
    [shortest_distances[*target_node]] panics out of range. *)
Fixpoint collect_results (shortest_distances : list (option Z)) (predecessors : list (option nat))
  (target_nodes : list nat) : option (list PathResult) :=
  match target_nodes with
  | [] => Some []
  | target_node :: rest =>
      let? path := reconstruct_shortest_path predecessors target_node in
      let? d := nth_error shortest_distances target_node in
      let tmp := match d with None => 0%Z | Some t => t end in
      let? results := collect_results shortest_distances predecessors rest in
      Some (mkPathResult path target_node tmp :: results)
  end.

Definition find_shortest_paths (pop : list Node.t -> option (Node.t * list Node.t))
  (graph : list (list Node.t)) (start : nat) (target_nodes : list nat) : option (list PathResult) :=
  let? (shortest_distances, predecessors) := dijkstra pop graph start in
  collect_results shortest_distances predecessors target_nodes.

(** [paths.iter().min_by_key(|path| path.total_cost)]: the first entry of
    least [total_cost]. *)
Definition min_by_total_cost (paths : list PathResult) : option PathResult :=
  match paths with
  | [] => None
  | x :: rest =>
      Some (fold_left (fun acc y => if (total_cost y <? total_cost acc)%Z then y else acc) rest x)
  end.

(** How a call ends when its loop is run for at most [fuel] rounds. *)
Inductive Outcome (A : Type) :=
| Returns (a : A)
| Panics
| OutOfFuel.

Arguments Returns {A} a.

Arguments Panics {A}.

Arguments OutOfFuel {A}.

(** The [while !target_nodes.is_empty()] loop of [build_path].  When the
    chosen result has no path nothing changes and the loop goes round
    again. *)
Fixpoint build_path_loop (pop : list Node.t -> option (Node.t * list Node.t)) (fuel : nat)
  (graph : list (list Node.t)) (start : nat) (target_nodes : list nat)
  (coordinates : list (nat * (nat * nat))) (final_path : list (list Direction))
  : Outcome (list (list Direction) + PathError) :=
  match fuel with
  | 0 => OutOfFuel
  | S fuel' =>
      match target_nodes with
      | [] => Returns (inl final_path)
      | _ :: _ =>
          match find_shortest_paths pop graph start target_nodes with
          | None => Panics
          | Some paths =>
              match min_by_total_cost paths with
              | Some best =>
                  match path best with
                  | Some p =>
                      match hd_error (rev p) with
                      | None => Panics
                      | Some start' =>
                          match path_to_directions coordinates p with
                          | None => Panics
                          | Some (inr e) => Returns (inr e)
                          | Some (inl directions) =>
                              build_path_loop pop fuel' graph start'
                                (filter (fun x => negb (x =? target_node best)) target_nodes)
                                coordinates (final_path ++ [directions])
                          end
                      end
                  | None => build_path_loop pop fuel' graph start target_nodes coordinates final_path
                  end
              | None => build_path_loop pop fuel' graph start target_nodes coordinates final_path
              end
          end
      end
  end.

Definition build_path pop (fuel : nat) graph start target_nodes coordinates :=
  build_path_loop pop fuel graph start target_nodes coordinates [].

(** ** The robot's view, its map and teleports (src/interface/mod.rs, src/utils/mod.rs) *)

(** [tmp[i][j]] of [robot_view]: the cell is off the map. *)
Definition view_flag (top left bottom right : bool) (i j : nat) : bool :=
  (top && (i =? 0)) || (left && (j =? 0)) || (bottom && (i =? 2)) || (right && (j =? 2)).

(** The inner [for_each] of [robot_view] on row [i]. *)
Fixpoint view_cols (flag : nat -> nat -> bool) (robot_row robot_col i : nat) (js : list nat)
  : SM St (list (option Tile)) :=
  match js with
  | [] => ret []
  | j :: js' =>
      cell <- (if flag i j then ret None else
               match usize_sub (robot_row + i) 1, usize_sub (robot_col + j) 1 with
               | Some row, Some col =>
                   t <- read_tile row col ;; add_to_plot row col ;;; ret (Some t)
               | _, _ => panic
               end) ;;
      rest <- view_cols flag robot_row robot_col i js' ;;
      ret (cell :: rest)
  end.

Fixpoint view_rows (flag : nat -> nat -> bool) (robot_row robot_col : nat) (is : list nat)
  : SM St (list (list (option Tile))) :=
  match is with
  | [] => ret []
  | i :: is' =>
      row <- view_cols flag robot_row robot_col i [0; 1; 2] ;;
      rest <- view_rows flag robot_row robot_col is' ;;
      ret (row :: rest)
  end.

(** [robot_view]: [world.dimension - 1] panics on an empty world (nothing is
    read or written before it). *)
Definition robot_view : SM St (list (list (option Tile))) :=
  s <- get ;;
  let '(robot_row, robot_col) := coordinate (robot s) in
  let dim := dimension (world s) in
  if dim =? 0 then panic else
  let flag := view_flag (robot_row =? 0) (robot_col =? 0)
                        (robot_row =? dim - 1) (robot_col =? dim - 1) in
  view_rows flag robot_row robot_col [0; 1; 2].

(** [where_am_i] *)
Definition where_am_i : SM St (list (list (option Tile)) * (nat * nat)) :=
  v <- robot_view ;;
  s <- get ;;
  ret (v, coordinate (robot s)).

(** [teleport_allowed]: [||] reads the target tile only when the robot
    stands on an active teleport. *)
Definition teleport_allowed (teleport_row teleport_col : nat) : SM St unit :=
  s <- get ;;
  if negb (go_allowed_row_col (world s) teleport_row teleport_col) then fail OutOfBounds else
  let '(robot_row, robot_col) := coordinate (robot s) in
  t1 <- read_tile robot_row robot_col ;;
  if negb (tiletype_eqb (tile_type t1) (TileType.Teleport true)) then fail OperationNotAllowed else
  t2 <- read_tile teleport_row teleport_col ;;
  if negb (tiletype_eqb (tile_type t2) (TileType.Teleport true)) then fail OperationNotAllowed else
  ret tt.

Definition TELEPORT_COST := 30.

(** [teleport] *)
Definition teleport (coordinates : nat * nat)
  : SM St (list (list (option Tile)) * (nat * nat)) :=
  teleport_allowed (fst coordinates) (snd coordinates) ;;;
  on_energy (consume_energy TELEPORT_COST) ;;;
  (fun s => (Ok tt, set_coordinate s coordinates)) ;;;
  where_am_i.

(** The loop of [robot_map]: [out[x][y] = Some(world.map[x][y].clone())]
    for each coordinate of the plot (both indexings panic out of range). *)
Fixpoint fill_plot (m : list (list Tile)) (out : list (list (option Tile)))
  (pl : list (nat * nat)) : option (list (list (option Tile))) :=
  match pl with
  | [] => Some out
  | (x, y) :: rest =>
      let? t := tile_at m x y in
      let? row := nth_error out x in
      if y <? length row then fill_plot m (list_set out x (list_set row y (Some t))) rest
      else None
  end.

(** [robot_map]: [poisoned] tells whether [PLOT.lock()] fails. *)
Definition robot_map (poisoned : bool) : SM St (option (list (list (option Tile)))) :=
  fun s =>
    let dim := dimension (world s) in
    let out := repeat (repeat None dim) dim in
    if poisoned then (Ok None, s) else
    match fill_plot (map (world s)) out (plot s) with
    | Some o => (Ok (Some o), s)
    | None => (Panic, s)
    end.

Definition view_cell (m : list (list Tile)) (flag : nat -> nat -> bool) (r c i j : nat)
  : option Tile :=
  if flag i j then None else tile_at m (r + i - 1) (c + j - 1).

(** A square map: [dimension] rows of [dimension] tiles. *)
Definition square (w : World) : Prop :=
  length (map w) = dimension w /\ forall row, In row (map w) -> length row = dimension w.

(** An [n] by [n] grid. *)
Definition grid_dims {A} (n : nat) (out : list (list A)) : Prop :=
  length out = n /\ forall row, In row out -> length row = n.

Definition tile_type_at (m : list (list Tile)) (r c : nat) : option TileType.t :=
  option_map tile_type (tile_at m r c).

(** ** What a call on one tile leaves alone *)

(** What a call that acts on the tile [target] leaves alone. *)
Record frame (target : nat * nat) (s s' : St) : Prop := {
  fr_coord : coordinate (robot s') = coordinate (robot s);
  fr_dim : dimension (world s') = dimension (world s);
  fr_disc : discoverable (world s') = discoverable (world s);
  fr_env : environmental_conditions (world s') = environmental_conditions (world s);
  fr_plot : plot s' = plot s;
  fr_energy : energy_level (energy (robot s')) <= energy_level (energy (robot s));
  fr_tiles : forall x y, (x, y) <> target ->
               tile_at (map (world s')) x y = tile_at (map (world s)) x y
}.

Definition keeps {A} (target : nat * nat) (m : SM St A) : Prop :=
  forall s r s', m s = (r, s') -> frame target s s'.


(** ** More sample states and checks *)

(** The graph [change_matrix small_grid] builds for grass; node [3] is the
    wall. *)
Definition small_grid_graph : list (list Node.t) :=
  [[Node.mk 1 0]; [Node.mk 2 9; Node.mk 4 4; Node.mk 0 1];
   [Node.mk 5 1; Node.mk 1 0]; []; [Node.mk 1 0; Node.mk 5 1];
   [Node.mk 2 9; Node.mk 4 4]].

(** A 3x3 grass map; the robot stands at (0, 1) with 100 energy, and [pl]
    is the plot. *)
Definition grid3_state (pl : list (nat * nat)) : St :=
  mkSt (mkRobot (energy_new 100) (0, 1) (backpack_new 5))
       (mkWorld [[grass0; grass0; grass0]; [grass0; grass0; grass0];
                 [grass0; grass0; grass0]] 3 9 env_sunny_afternoon) pl.

Definition teleport_pad := mkTile (TileType.Teleport true) Content.None 0.

(** A 2x2 map whose top row holds two activated teleports; the robot stands
    on the first one with [e] energy. *)
Definition teleport_grid_state (e : nat) : St :=
  mkSt (mkRobot (energy_new e) (0, 0) (backpack_new 5))
       (mkWorld [[teleport_pad; teleport_pad]; [grass0; grass0]] 2 4 env_sunny_afternoon) [].

Definition square_b (w : World) : bool :=
  (length (map w) =? dimension w) && forallb (fun row => length row =? dimension w) (map w).

Definition edges_in_range (graph : list (list Node.t)) : bool :=
  forallb (fun ns => forallb (fun nb => Node.index nb <? length graph) ns) graph.

Definition coords_small_b (coordinates : list (nat * (nat * nat))) : bool :=
  forallb (fun '(_, (x, y)) => (N.of_nat x <? 2147483647)%N && (N.of_nat y <? 2147483647)%N)
    coordinates.


(** * Lemmas *)

Lemma content_eqb_true a b : content_eqb a b = true <-> a = b.
Proof. unfold content_eqb; destruct (content_eq_dec a b); split; congruence. Qed.

Lemma content_eqb_refl a : content_eqb a a = true.
Proof. apply content_eqb_true; reflexivity. Qed.

Lemma content_eqb_false a b : content_eqb a b = false <-> a <> b.
Proof. unfold content_eqb; destruct (content_eq_dec a b); split; congruence. Qed.

Lemma tiletype_eqb_true a b : tiletype_eqb a b = true <-> a = b.
Proof. unfold tiletype_eqb; destruct (tiletype_eq_dec a b); split; congruence. Qed.

Lemma bind_ok {S A B} (m : SM S A) (k : A -> SM S B) s a s' :
  m s = (Ok a, s') -> bind m k s = k a s'.
Proof. intros H; unfold bind; rewrite H; reflexivity. Qed.

Lemma nth_error_list_set_same {A} (l : list A) i x y :
  nth_error l i = Some y -> nth_error (list_set l i x) i = Some x.
Proof.
  revert i; induction l as [|h t IH]; intros [|i] H; simpl in *; try discriminate; auto.
Qed.

Lemma nth_error_list_set_other {A} (l : list A) i j x :
  j <> i -> nth_error (list_set l i x) j = nth_error l j.
Proof.
  revert i j; induction l as [|h t IH]; intros [|i] [|j] H; simpl; auto; lia.
Qed.

Lemma length_list_set {A} (l : list A) i x : length (list_set l i x) = length l.
Proof. revert i; induction l as [|h t IH]; intros [|i]; simpl; auto. Qed.

Lemma tile_at_write_same m r c t t0 :
  tile_at m r c = Some t0 ->
  tile_at (list_set m r (list_set (nth r m []) c t)) r c = Some t.
Proof.
  unfold tile_at. destruct (nth_error m r) as [row|] eqn:E; [|discriminate].
  intros H. rewrite (nth_error_list_set_same _ _ _ row E).
  rewrite (nth_error_nth _ _ _ E). exact (nth_error_list_set_same _ _ _ _ H).
Qed.

Lemma tile_at_write_other m r c r' c' t :
  (r', c') <> (r, c) ->
  tile_at (list_set m r (list_set (nth r m []) c t)) r' c' = tile_at m r' c'.
Proof.
  intros Hne. unfold tile_at.
  destruct (Nat.eq_dec r' r) as [->|Hr].
  - destruct (nth_error m r) as [row|] eqn:E.
    + rewrite (nth_error_list_set_same _ _ _ row E), (nth_error_nth _ _ _ E).
      apply nth_error_list_set_other. congruence.
    + assert (length m <= r) by (apply nth_error_None; exact E).
      rewrite (proj2 (nth_error_None _ _)); [reflexivity|].
      rewrite length_list_set. exact H.
  - rewrite nth_error_list_set_other by exact Hr. reflexivity.
Qed.

Lemma hm_get_set_same l k v v0 :
  hm_get l k = Some v0 -> hm_get (hm_set l k v) k = Some v.
Proof.
  induction l as [|[k' x] t IH]; simpl; [discriminate|].
  destruct (content_eqb k k') eqn:E; simpl.
  - intros _. apply content_eqb_true in E; subst. rewrite content_eqb_refl. reflexivity.
  - rewrite E. exact IH.
Qed.

Lemma hm_get_set_other l k k' v :
  k' <> k -> hm_get (hm_set l k v) k' = hm_get l k'.
Proof.
  intros Hne. induction l as [|[k0 x] t IH]; simpl; [reflexivity|].
  destruct (content_eqb k k0) eqn:E; simpl.
  - apply content_eqb_true in E; subst.
    assert (content_eqb k' k0 = false) as -> by (apply content_eqb_false; exact Hne).
    reflexivity.
  - destruct (content_eqb k' k0); [reflexivity | exact IH].
Qed.

Lemma to_default_idem c : to_default (to_default c) = to_default c.
Proof. destruct c; reflexivity. Qed.

Lemma hm_sum_cons k v l : hm_sum ((k, v) :: l) = v + hm_sum l.
Proof. reflexivity. Qed.

Lemma hm_sum_entry_add l k q : hm_sum (hm_entry_add l k q) = hm_sum l + q.
Proof.
  induction l as [|[k' v] t IH]; simpl.
  - unfold hm_sum; simpl; lia.
  - destruct (content_eqb k k'); rewrite !hm_sum_cons; [|rewrite IH]; lia.
Qed.

Lemma hm_get_entry_add_same l k q :
  hm_get (hm_entry_add l k q) k =
  Some (match hm_get l k with Some v => v + q | None => q end).
Proof.
  induction l as [|[k' v] t IH]; simpl.
  - rewrite content_eqb_refl; reflexivity.
  - destruct (content_eqb k k') eqn:E; simpl.
    + apply content_eqb_true in E; subst. rewrite content_eqb_refl; reflexivity.
    + rewrite E. exact IH.
Qed.

Lemma hm_get_entry_add_other l k k' q :
  k' <> k -> hm_get (hm_entry_add l k q) k' = hm_get l k'.
Proof.
  intros Hne. induction l as [|[k0 v] t IH]; simpl.
  - assert (content_eqb k' k = false) as -> by (apply content_eqb_false; exact Hne).
    reflexivity.
  - destruct (content_eqb k k0) eqn:E; simpl.
    + apply content_eqb_true in E; subst.
      assert (content_eqb k' k0 = false) as -> by (apply content_eqb_false; exact Hne).
      reflexivity.
    + destruct (content_eqb k' k0); [reflexivity | exact IH].
Qed.

Lemma add_to_backpack_sum c q b b' r :
  add_to_backpack c q b = (r, b') ->
  size b' = size b /\
  (r = Panic /\ b' = b \/
   backpack_sum b <= size b /\ backpack_sum b' = backpack_sum b + Nat.min q (size b - backpack_sum b)).
Proof.
  unfold add_to_backpack. intros H.
  destruct (size b <? backpack_sum b) eqn:E.
  - inversion H; subst; auto.
  - apply Nat.ltb_ge in E.
    destruct (q <=? size b - backpack_sum b); inversion H; subst; simpl;
      (split; [reflexivity | right; split; [exact E | unfold backpack_sum; simpl; apply hm_sum_entry_add]]).
Qed.

Lemma run_adds_bounded adds b :
  backpack_sum b <= size b ->
  backpack_sum (run_adds adds b) <= size (run_adds adds b).
Proof.
  revert b. induction adds as [|[c q] rest IH]; intros b Hb; simpl; [exact Hb|].
  apply IH.
  destruct (add_to_backpack c q b) as [r b'] eqn:E; simpl.
  apply add_to_backpack_sum in E as [Hs [[_ ->] | [_ Hsum]]]; [exact Hb|].
  rewrite Hs, Hsum. lia.
Qed.

Lemma run_adds_size adds b : size (run_adds adds b) = size b.
Proof.
  revert b. induction adds as [|[c q] rest IH]; intros b; simpl; [reflexivity|].
  rewrite IH. destruct (add_to_backpack c q b) as [r b'] eqn:E; simpl.
  apply add_to_backpack_sum in E; tauto.
Qed.

Lemma backpack_new_sum n : backpack_sum (backpack_new n) = 0.
Proof. reflexivity. Qed.

Lemma run_energy_bounded ops e e' :
  energy_level e <= MAX_ENERGY_LEVEL ->
  run_energy ops e = Some e' -> energy_level e' <= MAX_ENERGY_LEVEL.
Proof.
  revert e. induction ops as [|op rest IH]; intros e He Hrun; simpl in Hrun.
  - inversion Hrun; subst; exact He.
  - destruct op as [n|n]; simpl in Hrun.
    + unfold consume_energy in Hrun.
      destruct (negb (has_enough_energy e n)).
      * exact (IH _ He Hrun).
      * eapply IH; [|exact Hrun]; simpl; lia.
    + unfold recharge_energy in Hrun.
      destruct (fits_usize (energy_level e + n)); [|discriminate].
      eapply IH; [|exact Hrun]; apply Nat.le_min_l.
Qed.

(** ** Read-only computations and the state they leave *)

Definition ro {S A} (m : SM S A) : Prop := forall s, snd (m s) = s.

Lemma ro_bind {S A B} (m : SM S A) (k : A -> SM S B) :
  ro m -> (forall a, ro (k a)) -> ro (bind m k).
Proof.
  intros Hm Hk s. unfold bind. specialize (Hm s).
  destruct (m s) as [[a| e |] s'] eqn:E; simpl in *; subst; auto.
  apply Hk.
Qed.

Lemma ro_ret {S A} (a : A) : @ro S A (ret a).
Proof. intros s; reflexivity. Qed.

Lemma ro_fail {S A} e : @ro S A (fail e).
Proof. intros s; reflexivity. Qed.

Lemma ro_panic {S A} : @ro S A panic.
Proof. intros s; reflexivity. Qed.

Lemma ro_get {S} : @ro S S get.
Proof. intros s; reflexivity. Qed.

Lemma ro_read_tile r c : ro (read_tile r c).
Proof. intros s; unfold read_tile; destruct (tile_at _ r c); reflexivity. Qed.

Lemma ro_can_destroy r c : ro (can_destroy r c).
Proof.
  unfold can_destroy. apply ro_bind; [apply ro_get|]. intros s.
  destruct (negb _); [apply ro_fail|]. apply ro_bind; [apply ro_read_tile|]. intros t.
  destruct (content_eqb _ _); [apply ro_fail | apply ro_ret].
Qed.

Ltac ro_solve :=
  repeat match goal with
  | |- ro (bind _ _) => apply ro_bind; [|intro]
  | |- ro (ret _) => apply ro_ret
  | |- ro (fail _) => apply ro_fail
  | |- ro panic => apply ro_panic
  | |- ro get => apply ro_get
  | |- ro (read_tile _ _) => apply ro_read_tile
  | |- ro (can_destroy _ _) => apply ro_can_destroy
  | |- ro (if ?b then _ else _) => destruct b
  | |- ro (match ?x with _ => _ end) => destruct x
  | |- ro (let '(_, _) := ?x in _) => destruct x
  end.

Lemma ro_destroy_target r c w : ro (destroy_target r c w).
Proof. unfold destroy_target. ro_solve. Qed.

Lemma destroy_target_state r c w s x s' :
  destroy_target r c w s = (x, s') -> s' = s.
Proof. intros H. pose proof (ro_destroy_target r c w s) as R. rewrite H in R. exact R. Qed.

Lemma bind_inv {S A B} (m : SM S A) (k : A -> SM S B) s r s' :
  bind m k s = (r, s') ->
  (exists a s1, m s = (Ok a, s1) /\ k a s1 = (r, s')) \/
  (exists e, m s = (Err e, s') /\ r = Err e) \/
  (m s = (Panic, s') /\ r = Panic).
Proof.
  unfold bind. destruct (m s) as [[a|e|] s1]; intros H.
  - left; eauto.
  - right; left. inversion H; eauto.
  - right; right. inversion H; auto.
Qed.

Lemma go_allowed_cases d s : exists x, go_allowed d s = (x, s) /\ x <> Err NotEnoughEnergy.
Proof.
  destruct s as [[en [r c] b] w p].
  unfold go_allowed, in_bounds, get_coords_row_col, read_tile, bind, ret, fail; simpl.
  destruct d; cbn; repeat (match goal with
    | |- context [if ?b then _ else _] => destruct b
    | |- context [match tile_at ?m ?x ?y with _ => _ end] => destruct (tile_at m x y)
    end; cbn); eexists; (split; [reflexivity | discriminate]).
Qed.

Lemma remove_from_backpack_spec c q b :
  remove_from_backpack c q b =
  match hm_get (contents b) (to_default c) with
  | None => (Err NoContent, b)
  | Some value =>
      if value =? 0 then (Err NoContent, b)
      else (Ok (Nat.min value q),
            mkBackPack (size b) (hm_set (contents b) (to_default c) (value - Nat.min value q)))
  end.
Proof.
  unfold remove_from_backpack. destruct (hm_get _ _) as [v|]; [|reflexivity].
  destruct (v =? 0); [reflexivity|].
  destruct (v <=? q) eqn:E.
  - apply Nat.leb_le in E. rewrite Nat.min_l by exact E. rewrite Nat.sub_diag. reflexivity.
  - apply Nat.leb_gt in E. rewrite Nat.min_r by lia. reflexivity.
Qed.

Lemma hm_sum_set l k x v :
  hm_get l k = Some v -> hm_sum (hm_set l k x) + v = hm_sum l + x.
Proof.
  induction l as [|[k' y] t IH]; simpl; [discriminate|].
  destruct (content_eqb k k'); intros H; rewrite !hm_sum_cons.
  - inversion H; subst. lia.
  - specialize (IH H). lia.
Qed.

(** [put] on a market tile runs the market branch (after the check on
    [Content::None]). *)
Lemma put_market_unfold (s : St) d r c tt0 e n content_in quantity rock_draw :
  in_bounds d s = (Ok tt, s) ->
  get_coords_row_col d s = (Ok (r, c), s) ->
  tile_at (map (world s)) r c = Some (mkTile tt0 (Content.Market n) e) ->
  put content_in quantity d rock_draw s =
  (if content_eqb content_in Content.None && negb (tiletype_eqb tt0 TileType.Mountain)
   then (Err WrongContentUsed, s)
   else put_market_sale r c (mkTile tt0 (Content.Market n) e) n content_in quantity s).
Proof.
  intros Hin Hrc Ht.
  unfold put. rewrite (bind_ok _ _ _ _ _ Hin), (bind_ok _ _ _ _ _ Hrc). cbn iota beta.
  assert (Hrt : read_tile r c s = (Ok (mkTile tt0 (Content.Market n) e), s))
    by (unfold read_tile; rewrite Ht; reflexivity).
  rewrite (bind_ok _ _ _ _ _ Hrt). cbn iota beta. cbn [tile_type content].
  destruct (_ && _); [reflexivity|].
  unfold bind at 1, get. cbn beta iota.
  destruct tt0; reflexivity.
Qed.

Lemma coord_eqb_true k k' : coord_eqb k k' = true <-> k = k'.
Proof.
  destruct k as [a b], k' as [a' b']. unfold coord_eqb; simpl.
  rewrite andb_true_iff, !Nat.eqb_eq. split; [intros [-> ->]; reflexivity | intros H; inversion H; auto].
Qed.

Lemma coord_lookup_insert m k v k' :
  coord_lookup (coord_insert m k v) k' = if coord_eqb k' k then Some v else coord_lookup m k'.
Proof.
  induction m as [|[k0 v0] t IH]; simpl.
  - fold (coord_eqb k' k). destruct (coord_eqb k' k); reflexivity.
  - fold (coord_eqb k k0). fold (coord_eqb k' k0).
    destruct (coord_eqb k k0) eqn:E; simpl.
    + apply coord_eqb_true in E; subst. fold (coord_eqb k' k0). destruct (coord_eqb k' k0); reflexivity.
    + fold (coord_eqb k' k0). rewrite IH.
      destruct (coord_eqb k' k0) eqn:E1, (coord_eqb k' k) eqn:E2; try reflexivity.
      apply coord_eqb_true in E1; apply coord_eqb_true in E2; subst.
      rewrite (proj2 (coord_eqb_true _ _) eq_refl) in E. discriminate.
Qed.

Lemma tile_at_bounds m x y :
  tile_at m x y = if (x <? length m) && (y <? length (nth x m [])) then Some (nth y (nth x m []) grass0) else None.
Proof.
  unfold tile_at. destruct (x <? length m) eqn:E1; simpl.
  - apply Nat.ltb_lt in E1. rewrite (nth_error_nth' m [] E1).
    destruct (y <? length (nth x m [])) eqn:E2.
    + apply Nat.ltb_lt in E2. apply nth_error_nth'. exact E2.
    + apply Nat.ltb_ge in E2. apply nth_error_None. exact E2.
  - apply Nat.ltb_ge in E1. rewrite (proj2 (nth_error_None m x) E1). reflexivity.
Qed.

Lemma discover_loop_spec l acc s res s' :
  discover_loop l acc s = (Ok res, s') ->
  world s' = world s /\ robot s' = robot s /\
  forall k, coord_lookup res k =
    if existsb (coord_eqb k) l then Some (tile_at (map (world s)) (fst k) (snd k))
    else coord_lookup acc k.
Proof.
  revert acc s. induction l as [|[x y] rest IH]; intros acc s H; simpl in H.
  - inversion H; subst. auto.
  - unfold bind at 1, get in H.
    cbn beta iota in H.
    destruct ((x <? length (map (world s))) && (y <? length (nth x (map (world s)) []))) eqn:Hc.
    + destruct (tile_at (map (world s)) x y) as [t|] eqn:Ht.
      2:{ rewrite tile_at_bounds, Hc in Ht. discriminate. }
      assert (Hrt : read_tile x y s = (Ok t, s)) by (unfold read_tile; rewrite Ht; reflexivity).
      rewrite (bind_ok _ _ _ _ _ Hrt) in H.
      unfold bind at 1, add_to_plot in H.
      destruct (existsb _ (plot s)); apply IH in H as (Hw & Hr & Hk);
        (split; [exact Hw|]); (split; [exact Hr|]); intros k; rewrite Hk, coord_lookup_insert;
        simpl; rewrite ?Hw;
        (destruct (coord_eqb k (x, y)) eqn:E; simpl; [|reflexivity]);
        apply coord_eqb_true in E; subst k;
        (destruct (existsb _ rest); [reflexivity|]); simpl; rewrite Ht; reflexivity.
    + apply IH in H as (Hw & Hr & Hk). split; [exact Hw|]. split; [exact Hr|].
      intros k. rewrite Hk, coord_lookup_insert. simpl.
      destruct (coord_eqb k (x, y)) eqn:E; simpl; [|reflexivity].
      apply coord_eqb_true in E; subst k.
      destruct (existsb _ rest); [reflexivity|]. simpl. rewrite tile_at_bounds, Hc. reflexivity.
Qed.

Lemma in_isize_range a b z : In z (isize_range a b) <-> (a <= z <= b)%Z.
Proof.
  unfold isize_range. rewrite in_map_iff. split.
  - intros [k [<- Hk]]. apply in_seq in Hk. lia.
  - intros H. exists (Z.to_nat (z - a)). split; [lia|]. apply in_seq. lia.
Qed.

Ltac eqb_facts :=
  repeat match goal with
  | H : (_ =? _) = true |- _ => apply Nat.eqb_eq in H
  | H : (_ =? _) = false |- _ => apply Nat.eqb_neq in H
  end.

Lemma in_strip_coords d r c dim distance x y :
  r < dim -> c < dim ->
  let t := tile_to_see d r c dim distance in
  In (x, y) (concat (strip_coords d r c dim t)) <-> view_band d r c dim t x y.
Proof.
  intros Hr Hc t. subst t.
  rewrite in_concat. unfold strip_coords, view_band.
  destruct d; simpl; split.
  all: try (intros [row [Hrow Hin]]; apply in_map_iff in Hrow as [i [<- Hi]];
            apply in_map_iff in Hin as [j [Hj Hjin]]; inversion Hj; subst x y; clear Hj).
  all: try (rewrite in_isize_range in Hi || rewrite in_isize_range in Hjin).
  all: try rewrite in_seq in Hi; try rewrite in_seq in Hjin.
  all: repeat match goal with H : context [if ?b then _ else _] |- _ => destruct b eqn:? end.
  all: try (repeat match goal with H : (_ =? _) = _ |- _ => first [apply Nat.eqb_eq in H | apply Nat.eqb_neq in H] end; lia).
  all: intros H; eexists; (split; [apply in_map_iff | apply in_map_iff]).
  - exists (r - x). split; [reflexivity | apply in_seq; lia].
  - exists (Z.of_nat y - Z.of_nat c)%Z. split; [f_equal; lia|].
    apply in_isize_range. destruct (c =? 0) eqn:E1, (c =? dim - 1) eqn:E2; eqb_facts; lia.
  - exists (x - r). split; [reflexivity | apply in_seq; lia].
  - exists (Z.of_nat y - Z.of_nat c)%Z. split; [f_equal; lia|].
    apply in_isize_range. destruct (c =? 0) eqn:E1, (c =? dim - 1) eqn:E2; eqb_facts; lia.
  - exists (Z.of_nat x - Z.of_nat r)%Z. split; [reflexivity|].
    apply in_isize_range. destruct (r =? 0) eqn:E1, (r =? dim - 1) eqn:E2; eqb_facts; lia.
  - exists (c - y). split; [f_equal; lia | apply in_seq; lia].
  - exists (Z.of_nat x - Z.of_nat r)%Z. split; [reflexivity|].
    apply in_isize_range. destruct (r =? 0) eqn:E1, (r =? dim - 1) eqn:E2; eqb_facts; lia.
  - exists (y - c). split; [f_equal; lia | apply in_seq; lia].
Qed.

Lemma set_plot_set_plot s p p' : set_plot (set_plot s p) p' = set_plot s p'.
Proof. reflexivity. Qed.

Lemma set_plot_id s : set_plot s (plot s) = s.
Proof. destruct s; reflexivity. Qed.

Lemma add_to_plot_spec x y s : exists p, add_to_plot x y s = (Ok tt, set_plot s p).
Proof.
  unfold add_to_plot. destruct (existsb _ (plot s)).
  - exists (plot s). rewrite set_plot_id. reflexivity.
  - eexists; reflexivity.
Qed.

Lemma read_row_spec cs s :
  (forall k, In k cs -> tile_at (map (world s)) (fst k) (snd k) <> None) ->
  exists out p, read_row cs s = (Ok out, set_plot s p) /\
    List.map (fun k => tile_at (map (world s)) (fst k) (snd k)) cs = List.map Some out.
Proof.
  revert s. induction cs as [|[x y] rest IH]; intros s Hin; simpl.
  - exists [], (plot s). rewrite set_plot_id. auto.
  - destruct (tile_at (map (world s)) x y) as [t|] eqn:Ht.
    2:{ exfalso. apply (Hin (x, y)); [left; reflexivity | exact Ht]. }
    assert (Hrt : read_tile x y s = (Ok t, s)) by (unfold read_tile; rewrite Ht; reflexivity).
    rewrite (bind_ok _ _ _ _ _ Hrt).
    destruct (add_to_plot_spec x y s) as [p Hp]. rewrite (bind_ok _ _ _ _ _ Hp).
    destruct (IH (set_plot s p)) as (out & p' & Hr & Hm).
    { intros k Hk. apply Hin. right. exact Hk. }
    rewrite (bind_ok _ _ _ _ _ Hr).
    exists (t :: out), p'. split; [reflexivity|]. simpl in *. rewrite Hm. reflexivity.
Qed.

Lemma read_rows_spec rows s :
  (forall k, In k (concat rows) -> tile_at (map (world s)) (fst k) (snd k) <> None) ->
  exists out p, read_rows rows s = (Ok out, set_plot s p) /\
    List.map (List.map (fun k => tile_at (map (world s)) (fst k) (snd k))) rows =
    List.map (List.map Some) out.
Proof.
  revert s. induction rows as [|cs rest IH]; intros s Hin; simpl.
  - exists [], (plot s). rewrite set_plot_id. auto.
  - destruct (read_row_spec cs s) as (o & p & Hr & Hm).
    { intros k Hk. apply Hin. simpl. apply in_or_app. left. exact Hk. }
    rewrite (bind_ok _ _ _ _ _ Hr).
    destruct (IH (set_plot s p)) as (out & p' & Hr' & Hm').
    { intros k Hk. apply Hin. simpl. apply in_or_app. right. exact Hk. }
    rewrite (bind_ok _ _ _ _ _ Hr').
    exists (o :: out), p'. split; [reflexivity|]. simpl in *. rewrite Hm, Hm'. reflexivity.
Qed.

Lemma strip_in_bounds d r c dim distance x y :
  r < dim -> c < dim ->
  In (x, y) (concat (strip_coords d r c dim (tile_to_see d r c dim distance))) ->
  x < dim /\ y < dim /\ (x, y) <> (r, c).
Proof.
  intros Hr Hc Hin. apply in_strip_coords in Hin; [|exact Hr|exact Hc].
  destruct d; simpl in Hin; (split; [lia | split; [lia | intros E; inversion E; lia]]).
Qed.


Lemma nth_list_set {A} (l : list A) i j x d :
  i < length l -> nth j (list_set l i x) d = if j =? i then x else nth j l d.
Proof.
  revert i j; induction l as [|h t IH]; intros [|i] [|j] H; simpl in *; try lia; auto.
  rewrite IH by lia. reflexivity.
Qed.

Lemma nth_some_lt {A} (l : list (option A)) v z : nth v l None = Some z -> v < length l.
Proof.
  intros H. destruct (Nat.lt_ge_cases v (length l)) as [|Hge]; auto.
  rewrite nth_overflow in H by exact Hge. discriminate.
Qed.

Lemma i32_as_usize_small z : (0 <= z < INF)%Z -> i32_as_usize z = Z.to_N z.
Proof. unfold INF; intros H; unfold i32_as_usize; rewrite Z.mod_small; [reflexivity|lia]. Qed.

Lemma usize_as_i32_small n : (n < 2147483647)%N -> usize_as_i32 n = Z.of_N n.
Proof.
  intros H; unfold usize_as_i32.
  rewrite Z.mod_small by lia.
  destruct (Z.ltb_spec (Z.of_N n) (2 ^ 31)); lia.
Qed.

Lemma dv_some z : (0 <= z < INF)%Z -> dv (Some z) = Z.to_N z.
Proof. intros H; unfold dv; simpl; apply i32_as_usize_small; exact H. Qed.

Lemma dv_none : dv None = 2147483647%N.
Proof. reflexivity. Qed.

Lemma pop_min_spec : pops_min pop_min.
Proof.
  intros h; induction h as [|x t IH]; simpl; [reflexivity|].
  destruct (pop_min t) as [[y t']|].
  - destruct IH as [Hp Hm].
    destruct (N.leb_spec (Node.distance x) (Node.distance y)).
    + split; [reflexivity|]. intros z [<-|Hz]; [lia|]. specialize (Hm z Hz); lia.
    + split.
      * eapply perm_trans; [apply perm_skip; exact Hp|]. apply perm_swap.
      * intros z [<-|Hz]; [lia|]. apply Hm; exact Hz.
  - subst t. split; [reflexivity|]. intros z [<-|[]]; lia.
Qed.

Lemma unvisited_edges_visit graph : forall vis x,
  x < length vis -> nth x vis false = false ->
  unvisited_edges graph (list_set vis x true) + length (nth x graph []) = unvisited_edges graph vis.
Proof.
  induction graph as [|ns g IH]; intros vis x Hx Hn; simpl.
  - destruct x; reflexivity.
  - destruct vis as [|b vis]; simpl in Hx; [lia|].
    destruct x as [|x]; simpl in *.
    + subst b. lia.
    + rewrite <- (IH vis x) by (lia || exact Hn). lia.
Qed.

Lemma unvisited_edges_none graph : unvisited_edges graph (repeat false (length graph)) = edge_count graph.
Proof. induction graph as [|ns g IH]; simpl; [reflexivity|]. rewrite IH; reflexivity. Qed.

Lemma chain_keep (p : list (option nat)) (sn : nat -> bool) v x :
  (forall a b, nth_error p a = Some (Some b) -> sn b = true) -> sn v = false ->
  forall y l, chain p y l -> sn y = true -> chain (list_set p v (Some x)) y l.
Proof.
  intros Hp Hv y l H. induction H as [y Hy|y u l Hy Hc IH]; intros Hsy.
  - apply chain_end. rewrite nth_error_list_set_other; [exact Hy|]. intros ->. congruence.
  - eapply chain_step.
    + rewrite nth_error_list_set_other; [exact Hy|]. intros ->. congruence.
    + apply IH. eapply Hp; eauto.
Qed.

Lemma chain_redirect (p : list (option nat)) v x lv :
  chain (list_set p v (Some x)) v lv ->
  forall y l, chain p y l -> exists l', chain (list_set p v (Some x)) y l'.
Proof.
  intros Hcv y l H. induction H as [y Hy|y u l Hy Hc IH].
  - destruct (Nat.eq_dec y v) as [->|Hne]; [eauto|].
    exists [y]. apply chain_end. rewrite nth_error_list_set_other; auto.
  - destruct (Nat.eq_dec y v) as [->|Hne]; [eauto|].
    destruct IH as [l' Hl']. exists (y :: l'). eapply chain_step; [|exact Hl'].
    rewrite nth_error_list_set_other; auto.
Qed.

Lemma chain_head p y l : chain p y l -> exists l', l = y :: l'.
Proof. intros H; destruct H; eauto. Qed.

Lemma chain_in_range p y l : chain p y l -> forall a, In a l -> a < length p.
Proof.
  intros H; induction H as [y Hy|y u l Hy Hc IH]; intros a Ha.
  - destruct Ha as [<-|[]]. apply nth_error_Some. congruence.
  - destruct Ha as [<-|Ha]; [apply nth_error_Some; congruence|auto].
Qed.

Lemma chain_det p y l : chain p y l -> forall l', chain p y l' -> l = l'.
Proof.
  intros H; induction H as [y Hy|y u l Hy Hc IH]; intros l' H'; inversion H'; subst.
  - reflexivity.
  - congruence.
  - congruence.
  - match goal with H1 : nth_error p y = Some (Some ?u1) |- _ =>
      assert (u1 = u) as -> by congruence end.
    f_equal. apply IH. assumption.
Qed.

Lemma chain_suffix p y l : chain p y l ->
  forall a, In a l -> exists pre l', l = pre ++ l' /\ chain p a l'.
Proof.
  intros H; induction H as [y Hy|y u l Hy Hc IH]; intros a Ha.
  - destruct Ha as [<-|[]]. exists [], [y]. split; [reflexivity|]. apply chain_end; exact Hy.
  - destruct Ha as [<-|Ha].
    + exists [], (y :: l). split; [reflexivity|]. eapply chain_step; eauto.
    + destruct (IH a Ha) as [pre [l' [-> Hl']]]. exists (y :: pre), l'. split; [reflexivity|exact Hl'].
Qed.

Lemma chain_nodup p y l : chain p y l -> NoDup l.
Proof.
  intros H; induction H as [y Hy|y u l Hy Hc IH].
  - constructor; [intros []|constructor].
  - constructor; [|exact IH]. intros Hin.
    destruct (chain_suffix _ _ _ Hc y Hin) as [pre [l' [Hl Hc']]].
    assert (chain p y (y :: l)) as Hcy by (eapply chain_step; eauto).
    pose proof (chain_det _ _ _ Hc' _ Hcy) as ->.
    apply (f_equal (@length nat)) in Hl. rewrite length_app in Hl. simpl in Hl. lia.
Qed.

Lemma chain_length p y l : chain p y l -> length l <= length p.
Proof.
  intros H. rewrite <- (length_seq (length p) 0).
  apply NoDup_incl_length; [eapply chain_nodup; eauto|].
  intros a Ha. apply in_seq. pose proof (chain_in_range _ _ _ H a Ha). lia.
Qed.

Lemma walk_back_chain p y l : chain p y l ->
  forall f path, length l <= f -> walk_back f p y path = Some (path ++ l).
Proof.
  intros H; induction H as [y Hy|y u l Hy Hc IH]; intros [|f] path Hf; simpl in *; try lia.
  - rewrite Hy. reflexivity.
  - rewrite Hy. rewrite IH by lia. rewrite <- app_assoc. reflexivity.
Qed.

Lemma list_nat_eqb_true l l' : list_nat_eqb l l' = true <-> l = l'.
Proof.
  revert l'; induction l as [|a t IH]; intros [|a' t']; simpl; try (split; congruence).
  rewrite andb_true_iff, Nat.eqb_eq, IH. split; [intros [-> ->]; reflexivity|intros H; injection H; auto].
Qed.

Lemma reconstruct_chain p target l : chain p target l ->
  reconstruct_shortest_path p target =
  Some (if list_nat_eqb (rev l) [target] then None else Some (rev l)).
Proof.
  intros H. unfold reconstruct_shortest_path.
  rewrite (walk_back_chain _ _ _ H) by (pose proof (chain_length _ _ _ H); lia).
  simpl. destruct (chain_head _ _ _ H) as [l' ->].
  rewrite length_rev. simpl.
  destruct (list_nat_eqb _ _); reflexivity.
Qed.

Section DijkstraCorrect.

Variable graph : list (list Node.t).
Variable start : nat.
Hypothesis start_lt : start < length graph.
Hypothesis graph_ok : forall u nb, In nb (nth u graph []) -> Node.index nb < length graph.

Lemma dv_le_inf st v : dinv graph start st -> (dv (dist_of st v) <= 2147483647)%N.
Proof.
  intros Hi. destruct (dist_of st v) as [z|] eqn:E.
  - pose proof (inv_range _ _ _ Hi v z E). rewrite dv_some by assumption. unfold INF in *. lia.
  - rewrite dv_none. lia.
Qed.

Lemma relax_step x d pre st nb st' :
  dinv graph start st -> settled (relaxed_from graph x pre) st ->
  seen st x = true -> (exists zx, dist_of st x = Some zx /\ Z.to_N zx = d) ->
  (forall u z, seen st u = true -> dist_of st u = Some z -> (Z.to_N z <= d)%N) ->
  In nb (nth x graph []) ->
  relax x d st nb = Some st' ->
  dinv graph start st' /\ settled (relaxed_from graph x (pre ++ [nb])) st' /\
  visited st' = visited st /\ dist_of st' x = dist_of st x /\
  (forall u, seen st u = true -> dist_of st' u = dist_of st u) /\
  length (heap st') <= S (length (heap st)).
Proof.
  intros Hi Hs Hx [zx [Hzx Hd]] Hbd Hnb Hr.
  pose proof (graph_ok _ _ Hnb) as Hv.
  unfold relax in Hr.
  destruct (N.leb_spec (d + Node.distance nb) usize_max) as [Hov|Hov]; simpl in Hr; [|discriminate].
  rewrite (nth_error_nth' _ None) in Hr by (rewrite (inv_len_d _ _ _ Hi); exact Hv).
  fold (dist_of st (Node.index nb)) in Hr. fold (dv (dist_of st (Node.index nb))) in Hr.
  destruct (N.ltb_spec (d + Node.distance nb) (dv (dist_of st (Node.index nb)))) as [Hlt|Hge].
  - injection Hr as <-.
    set (v := Node.index nb) in *. set (w := Node.distance nb) in *.
    pose proof (dv_le_inf st v Hi) as Hinf.
    assert (Hsv : seen st v = false).
    { destruct (seen st v) eqn:E; [|reflexivity].
      destruct (Hs v E) as [zv [Hzv _]].
      pose proof (Hbd v zv E Hzv). rewrite Hzv, dv_some in Hlt by (eapply inv_range; eauto). lia. }
    assert (Hvs : v <> start).
    { intros Heq. rewrite Heq, (inv_start _ _ _ Hi), dv_some in Hlt by (unfold INF; lia). simpl in Hlt. lia. }
    assert (Hvx : v <> x) by congruence.
    rewrite usize_as_i32_small by lia.
    set (st' := mkDState _ _ _ _).
    assert (Hdist : forall u, dist_of st' u = if u =? v then Some (Z.of_N (d + w)) else dist_of st u).
    { intros u. unfold dist_of; simpl. apply nth_list_set. rewrite (inv_len_d _ _ _ Hi). exact Hv. }
    assert (Hpred : forall u, pred_of st' u = if u =? v then Some x else pred_of st u).
    { intros u. unfold pred_of; simpl. apply nth_list_set. rewrite (inv_len_p _ _ _ Hi). exact Hv. }
    assert (Hseen : forall u, seen st' u = seen st u) by reflexivity.
    assert (Hkeep : forall u, seen st u = true -> dist_of st' u = dist_of st u).
    { intros u Hu. rewrite Hdist. destruct (Nat.eqb_spec u v); [congruence|reflexivity]. }
    assert (Hmono : forall a, (dv (dist_of st' a) <= dv (dist_of st a))%N).
    { intros a. rewrite Hdist. destruct (Nat.eqb_spec a v) as [->|]; [|lia].
      rewrite dv_some by (unfold INF; lia). lia. }
    assert (Hchain_x : exists l, chain (predecessor st') x l).
    { assert (exists l, chain (predecessor st) x l) as [l Hl].
      { destruct (inv_has_pred _ _ _ Hi x zx Hzx) as [->|Hp].
        - exists [start]. apply chain_end. rewrite (nth_error_nth' _ None).
          + fold (pred_of st start). rewrite (inv_pred_start _ _ _ Hi). reflexivity.
          + rewrite (inv_len_p _ _ _ Hi). exact start_lt.
        - destruct (pred_of st x) as [u|] eqn:E; [|congruence].
          eapply inv_chain; eauto. }
      exists l. simpl. eapply (chain_keep _ (seen st)); eauto.
      intros a b Hab. apply nth_error_nth with (d := None) in Hab.
      exact (proj1 (inv_pred _ _ _ Hi a b Hab)). }
    assert (Hchain_v : exists l, chain (predecessor st') v l).
    { destruct Hchain_x as [l Hl]. exists (v :: l). eapply chain_step; [|exact Hl].
      simpl. eapply nth_error_list_set_same. apply (nth_error_nth' _ None).
      rewrite (inv_len_p _ _ _ Hi). exact Hv. }
    split; [|split; [|split; [reflexivity|split; [|split; [exact Hkeep|simpl; lia]]]]].
    + constructor.
      * simpl. rewrite length_list_set. apply (inv_len_d _ _ _ Hi).
      * simpl. rewrite length_list_set. apply (inv_len_p _ _ _ Hi).
      * apply (inv_len_v _ _ _ Hi).
      * intros u z. rewrite Hdist. destruct (Nat.eqb_spec u v).
        -- intros H; injection H as <-. unfold INF; lia.
        -- apply (inv_range _ _ _ Hi).
      * intros u z. rewrite Hdist. destruct (Nat.eqb_spec u v) as [->|].
        -- intros H; injection H as <-. rewrite N2Z.id.
           destruct (inv_sound _ _ _ Hi x zx Hzx) as [[|a rp] [Hp Ha]]; [discriminate|].
           simpl in Ha; injection Ha as ->. rewrite Hd in Hp.
           exists (v :: x :: rp). split; [apply path_step; assumption|reflexivity].
        -- apply (inv_sound _ _ _ Hi).
      * rewrite Hdist. destruct (Nat.eqb_spec start v); [congruence|]. apply (inv_start _ _ _ Hi).
      * intros y [<-|Hy].
        -- exists (Z.of_N (d + w)). rewrite Hdist, Nat.eqb_refl. simpl. split; [reflexivity|lia].
        -- destruct (inv_heap _ _ _ Hi y Hy) as [z [Hz Hle]].
           rewrite Hdist. destruct (Nat.eqb_spec (Node.index y) v) as [Heq|].
           ++ exists (Z.of_N (d + w)). split; [reflexivity|].
              rewrite Heq in Hz. rewrite Hz, dv_some in Hlt by (eapply inv_range; eauto). lia.
           ++ exists z; auto.
      * intros u z Hu. rewrite Hdist. destruct (Nat.eqb_spec u v) as [->|].
        -- intros H; injection H as <-. rewrite N2Z.id. left; reflexivity.
        -- intros Hz. right. apply (inv_pending _ _ _ Hi u z Hu Hz).
      * intros u z y Hu. rewrite (Hkeep u Hu). intros Hz [<-|Hy].
        -- simpl. pose proof (Hbd u z Hu Hz). lia.
        -- exact (inv_below _ _ _ Hi u z y Hu Hz Hy).
      * intros a u. rewrite Hpred. destruct (Nat.eqb_spec a v) as [->|Hne].
        -- intros H; injection H as <-. split; [exact Hx|].
           exists zx, (Z.of_N (d + w)), nb.
           rewrite (Hkeep x Hx), Hdist, Nat.eqb_refl, N2Z.id.
           repeat split; auto. lia.
        -- intros Hp. destruct (inv_pred _ _ _ Hi a u Hp) as [Hu [zu [zv [nb' [H1 [H2 H3]]]]]].
           split; [exact Hu|]. exists zu, zv, nb'.
           rewrite (Hkeep u Hu), Hdist. destruct (Nat.eqb_spec a v); [congruence|]. auto.
      * rewrite Hpred. destruct (Nat.eqb_spec start v); [congruence|]. apply (inv_pred_start _ _ _ Hi).
      * intros u z. rewrite Hdist, Hpred. destruct (Nat.eqb_spec u v).
        -- intros _. right. discriminate.
        -- apply (inv_has_pred _ _ _ Hi).
      * intros a u. rewrite Hpred. destruct (Nat.eqb_spec a v) as [->|Hne].
        -- intros _. exact Hchain_v.
        -- intros Hp. destruct (inv_chain _ _ _ Hi a u Hp) as [l Hl].
           destruct Hchain_v as [lv Hlv].
           eapply chain_redirect; [exact Hlv|exact Hl].
    + intros u Hu. rewrite Hseen in Hu. destruct (Hs u Hu) as [z [Hz Hb]].
      exists z. rewrite (Hkeep u Hu). split; [exact Hz|].
      intros nb' Hin. unfold relaxed_from in Hin |- *. destruct (Nat.eqb_spec u x) as [->|Hne].
      * apply in_app_or in Hin. destruct Hin as [Hin|[<-|[]]].
        -- specialize (Hb nb' ltac:(unfold relaxed_from; rewrite Nat.eqb_refl; exact Hin)).
           pose proof (Hmono (Node.index nb')). lia.
        -- fold v. rewrite Hdist, Nat.eqb_refl, dv_some by (unfold INF; lia).
           rewrite Hzx in Hz. injection Hz as <-. lia.
      * specialize (Hb nb' ltac:(unfold relaxed_from; destruct (Nat.eqb_spec u x); [congruence|exact Hin])).
        pose proof (Hmono (Node.index nb')). lia.
    + rewrite Hdist. destruct (Nat.eqb_spec x v); [congruence|reflexivity].
  - injection Hr as <-.
    split; [exact Hi|split; [|split; [reflexivity|split; [reflexivity|split; [reflexivity|lia]]]]].
    intros u Hu. destruct (Hs u Hu) as [z [Hz Hb]]. exists z. split; [exact Hz|].
    intros nb' Hin. unfold relaxed_from in Hin |- *. destruct (Nat.eqb_spec u x) as [->|Hne].
    + apply in_app_or in Hin. destruct Hin as [Hin|[<-|[]]].
      * apply Hb. unfold relaxed_from. rewrite Nat.eqb_refl. exact Hin.
      * rewrite Hzx in Hz. injection Hz as <-. lia.
    + apply Hb. unfold relaxed_from. destruct (Nat.eqb_spec u x); [congruence|exact Hin].
Qed.


Lemma relax_all_step x d : forall ns pre st st',
  dinv graph start st -> settled (relaxed_from graph x pre) st ->
  seen st x = true -> (exists zx, dist_of st x = Some zx /\ Z.to_N zx = d) ->
  (forall u z, seen st u = true -> dist_of st u = Some z -> (Z.to_N z <= d)%N) ->
  incl ns (nth x graph []) ->
  relax_all x d ns st = Some st' ->
  dinv graph start st' /\ settled (relaxed_from graph x (pre ++ ns)) st' /\
  visited st' = visited st /\ length (heap st') <= length ns + length (heap st).
Proof.
  induction ns as [|nb ns IH]; intros pre st st' Hi Hs Hx Hzx Hbd Hincl Hr; simpl in Hr.
  - injection Hr as <-. rewrite app_nil_r. auto.
  - destruct (relax x d st nb) as [st1|] eqn:E1; [|discriminate].
    destruct (relax_step x d pre st nb st1 Hi Hs Hx Hzx Hbd (Hincl nb (or_introl eq_refl)) E1)
      as [Hi1 [Hs1 [Hv1 [Hd1 [Hk1 Hl1]]]]].
    assert (Hseen1 : forall u, seen st1 u = seen st u) by (intros u; unfold seen; rewrite Hv1; reflexivity).
    destruct (IH (pre ++ [nb]) st1 st' Hi1 Hs1) as [Hi' [Hs' [Hv' Hl']]].
    + rewrite Hseen1; exact Hx.
    + rewrite Hd1; exact Hzx.
    + intros u z Hu. rewrite Hseen1 in Hu. rewrite (Hk1 u Hu). apply Hbd; exact Hu.
    + intros a Ha. apply Hincl. right; exact Ha.
    + exact Hr.
    + rewrite <- app_assoc in Hs'. simpl in *. split; [exact Hi'|split; [exact Hs'|split; [congruence|lia]]].
Qed.

Lemma visit_begin st node rest :
  dinv graph start st -> settled (fun u => nth u graph []) st ->
  Permutation (heap st) (node :: rest) ->
  (forall y, In y (heap st) -> (Node.distance node <= Node.distance y)%N) ->
  seen st (Node.index node) = false ->
  let x := Node.index node in
  let st2 := mkDState (distance st) (predecessor st) (list_set (visited st) x true) rest in
  dinv graph start st2 /\ settled (relaxed_from graph x []) st2 /\ seen st2 x = true /\
  (exists zx, dist_of st2 x = Some zx /\ Z.to_N zx = Node.distance node) /\
  (forall u z, seen st2 u = true -> dist_of st2 u = Some z -> (Z.to_N z <= Node.distance node)%N).
Proof.
  intros Hi Hs Hp Hmin Hnx x st2.
  assert (Hin : In node (heap st)) by (apply Permutation_sym in Hp; eapply Permutation_in; [exact Hp|left; reflexivity]).
  destruct (inv_heap _ _ _ Hi node Hin) as [zx [Hzx Hle]].
  fold x in Hzx.
  assert (Hxl : x < length (visited st)).
  { rewrite (inv_len_v _ _ _ Hi), <- (inv_len_d _ _ _ Hi). eapply nth_some_lt; exact Hzx. }
  assert (Hsee : forall u, seen st2 u = if u =? x then true else seen st u).
  { intros u. unfold seen; simpl. apply nth_list_set. exact Hxl. }
  assert (Hrest : forall y, In y rest -> In y (heap st)).
  { intros y Hy. apply Permutation_sym in Hp. eapply Permutation_in; [exact Hp|right; exact Hy]. }
  assert (Hxd : Z.to_N zx = Node.distance node).
  { pose proof (inv_pending _ _ _ Hi x zx Hnx Hzx) as Hp'. apply Hmin in Hp'. simpl in Hp'. lia. }
  assert (Hd2 : forall u, dist_of st2 u = dist_of st u) by reflexivity.
  assert (Hold : forall u, seen st2 u = true -> u <> x -> seen st u = true).
  { intros u Hu Hne. rewrite Hsee in Hu. destruct (Nat.eqb_spec u x); [congruence|exact Hu]. }
  split; [|split; [|split; [|split]]].
  - constructor; try apply Hi.
    + simpl. rewrite length_list_set. apply (inv_len_v _ _ _ Hi).
    + intros y Hy. apply (inv_heap _ _ _ Hi). apply Hrest; exact Hy.
    + intros v z Hv Hz. rewrite Hsee in Hv. destruct (Nat.eqb_spec v x) as [|Hne]; [discriminate|].
      pose proof (inv_pending _ _ _ Hi v z Hv Hz) as Hin'.
      apply (Permutation_in _ Hp) in Hin'. destruct Hin' as [Heq|Hin']; [|exact Hin'].
      exfalso. apply Hne. unfold x. rewrite Heq. reflexivity.
    + intros u z y Hu Hz Hy. rewrite Hd2 in Hz. destruct (Nat.eqb_spec u x) as [->|Hne].
      * rewrite Hzx in Hz. injection Hz as <-. rewrite Hxd. apply Hmin, Hrest; exact Hy.
      * apply (inv_below _ _ _ Hi u z y (Hold u Hu Hne) Hz (Hrest y Hy)).
    + intros v u Hpv. destruct (inv_pred _ _ _ Hi v u Hpv) as [Hu H].
      split; [|exact H]. rewrite Hsee, Hu. destruct (u =? x); reflexivity.
  - intros u Hu. destruct (Nat.eqb_spec u x) as [->|Hne].
    + exists zx. split; [exact Hzx|]. unfold relaxed_from. rewrite Nat.eqb_refl. intros _ [].
    + destruct (Hs u (Hold u Hu Hne)) as [z [Hz Hb]]. exists z. split; [exact Hz|].
      unfold relaxed_from. destruct (Nat.eqb_spec u x); [congruence|exact Hb].
  - rewrite Hsee, Nat.eqb_refl. reflexivity.
  - exists zx. split; [exact Hzx|exact Hxd].
  - intros u z Hu Hz. rewrite Hd2 in Hz. destruct (Nat.eqb_spec u x) as [->|Hne].
    + rewrite Hzx in Hz. injection Hz as <-. lia.
    + pose proof (inv_below _ _ _ Hi u z node (Hold u Hu Hne) Hz Hin). lia.
Qed.

Lemma visit_stale st node rest :
  dinv graph start st -> settled (fun u => nth u graph []) st ->
  Permutation (heap st) (node :: rest) ->
  seen st (Node.index node) = true ->
  let st1 := mkDState (distance st) (predecessor st) (visited st) rest in
  dinv graph start st1 /\ settled (fun u => nth u graph []) st1.
Proof.
  intros Hi Hs Hp Hsx st1.
  assert (Hrest : forall y, In y rest -> In y (heap st)).
  { intros y Hy. apply Permutation_sym in Hp. eapply Permutation_in; [exact Hp|right; exact Hy]. }
  split; [|exact Hs].
  constructor; try apply Hi.
  - intros y Hy. apply (inv_heap _ _ _ Hi). apply Hrest; exact Hy.
  - intros v z Hv Hz.
    pose proof (inv_pending _ _ _ Hi v z Hv Hz) as Hin'.
    apply (Permutation_in _ Hp) in Hin'. destruct Hin' as [Heq|Hin']; [|exact Hin'].
    rewrite Heq in Hsx. simpl in Hsx. unfold seen in *. simpl in *. congruence.
  - intros u z y Hu Hz Hy. apply (inv_below _ _ _ Hi u z y Hu Hz (Hrest y Hy)).
Qed.

Variable pop : list Node.t -> option (Node.t * list Node.t).
Hypothesis pop_ok : pops_min pop.

Lemma loop_correct : forall fuel st st',
  dinv graph start st -> settled (fun u => nth u graph []) st ->
  length (heap st) + unvisited_edges graph (visited st) <= fuel ->
  dijkstra_loop pop fuel graph st = Some st' ->
  dinv graph start st' /\ settled (fun u => nth u graph []) st' /\ heap st' = [].
Proof.
  induction fuel as [|fuel IH]; intros st st' Hi Hs Hf Hr; simpl in Hr.
  - injection Hr as <-. split; [exact Hi|split; [exact Hs|]].
    destruct (heap st); [reflexivity|simpl in Hf; lia].
  - pose proof (pop_ok (heap st)) as Hp.
    destruct (pop (heap st)) as [[node rest]|] eqn:Epop.
    + destruct Hp as [Hperm Hmin].
      pose proof (Permutation_length Hperm) as Hlen. simpl in Hlen.
      destruct (nth_error (visited st) (Node.index node)) as [b|] eqn:Eb; [|discriminate].
      assert (Hxl : Node.index node < length (visited st)) by (apply nth_error_Some; congruence).
      apply nth_error_nth with (d := false) in Eb. fold (seen st (Node.index node)) in Eb.
      destruct b.
      * destruct (visit_stale st node rest Hi Hs Hperm Eb) as [Hi1 Hs1].
        eapply IH; [exact Hi1|exact Hs1| |exact Hr]. simpl. lia.
      * destruct (visit_begin st node rest Hi Hs Hperm Hmin Eb) as [Hi2 [Hs2 [Hx2 [Hz2 Hb2]]]].
        destruct (nth_error graph (Node.index node)) as [ns|] eqn:Ens; [|discriminate].
        apply nth_error_nth with (d := []) in Ens.
        destruct (relax_all _ _ _ _) as [st3|] eqn:E3; [|discriminate].
        assert (Hincl : incl ns (nth (Node.index node) graph [])) by (rewrite Ens; apply incl_refl).
        destruct (relax_all_step (Node.index node) (Node.distance node) ns [] _ st3 Hi2 Hs2 Hx2 Hz2 Hb2
                    Hincl E3) as [Hi3 [Hs3 [Hv3 Hl3]]].
        eapply IH; [exact Hi3| | |exact Hr].
        -- intros u Hu. destruct (Hs3 u Hu) as [z [Hz Hb]]. exists z. split; [exact Hz|].
           intros nb Hnb. apply Hb. unfold relaxed_from. simpl.
           destruct (Nat.eqb_spec u (Node.index node)) as [->|]; [rewrite Ens in Hnb; exact Hnb|exact Hnb].
        -- rewrite Hv3. simpl in Hl3 |- *.
           pose proof (unvisited_edges_visit graph (visited st) (Node.index node) Hxl) as Hu.
           unfold seen in Eb. specialize (Hu Eb). rewrite Ens in Hu. lia.
    + injection Hr as <-. auto.
Qed.


Lemma init_inv :
  let n := length graph in
  let st0 := mkDState (list_set (repeat None n) start (Some 0%Z)) (repeat None n)
                      (repeat false n) [Node.mk start 0] in
  dinv graph start st0 /\ settled (fun u => nth u graph []) st0.
Proof.
  intros n st0.
  assert (Hd : forall v, dist_of st0 v = if v =? start then Some 0%Z else None).
  { intros v. unfold dist_of; simpl. rewrite nth_list_set by (rewrite repeat_length; exact start_lt).
    destruct (v =? start); [reflexivity|apply nth_repeat]. }
  assert (Hp : forall v, pred_of st0 v = None) by (intros v; apply nth_repeat).
  assert (Hs : forall v, seen st0 v = false) by (intros v; apply nth_repeat).
  split.
  - constructor.
    + simpl. rewrite length_list_set, repeat_length. reflexivity.
    + apply repeat_length.
    + apply repeat_length.
    + intros v z. rewrite Hd. destruct (v =? start); [intros H; injection H as <-; unfold INF; lia|discriminate].
    + intros v z. rewrite Hd. destruct (Nat.eqb_spec v start) as [->|]; [|discriminate].
      intros H; injection H as <-. exists [start]. split; [apply path_start|reflexivity].
    + rewrite Hd, Nat.eqb_refl. reflexivity.
    + intros x [<-|[]]. exists 0%Z. rewrite Hd, Nat.eqb_refl. simpl. split; [reflexivity|lia].
    + intros v z _. rewrite Hd. destruct (Nat.eqb_spec v start) as [->|]; [|discriminate].
      intros H; injection H as <-. left; reflexivity.
    + intros u z x Hu. rewrite Hs in Hu. discriminate.
    + intros v u. rewrite Hp. discriminate.
    + apply Hp.
    + intros v z. rewrite Hd. destruct (Nat.eqb_spec v start); [auto|discriminate].
    + intros v u. rewrite Hp. discriminate.
  - intros u Hu. rewrite Hs in Hu. discriminate.
Qed.

Lemma settled_optimal st :
  dinv graph start st -> settled (fun u => nth u graph []) st -> heap st = [] ->
  forall rp w, path_to graph start rp w -> (w < 2147483647)%N ->
  forall v, hd_error rp = Some v -> exists z, dist_of st v = Some z /\ (Z.to_N z <= w)%N.
Proof.
  intros Hi Hs Hh rp w Hp. induction Hp as [|u rp w nb Hp IH Hnb]; intros Hw v Hv; simpl in Hv;
    injection Hv as <-.
  - exists 0%Z. split; [apply (inv_start _ _ _ Hi)|simpl; lia].
  - destruct (IH ltac:(lia) u eq_refl) as [zu [Hzu Hle]].
    assert (Hsu : seen st u = true).
    { destruct (seen st u) eqn:E; [reflexivity|].
      pose proof (inv_pending _ _ _ Hi u zu E Hzu) as Hin. rewrite Hh in Hin. destruct Hin. }
    destruct (Hs u Hsu) as [z' [Hz' Hb]]. rewrite Hzu in Hz'. injection Hz' as <-.
    specialize (Hb nb Hnb).
    destruct (dist_of st (Node.index nb)) as [z|] eqn:E.
    + exists z. split; [reflexivity|]. rewrite dv_some in Hb by (eapply inv_range; eauto). lia.
    + rewrite dv_none in Hb. lia.
Qed.

Lemma chain_path st y l : dinv graph start st -> chain (predecessor st) y l ->
  forall z, dist_of st y = Some z -> path_to graph start l (Z.to_N z).
Proof.
  intros Hi H. induction H as [y Hy|y u l Hy Hc IH]; intros z Hz.
  - apply nth_error_nth with (d := None) in Hy. fold (pred_of st y) in Hy.
    destruct (inv_has_pred _ _ _ Hi y z Hz) as [->|Hne]; [|congruence].
    rewrite (inv_start _ _ _ Hi) in Hz. injection Hz as <-. apply path_start.
  - apply nth_error_nth with (d := None) in Hy. fold (pred_of st y) in Hy.
    destruct (inv_pred _ _ _ Hi y u Hy) as [_ [zu [zv [nb [Hzu [Hzv [Hnb [Hix Hw]]]]]]]].
    rewrite Hz in Hzv. injection Hzv as <-.
    destruct (chain_head _ _ _ Hc) as [l' ->].
    rewrite Hw, <- Hix. apply path_step; [apply IH; exact Hzu|exact Hnb].
Qed.

End DijkstraCorrect.

Lemma path_to_last graph start rp w : path_to graph start rp w -> exists rp', rp = rp' ++ [start].
Proof.
  intros H; induction H as [|u rp w nb Hp IH Hnb].
  - exists []. reflexivity.
  - destruct IH as [rp' Hrp]. exists (Node.index nb :: rp'). rewrite Hrp. reflexivity.
Qed.

Lemma path_to_in_range graph start rp w :
  start < length graph ->
  (forall u nb, In nb (nth u graph []) -> Node.index nb < length graph) ->
  path_to graph start rp w -> forall v, hd_error rp = Some v -> v < length graph.
Proof.
  intros Hs Hg H; destruct H as [|u rp w nb Hp Hnb]; intros v Hv; simpl in Hv; injection Hv as <-;
    [exact Hs|eapply Hg; eauto].
Qed.

(** Dijkstra on any graph whose edges stay in range. *)
Lemma dijkstra_correct pop graph start dist pred :
  pops_min pop ->
  (forall u nb, In nb (nth u graph []) -> Node.index nb < length graph) ->
  dijkstra pop graph start = Some (dist, pred) ->
  start < length graph /\
  length dist = length graph /\
  (forall v z, nth v dist None = Some z ->
     (0 <= z < INF)%Z /\
     (exists rp, path_to graph start rp (Z.to_N z) /\ hd_error rp = Some v) /\
     (forall rp w, path_to graph start rp w -> hd_error rp = Some v -> (Z.to_N z <= w)%N)) /\
  (forall v, nth v dist None = None ->
     forall rp w, path_to graph start rp w -> hd_error rp = Some v -> (Z.to_N INF <= w)%N) /\
  (forall target, target < length graph -> (target = start \/ nth target dist None = None) ->
     reconstruct_shortest_path pred target = Some None) /\
  (forall target z, target <> start -> nth target dist None = Some z ->
     exists path, reconstruct_shortest_path pred target = Some (Some path) /\
       hd_error path = Some start /\ hd_error (rev path) = Some target /\
       path_to graph start (rev path) (Z.to_N z)).
Proof.
  intros Hpop Hg Hd. unfold dijkstra in Hd.
  destruct (Nat.leb_spec (length graph) start) as [|Hst]; [discriminate|].
  destruct (dijkstra_loop _ _ _ _) as [st|] eqn:Hl; [|discriminate].
  injection Hd as <- <-.
  destruct (init_inv graph start Hst) as [Hi0 Hs0].
  destruct (loop_correct graph start Hst Hg pop Hpop (S (edge_count graph)) _ _ Hi0 Hs0
              ltac:(simpl; rewrite unvisited_edges_none; lia) Hl) as [Hi [Hs Hh]].
  pose proof (settled_optimal graph start Hst st Hi Hs Hh) as Hopt.
  split; [exact Hst|]. split; [apply (inv_len_d _ _ _ Hi)|].
  split; [|split; [|split]].
  - intros v z Hz. split; [eapply inv_range; eauto|]. split; [eapply inv_sound; eauto|].
    intros rp w Hp Hv.
    pose proof (inv_range _ _ _ Hi v z Hz) as Hr.
    destruct (N.ltb_spec w 2147483647) as [Hw|Hw].
    + destruct (Hopt rp w Hp Hw v Hv) as [z' [Hz' Hle]].
      fold (dist_of st v) in Hz. rewrite Hz in Hz'. injection Hz' as <-. exact Hle.
    + unfold INF in Hr. lia.
  - intros v Hn rp w Hp Hv. destruct (N.ltb_spec w 2147483647) as [Hw|Hw].
    + destruct (Hopt rp w Hp Hw v Hv) as [z' [Hz' _]]. fold (dist_of st v) in Hn. congruence.
    + unfold INF. lia.
  - intros target Ht Hnone.
    assert (Hpt : pred_of st target = None).
    { destruct Hnone as [->|Hn]; [apply (inv_pred_start _ _ _ Hi)|].
      destruct (pred_of st target) as [u|] eqn:E; [|reflexivity].
      destruct (inv_pred _ _ _ Hi target u E) as [_ [zu [zv [nb [_ [Hzv _]]]]]].
      fold (dist_of st target) in Hn. congruence. }
    assert (Hc : chain (predecessor st) target [target]).
    { apply chain_end. rewrite (nth_error_nth' _ None) by (rewrite (inv_len_p _ _ _ Hi); exact Ht).
      fold (pred_of st target). rewrite Hpt. reflexivity. }
    rewrite (reconstruct_chain _ _ _ Hc). simpl. rewrite Nat.eqb_refl. reflexivity.
  - intros target z Hne Hz. fold (dist_of st target) in Hz.
    destruct (inv_has_pred _ _ _ Hi target z Hz) as [|Hp]; [congruence|].
    destruct (pred_of st target) as [u|] eqn:Ep; [|congruence].
    destruct (inv_chain _ _ _ Hi target u Ep) as [l Hc].
    assert (Hl2 : exists l', l = target :: l' /\ l' <> []).
    { inversion Hc as [y Hy|y u' l' Hy Hc']; subst.
      - apply nth_error_nth with (d := None) in Hy. fold (pred_of st target) in Hy. congruence.
      - exists l'. split; [reflexivity|]. destruct (chain_head _ _ _ Hc') as [l'' ->]. discriminate. }
    destruct Hl2 as [l' [-> Hl']].
    exists (rev (target :: l')).
    rewrite (reconstruct_chain _ _ _ Hc).
    assert (Hneq : list_nat_eqb (rev (target :: l')) [target] = false).
    { destruct (list_nat_eqb _ _) eqn:E; [|reflexivity].
      apply list_nat_eqb_true in E. apply (f_equal (@length nat)) in E.
      rewrite length_rev in E. simpl in E. destruct l'; [congruence|simpl in E; lia]. }
    rewrite Hneq. rewrite rev_involutive.
    pose proof (chain_path graph start st target (target :: l') Hi Hc z Hz) as Hpath.
    destruct (path_to_last _ _ _ _ Hpath) as [rp' Hrp].
    split; [reflexivity|]. split; [rewrite Hrp, rev_app_distr; reflexivity|].
    split; [reflexivity|exact Hpath].
Qed.

Lemma neighbour_node_label arrive tile lbl ns :
  neighbour_node arrive tile lbl = Some ns -> forall nb, In nb ns -> lbl = Some (Node.index nb).
Proof.
  unfold neighbour_node. destruct (is_wakable arrive); [|intros H; injection H as <-; intros nb []].
  destruct lbl as [l|]; [|discriminate].
  destruct (elevation arrive =? 0)%N.
  - intros H; injection H as <-. intros nb [<-|[]]. reflexivity.
  - destruct (get_cost_elevation arrive tile); [|discriminate].
    destruct (_ <=? usize_max)%N; [|discriminate].
    intros H; injection H as <-. intros nb [<-|[]]. reflexivity.
Qed.

Lemma neighbour_block_label (c : bool) (m : list (list Tile)) r cc tile lbl ns :
  (if c then (let? t := tile_at m r cc in neighbour_node t tile lbl) else Some []) = Some ns ->
  forall nb, In nb ns -> c = true /\ lbl = Some (Node.index nb).
Proof.
  destruct c; [|intros H; injection H as <-; intros nb []].
  destruct (tile_at m r cc) as [t|]; [|discriminate].
  intros H nb Hnb. split; [reflexivity|]. eapply neighbour_node_label; eauto.
Qed.

Lemma get_neighbours_range m row0 x y tile ns :
  nth_error m 0 = Some row0 -> x < length m -> y < length row0 ->
  get_neighbours m x y (x * length row0 + y) tile = Some ns ->
  forall nb, In nb ns -> Node.index nb < length m * length row0.
Proof.
  intros H0 Hx Hy. unfold get_neighbours. rewrite H0.
  set (rows := length m) in *. set (cols := length row0) in *.
  assert (Hv : x * cols + y < rows * cols) by nia.
  intros H.
  repeat match type of H with
  | (match ?e with Some _ => _ | None => None end) = Some _ =>
      let E := fresh "E" in destruct e as [?|] eqn:E; [|discriminate]
  end.
  injection H as <-.
  intros nb Hnb. repeat rewrite in_app_iff in Hnb.
  destruct Hnb as [Hnb|[Hnb|[Hnb|Hnb]]].
  - destruct (neighbour_block_label _ _ _ _ _ _ _ E nb Hnb) as [_ Hl].
    unfold usize_sub in Hl. destruct (x * cols + y <? cols); [discriminate|]. injection Hl as <-. lia.
  - destruct (neighbour_block_label _ _ _ _ _ _ _ E0 nb Hnb) as [Hc Hl].
    injection Hl as <-. apply andb_true_iff in Hc as [_ Hc]. apply Nat.ltb_lt in Hc. nia.
  - destruct (neighbour_block_label _ _ _ _ _ _ _ E1 nb Hnb) as [Hc Hl].
    injection Hl as <-. apply andb_true_iff in Hc as [Hc _]. apply Nat.ltb_lt in Hc. nia.
  - destruct (neighbour_block_label _ _ _ _ _ _ _ E2 nb Hnb) as [_ Hl].
    unfold usize_sub in Hl. destruct (x * cols + y <? 1); [discriminate|]. injection Hl as <-. lia.
Qed.
Lemma change_matrix_row_valid m toc row0 x : forall row y mn tn label mn' tn' label',
  nth_error m 0 = Some row0 -> x < length m ->
  y + length row = length row0 -> label = x * length row0 + y ->
  length mn = length m * length row0 -> edges_below (length m * length row0) mn ->
  change_matrix_row m toc x y row (mn, tn, label) = Some (mn', tn', label') ->
  length mn' = length m * length row0 /\ edges_below (length m * length row0) mn' /\
  label' = x * length row0 + length row0.
Proof.
  induction row as [|tile row IH]; intros y mn tn label mn' tn' label' H0 Hx Hy Hl Hlen Hok H;
    simpl in H.
  - injection H as <- <- <-. simpl in Hy. repeat split; auto. lia.
  - simpl in Hy.
    destruct (is_wakable tile).
    + destruct (get_neighbours m x y label tile) as [ns|] eqn:En; [|discriminate].
      destruct ns as [|n0 ns'].
      * eapply IH; [exact H0|exact Hx| | |exact Hlen|exact Hok|exact H]; lia.
      * destruct (Nat.ltb_spec label (length mn)) as [Hlt|]; [|discriminate].
        eapply IH; [exact H0|exact Hx| | | | |exact H]; [lia|lia| |].
        -- rewrite length_list_set. exact Hlen.
        -- intros u nb Hnb. rewrite nth_list_set in Hnb by exact Hlt.
           destruct (u =? label); [|eapply Hok; eauto].
           apply in_app_or in Hnb. destruct Hnb as [Hnb|Hnb]; [eapply Hok; eauto|].
           subst label. eapply get_neighbours_range; [exact H0|exact Hx| |exact En|exact Hnb]. lia.
    + eapply IH; [exact H0|exact Hx| | |exact Hlen|exact Hok|exact H]; lia.
Qed.

Lemma change_matrix_rows_valid m toc row0 : forall rows x mn tn label res,
  nth_error m 0 = Some row0 -> x + length rows = length m ->
  Forall (fun row => length row = length row0) rows ->
  label = x * length row0 ->
  length mn = length m * length row0 -> edges_below (length m * length row0) mn ->
  change_matrix_rows m toc x rows (mn, tn, label) = Some res ->
  length (fst (fst res)) = length m * length row0 /\
  edges_below (length m * length row0) (fst (fst res)).
Proof.
  induction rows as [|row rows IH]; intros x mn tn label res H0 Hx Hf Hl Hlen Hok H; simpl in H.
  - injection H as <-. auto.
  - inversion Hf as [|? ? Hrow Hf']; subst.
    destruct (change_matrix_row m toc x 0 row (mn, tn, x * length row0))
      as [[[mn1 tn1] l1]|] eqn:E; [|discriminate].
    simpl in Hx. cbv beta in Hrow.
    assert (Hxm : x < length m) by lia.
    assert (Hr0 : 0 + length row = length row0) by (simpl; exact Hrow).
    assert (Hl0 : x * length row0 = x * length row0 + 0) by lia.
    destruct (change_matrix_row_valid m toc row0 x row 0 mn tn _ mn1 tn1 l1 H0 Hxm
                Hr0 Hl0 Hlen Hok E) as [Hlen1 [Hok1 Hl1]].
    eapply IH; [exact H0| |exact Hf'| |exact Hlen1|exact Hok1|exact H]; [lia|].
    rewrite Hl1. lia.
Qed.

Lemma change_matrix_valid m toc graph targets :
  is_rectangular m = true -> change_matrix m toc = Some (graph, targets) ->
  forall u nb, In nb (nth u graph []) -> Node.index nb < length graph.
Proof.
  intros Hr H. unfold change_matrix in H.
  destruct (nth_error m 0) as [row0|] eqn:H0; [|discriminate].
  destruct (change_matrix_rows _ _ _ _ _) as [[[mn tn] l]|] eqn:E; [|discriminate].
  injection H as <- <-.
  assert (Hf : Forall (fun row => length row = length row0) m).
  { apply Forall_forall. intros row Hrow. unfold is_rectangular in Hr.
    rewrite forallb_forall in Hr. specialize (Hr row Hrow). apply Nat.eqb_eq in Hr.
    destruct m; [discriminate|]. simpl in H0, Hr. injection H0 as ->. exact Hr. }
  destruct (change_matrix_rows_valid m toc row0 m 0 _ [] 0 _ H0 eq_refl Hf eq_refl
              ltac:(apply repeat_length) ltac:(intros u nb Hnb; rewrite nth_repeat in Hnb; destruct Hnb) E)
    as [Hlen Hok].
  simpl in Hlen, Hok. rewrite Hlen. exact Hok.
Qed.

Lemma reachable_step graph start u nb :
  reachable graph start u -> In nb (nth u graph []) -> reachable graph start (Node.index nb).
Proof.
  intros [rp [w [Hp Hh]]] Hnb. destruct rp as [|u' rp]; [discriminate|].
  injection Hh as Hh; subst u'. exists (Node.index nb :: u :: rp), (w + Node.distance nb)%N.
  split; [eapply path_step; eauto|reflexivity].
Qed.

Lemma reachable_start graph start : reachable graph start start.
Proof. exists [start], 0%N. split; [apply path_start|reflexivity]. Qed.

Lemma push_unvisited_spec d ns vis : forall h h',
  push_unvisited d ns vis h = Some h' ->
  (forall x, In x h' -> In x h \/ exists nb, In nb ns /\ Node.index x = Node.index nb) /\
  (forall nb, In nb ns -> nth (Node.index nb) vis false = true \/
                          exists x, In x h' /\ Node.index x = Node.index nb) /\
  (forall x, In x h -> In x h').
Proof.
  induction ns as [|nb ns IH]; intros h h' H; simpl in H.
  - injection H as <-. split; [auto|]. split; [intros nb []|auto].
  - destruct (nth_error vis (Node.index nb)) as [v|] eqn:Ev; [|discriminate].
    destruct v.
    + destruct (IH _ _ H) as [H1 [H2 H3]]. split; [|split; [|exact H3]].
      * intros x Hx. destruct (H1 x Hx) as [|[nb' [Hin Hi]]]; [now left|right; exists nb'; simpl; auto].
      * intros nb' [<-|Hin]; [left; apply nth_error_nth; exact Ev|auto].
    + destruct (negb _); [discriminate|].
      destruct (IH _ _ H) as [H1 [H2 H3]]. split; [|split].
      * intros x Hx. destruct (H1 x Hx) as [[<-|Hx']|[nb' [Hin Hi]]].
        -- right. exists nb. simpl. auto.
        -- now left.
        -- right. exists nb'. simpl. auto.
      * intros nb' [<-|Hin]; [right; eexists; split; [apply H3; left; reflexivity|reflexivity]|auto].
      * intros x Hx. apply H3. right. exact Hx.
Qed.

Section ConnectedCorrect.
Variable graph : list (list Node.t).
Variable start : nat.
Variable targets : list nat.
Hypothesis graph_ok : forall u nb, In nb (nth u graph []) -> Node.index nb < length graph.
Variable pop : list Node.t -> option (Node.t * list Node.t).
Hypothesis pop_ok : pops_min pop.
Lemma visited_closed st : cinv graph start targets st -> c_heap st = [] ->
  forall t, reachable graph start t -> nth t (c_visited st) false = true.
Proof.
  intros Hi He t [rp [w [Hp Hh]]]. revert t Hh.
  induction Hp as [|u rp w nb Hp IH Hnb]; intros t Hh; injection Hh as <-.
  - destruct (ci_start _ _ _ _ Hi) as [|[x [Hx _]]]; [assumption|]. rewrite He in Hx. destruct Hx.
  - destruct (ci_closed _ _ _ _ Hi u nb (IH u eq_refl) Hnb) as [|[x [Hx _]]]; [assumption|].
    rewrite He in Hx. destruct Hx.
Qed.
Lemma connected_loop_correct : forall fuel st ct,
  cinv graph start targets st ->
  connected_loop pop fuel graph targets st = Some ct ->
  NoDup ct /\ forall t, In t ct <-> In t targets /\ reachable graph start t.
Proof.
  induction fuel as [|fuel IH]; intros st ct Hi H; simpl in H; [discriminate|].
  pose proof (pop_ok (c_heap st)) as Hp.
  destruct (pop (c_heap st)) as [[node rest]|] eqn:Epop.
  2:{ injection H as <-. split; [apply (ci_nodup _ _ _ _ Hi)|].
      intros t. rewrite (ci_conn _ _ _ _ Hi). split; intros [Ht Hv]; split; auto.
      - apply (ci_vis _ _ _ _ Hi). exact Hv.
      - apply (visited_closed st Hi Hp). exact Hv. }
  destruct Hp as [Hperm _].
  assert (Hin_node : In node (c_heap st)) by (apply (Permutation_in _ (Permutation_sym Hperm)); left; auto).
  assert (Hin_rest : forall x, In x rest -> In x (c_heap st))
    by (intros x Hx; apply (Permutation_in _ (Permutation_sym Hperm)); right; auto).
  assert (Hin_heap : forall x, In x (c_heap st) -> x = node \/ In x rest)
    by (intros x Hx; apply (Permutation_in _ Hperm) in Hx; destruct Hx; auto).
  destruct (nth_error (c_visited st) (Node.index node)) as [seen|] eqn:Es; [|discriminate].
  assert (Hlt : Node.index node < length (c_visited st)) by (apply nth_error_Some; congruence).
  apply nth_error_nth with (d := false) in Es.
  destruct seen.
  - eapply IH; [|exact H]. destruct Hi as [Hl Hh Hv Hc Hn Hs Hcl].
    constructor; simpl; auto.
    + destruct Hs as [|[x [Hx Hxi]]]; [now left|].
      destruct (Hin_heap x Hx) as [<-|Hx']; [left; congruence|right; eauto].
    + intros u nb Hu Hnb. destruct (Hcl u nb Hu Hnb) as [|[x [Hx Hxi]]]; [now left|].
      destruct (Hin_heap x Hx) as [<-|Hx']; [left; congruence|right; eauto].
  - destruct (nth_error graph (Node.index node)) as [ns|] eqn:Eg; [|discriminate].
    apply nth_error_nth with (d := []) in Eg.
    destruct (push_unvisited _ _ _ _) as [h|] eqn:Epu; [|discriminate].
    destruct (push_unvisited_spec _ _ _ _ _ Epu) as [P1 [P2 P3]].
    destruct Hi as [Hl Hh Hv Hc Hn Hs Hcl].
    assert (Hrn : reachable graph start (Node.index node)) by (apply Hh; exact Hin_node).
    assert (Hnv : forall u, nth u (list_set (c_visited st) (Node.index node) true) false =
                           if u =? Node.index node then true else nth u (c_visited st) false)
      by (intros u; apply nth_list_set; exact Hlt).
    eapply IH; [|exact H]. constructor; simpl.
    + rewrite length_list_set. exact Hl.
    + intros x Hx. destruct (P1 x Hx) as [Hx'|[nb [Hnb Hi]]].
      * apply Hh. apply Hin_rest. exact Hx'.
      * rewrite Hi. eapply reachable_step; [exact Hrn|]. rewrite Eg. exact Hnb.
    + intros u. rewrite Hnv. destruct (Nat.eqb_spec u (Node.index node)) as [->|]; auto.
    + intros t. rewrite Hnv.
      destruct (existsb (Nat.eqb (Node.index node)) targets) eqn:Ex.
      * rewrite in_app_iff, Hc. simpl.
        destruct (Nat.eqb_spec t (Node.index node)) as [->|Hne]; split.
        -- intros _. split; [|reflexivity]. apply existsb_exists in Ex.
           destruct Ex as [y [Hy Hyi]]. apply Nat.eqb_eq in Hyi. subst y. exact Hy.
        -- intros _. right. left. reflexivity.
        -- intros [[? ?]|[?|[]]]; [auto|congruence].
        -- intros [? ?]. left. auto.
      * rewrite Hc. destruct (Nat.eqb_spec t (Node.index node)) as [->|Hne]; [split|tauto].
        -- intros [_ Hv']. congruence.
        -- intros [Ht _]. exfalso. assert (existsb (Nat.eqb (Node.index node)) targets = true)
             by (apply existsb_exists; exists (Node.index node); split; [exact Ht|apply Nat.eqb_refl]).
           congruence.
    + destruct (existsb _ targets); [|exact Hn].
      apply NoDup_app; [exact Hn|constructor; [intros []|constructor]|].
      intros x Hx [<-|[]]. apply Hc in Hx. destruct Hx as [_ Hx]. congruence.
    + rewrite Hnv. destruct Hs as [Hs|[x [Hx Hxi]]].
      * left. destruct (_ =? _); auto.
      * destruct (Hin_heap x Hx) as [<-|Hx'].
        -- left. rewrite Hxi, Nat.eqb_refl. reflexivity.
        -- right. exists x. split; [apply P3; exact Hx'|exact Hxi].
    + intros u nb. rewrite !Hnv. intros Hu Hnb.
      destruct (Nat.eqb_spec u (Node.index node)) as [->|Hne].
      * rewrite Eg in Hnb. destruct (P2 nb Hnb) as [Hvn|Hh']; [left|right; exact Hh'].
        rewrite Hnv in Hvn. exact Hvn.
      * destruct (Hcl u nb Hu Hnb) as [Hvn|[x [Hx Hxi]]].
        -- left. destruct (_ =? _); auto.
        -- destruct (Hin_heap x Hx) as [<-|Hx'].
           ++ left. rewrite <- Hxi, Nat.eqb_refl. reflexivity.
           ++ right. exists x. split; [apply P3; exact Hx'|exact Hxi].
Qed.
End ConnectedCorrect.

Lemma cinv_init graph start targets :
  cinv graph start targets (mkCState [Node.mk start 0] (repeat false (length graph)) []).
Proof.
  constructor; simpl.
  - apply repeat_length.
  - intros x [<-|[]]. apply reachable_start.
  - intros u. rewrite nth_repeat. discriminate.
  - intros t. rewrite nth_repeat. split; [intros []|intros [_ ?]; discriminate].
  - constructor.
  - right. eexists. split; [left; reflexivity|reflexivity].
  - intros u nb. rewrite nth_repeat. discriminate.
Qed.

Lemma count_true_set vis i :
  i < length vis -> nth i vis false = false -> count_true (list_set vis i true) = S (count_true vis).
Proof.
  unfold count_true. revert i; induction vis as [|b vis IH]; intros [|i] Hi Hn; simpl in *; try lia.
  - subst b. reflexivity.
  - destruct b; simpl; rewrite IH; auto; lia.
Qed.

Lemma count_true_le vis : count_true vis <= length vis.
Proof. unfold count_true. apply filter_length_le. Qed.

Lemma count_true_lt vis i :
  i < length vis -> nth i vis false = false -> count_true vis < length vis.
Proof.
  intros Hi Hn. pose proof (count_true_set vis i Hi Hn). pose proof (count_true_le (list_set vis i true)).
  rewrite length_list_set in *. lia.
Qed.

Lemma push_unvisited_some d ns vis (bound : nat) : forall h,
  (forall nb, In nb ns -> Node.index nb < length vis) ->
  (forall nb, In nb ns -> (d + N.of_nat (Node.index nb) <= usize_max)%N) ->
  exists h', push_unvisited d ns vis h = Some h' /\ length h' <= length h + length ns /\
    forall x, In x h' -> In x h \/
      (Node.index x < length vis /\ Node.distance x = (d + N.of_nat (Node.index x))%N).
Proof.
  induction ns as [|nb ns IH]; intros h Hr Hd; simpl.
  - exists h. split; [reflexivity|]. split; [lia|auto].
  - assert (Hnb : Node.index nb < length vis) by (apply Hr; left; reflexivity).
    destruct (nth_error vis (Node.index nb)) as [v|] eqn:Ev.
    2:{ apply nth_error_None in Ev. lia. }
    destruct v.
    + destruct (IH h) as [h' [E [L P]]]; [intros; apply Hr; right; auto|intros; apply Hd; right; auto|].
      exists h'. split; [exact E|]. split; [lia|exact P].
    + assert (Hle : (d + N.of_nat (Node.index nb) <= usize_max)%N) by (apply Hd; left; reflexivity).
      apply N.leb_le in Hle. rewrite Hle. simpl.
      destruct (IH (Node.mk (Node.index nb) (d + N.of_nat (Node.index nb)) :: h)) as [h' [E [L P]]];
        [intros; apply Hr; right; auto|intros; apply Hd; right; auto|].
      exists h'. split; [exact E|]. split; [simpl in L; lia|].
      intros x Hx. destruct (P x Hx) as [[<-|Hx']|Hx']; auto.
Qed.

Section ConnectedTerminates.
Variable graph : list (list Node.t).
Hypothesis graph_ok : forall u nb, In nb (nth u graph []) -> Node.index nb < length graph.
Hypothesis graph_small : (N.of_nat (length graph * length graph) <= usize_max)%N.
Variable targets : list nat.
Variable pop : list Node.t -> option (Node.t * list Node.t).
Hypothesis pop_ok : pops_min pop.
Lemma connected_loop_some : forall fuel st,
  length (c_visited st) = length graph ->
  (forall x, In x (c_heap st) -> Node.index x < length graph /\
     (Node.distance x <= N.of_nat (count_true (c_visited st) * length graph))%N) ->
  length (c_heap st) + unvisited_edges graph (c_visited st) < fuel ->
  exists ct, connected_loop pop fuel graph targets st = Some ct.
Proof.
  induction fuel as [|fuel IH]; intros st Hl Hh Hf; [lia|]. simpl.
  pose proof (pop_ok (c_heap st)) as Hp.
  destruct (pop (c_heap st)) as [[node rest]|] eqn:Epop; [|eauto].
  destruct Hp as [Hperm _].
  pose proof (Permutation_length Hperm) as Hlen. simpl in Hlen.
  assert (Hin_node : In node (c_heap st)) by (apply (Permutation_in _ (Permutation_sym Hperm)); left; auto).
  assert (Hin_rest : forall x, In x rest -> In x (c_heap st))
    by (intros x Hx; apply (Permutation_in _ (Permutation_sym Hperm)); right; auto).
  destruct (Hh node Hin_node) as [Hni Hnd].
  destruct (nth_error (c_visited st) (Node.index node)) as [seen|] eqn:Es.
  2:{ apply nth_error_None in Es. lia. }
  apply nth_error_nth with (d := false) in Es.
  destruct seen.
  - apply IH; simpl; auto; lia.
  - destruct (nth_error graph (Node.index node)) as [ns|] eqn:Eg.
    2:{ apply nth_error_None in Eg. lia. }
    apply nth_error_nth with (d := []) in Eg.
    set (vis := list_set (c_visited st) (Node.index node) true).
    assert (Hvl : length vis = length graph) by (unfold vis; rewrite length_list_set; exact Hl).
    assert (Hc : count_true vis = S (count_true (c_visited st)))
      by (apply count_true_set; [lia|exact Es]).
    assert (Hclt : count_true (c_visited st) < length graph)
      by (rewrite <- Hl; apply (count_true_lt _ (Node.index node)); [lia|exact Es]).
    destruct (push_unvisited_some (Node.distance node) ns vis 0 rest) as [h [E [L P]]].
    + intros nb Hnb. rewrite Hvl. apply (graph_ok (Node.index node)). rewrite Eg. exact Hnb.
    + intros nb Hnb. assert (Hi : Node.index nb < length graph)
        by (apply (graph_ok (Node.index node)); rewrite Eg; exact Hnb).
      eapply N.le_trans; [|exact graph_small].
      assert (count_true (c_visited st) * length graph + length graph <= length graph * length graph)
        by nia.
      lia.
    + rewrite E.
      pose proof (unvisited_edges_visit graph (c_visited st) (Node.index node) ltac:(lia) Es) as Hu.
      rewrite Eg in Hu.
      apply IH; simpl.
      * exact Hvl.
      * intros x Hx. rewrite Hc. destruct (P x Hx) as [Hx'|[Hxi Hxd]].
        -- destruct (Hh x (Hin_rest x Hx')) as [Hxi Hxd]. split; [exact Hxi|]. lia.
        -- rewrite Hvl in Hxi. split; [exact Hxi|]. rewrite Hxd. lia.
      * fold vis in Hu. lia.
Qed.
End ConnectedTerminates.

Lemma nat_lookup_insert {V} (m : list (nat * V)) k v k' :
  nat_lookup (nat_insert m k v) k' = if k' =? k then Some v else nat_lookup m k'.
Proof.
  induction m as [|[k0 v0] m IH]; simpl; [reflexivity|].
  destruct (Nat.eqb_spec k k0) as [E|Hne]; simpl.
  - subst k0. destruct (k' =? k); reflexivity.
  - rewrite IH. destruct (Nat.eqb_spec k' k) as [E|]; [|reflexivity].
    subst k'. apply Nat.eqb_neq in Hne. rewrite Hne. reflexivity.
Qed.

Lemma direction_of_small p q :
  (N.of_nat (fst p) < 2147483647)%N -> (N.of_nat (snd p) < 2147483647)%N ->
  (N.of_nat (fst q) < 2147483647)%N -> (N.of_nat (snd q) < 2147483647)%N ->
  exists r, direction_of p q = Some r /\ forall d, r = inl d <-> moves p d q.
Proof.
  destruct p as [pr pc], q as [qr qc]. simpl. intros H1 H2 H3 H4. unfold direction_of. simpl.
  rewrite !usize_as_i32_small by assumption. rewrite !nat_N_Z.
  unfold i32_sub.
  replace ((- 2 ^ 31 <=? Z.of_nat qr - Z.of_nat pr) && (Z.of_nat qr - Z.of_nat pr <? 2 ^ 31))%Z
    with true by (symmetry; apply andb_true_iff; split; [apply Z.leb_le|apply Z.ltb_lt]; lia).
  replace ((- 2 ^ 31 <=? Z.of_nat qc - Z.of_nat pc) && (Z.of_nat qc - Z.of_nat pc <? 2 ^ 31))%Z
    with true by (symmetry; apply andb_true_iff; split; [apply Z.leb_le|apply Z.ltb_lt]; lia).
  eexists. split; [reflexivity|]. intros d.
  destruct (Z.eqb_spec (Z.of_nat qr - Z.of_nat pr) (-1)), (Z.eqb_spec (Z.of_nat qc - Z.of_nat pc) 0);
  destruct (Z.eqb_spec (Z.of_nat qr - Z.of_nat pr) 1), (Z.eqb_spec (Z.of_nat qc - Z.of_nat pc) (-1));
  destruct (Z.eqb_spec (Z.of_nat qr - Z.of_nat pr) 0), (Z.eqb_spec (Z.of_nat qc - Z.of_nat pc) 1);
  simpl; destruct d; simpl; split; intros H; try discriminate; try (injection H as H);
  try discriminate; try lia; try (split; lia); try reflexivity; exfalso; lia.
Qed.

Lemma moves_det p d d' q : moves p d q -> moves p d' q -> d = d'.
Proof. destruct p, q, d, d'; simpl; intros; auto; lia. Qed.

Lemma path_to_directions_loop_cons2 coordinates a b path acc :
  path_to_directions_loop coordinates (a :: b :: path) acc =
  match nat_lookup coordinates a with
  | None => Some (inr MissingCurrent)
  | Some current_coords =>
      match nat_lookup coordinates b with
      | None => Some (inr MissingNext)
      | Some next_coords =>
          let? d := direction_of current_coords next_coords in
          match d with
          | inr e => Some (inr e)
          | inl direction => path_to_directions_loop coordinates (b :: path) (acc ++ [direction])
          end
      end
  end.
Proof. reflexivity. Qed.

Lemma path_to_directions_loop_spec coordinates : coords_small coordinates ->
  forall path acc dirs,
  path_to_directions_loop coordinates path acc = Some (inl dirs) <->
  exists ds, dirs = acc ++ ds /\ steps_ok coordinates path ds.
Proof.
  intros Hs path. induction path as [|a path IH]; intros acc dirs.
  - simpl. split.
    + intros H. injection H as <-. exists []. rewrite app_nil_r. split; [reflexivity|].
      split; [reflexivity|]. intros i Hi. simpl in Hi. lia.
    + intros [ds [-> [Hl _]]]. destruct ds; [|simpl in Hl; lia]. rewrite app_nil_r. reflexivity.
  - destruct path as [|b path'].
    + simpl. split.
      * intros H. injection H as <-. exists []. rewrite app_nil_r. split; [reflexivity|].
        split; [reflexivity|]. intros i Hi. simpl in Hi. lia.
      * intros [ds [-> [Hl _]]]. destruct ds; [|simpl in Hl; lia]. rewrite app_nil_r. reflexivity.
    + rewrite path_to_directions_loop_cons2.
      assert (Hfirst : forall ds, steps_ok coordinates (a :: b :: path') ds -> exists p q d ds',
        ds = d :: ds' /\ nat_lookup coordinates a = Some p /\ nat_lookup coordinates b = Some q /\
        moves p d q /\ steps_ok coordinates (b :: path') ds').
      { intros ds [Hl Hi]. destruct ds as [|d ds']; [simpl in Hl; lia|].
        destruct (Hi 0 ltac:(simpl; lia)) as [p [q [Hp [Hq Hm]]]].
        exists p, q, d, ds'. split; [reflexivity|]. split; [exact Hp|]. split; [exact Hq|].
        split; [exact Hm|]. split; [simpl in Hl |- *; lia|].
        intros i Hi'. apply (Hi (S i)). simpl. lia. }
      destruct (nat_lookup coordinates a) as [p|] eqn:Ea.
      2:{ split; [discriminate|]. intros [ds [_ Hok]].
          destruct (Hfirst ds Hok) as [p [q [d [ds' [_ [Hp _]]]]]]. discriminate. }
      destruct (nat_lookup coordinates b) as [q|] eqn:Eb.
      2:{ split; [discriminate|]. intros [ds [_ Hok]].
          destruct (Hfirst ds Hok) as [p' [q [d [ds' [_ [_ [Hq _]]]]]]]. discriminate. }
      destruct (Hs a p Ea) as [Hp1 Hp2]. destruct (Hs b q Eb) as [Hq1 Hq2].
      destruct (direction_of_small p q Hp1 Hp2 Hq1 Hq2) as [r [Er Hr]]. rewrite Er.
      destruct r as [d|e].
      * rewrite IH. split.
        -- intros [ds [-> Hok]]. exists (d :: ds). rewrite <- app_assoc. split; [reflexivity|].
           destruct Hok as [Hl Hi]. split; [simpl in Hl |- *; lia|].
           intros [|i] Hi'.
           ++ exists p, q. split; [exact Ea|]. split; [exact Eb|]. apply Hr. reflexivity.
           ++ apply Hi. simpl in Hi'. lia.
        -- intros [ds [-> Hok]].
           destruct (Hfirst ds Hok) as [p' [q' [d' [ds' [-> [Hp [Hq [Hm Hok']]]]]]]].
           injection Hp as <-. injection Hq as <-.
           assert (d' = d) by (apply (moves_det p d' d q Hm); apply Hr; reflexivity). subst d'.
           exists ds'. rewrite <- app_assoc. split; [reflexivity|exact Hok'].
      * split; [discriminate|]. intros [ds [_ Hok]].
        destruct (Hfirst ds Hok) as [p' [q' [d' [ds' [_ [Hp [Hq [Hm _]]]]]]]].
        injection Hp as <-. injection Hq as <-.
        apply Hr in Hm. discriminate.
Qed.

Lemma path_to_directions_steps coordinates path dirs :
  coords_small coordinates ->
  path_to_directions coordinates path = Some (inl dirs) <-> steps_ok coordinates path dirs.
Proof.
  intros Hs. destruct path as [|a path].
  - simpl. split.
    + intros H. injection H as <-. split; [reflexivity|]. intros i Hi. simpl in Hi. lia.
    + intros [Hl _]. destruct dirs; [reflexivity|simpl in Hl; lia].
  - unfold path_to_directions. rewrite path_to_directions_loop_spec by exact Hs.
    split; [intros [ds [-> Hok]]; exact Hok|intros Hok; exists dirs; auto].
Qed.

Lemma get_coordinates_row_spec i : forall row j hm cur,
  snd (get_coordinates_row i j row (hm, cur)) = cur + length row /\
  forall k, nat_lookup (fst (get_coordinates_row i j row (hm, cur))) k =
    if (cur <=? k) && (k <? cur + length row) then Some (i, j + (k - cur)) else nat_lookup hm k.
Proof.
  induction row as [|t row IH]; intros j hm cur; simpl.
  - split; [lia|]. intros k. replace ((cur <=? k) && (k <? cur + 0)) with false; [reflexivity|].
    symmetry. apply andb_false_iff. destruct (Nat.leb_spec cur k); [right; apply Nat.ltb_ge; lia|auto].
  - destruct (IH (S j) (nat_insert hm cur (i, j)) (S cur)) as [H1 H2]. split; [rewrite H1; lia|].
    intros k. rewrite H2, nat_lookup_insert.
    destruct (Nat.leb_spec (S cur) k), (Nat.ltb_spec k (S cur + length row)),
             (Nat.leb_spec cur k), (Nat.ltb_spec k (cur + S (length row))), (Nat.eqb_spec k cur);
      simpl; try lia; try reflexivity.
    + f_equal. f_equal. lia.
    + subst k. f_equal. f_equal. lia.
Qed.

Lemma get_coordinates_rows_spec cols : forall rows i hm cur,
  Forall (fun row => length row = cols) rows ->
  forall k, nat_lookup (fst (get_coordinates_rows i rows (hm, cur))) k =
    if (cur <=? k) && (k <? cur + length rows * cols)
    then Some (i + (k - cur) / cols, (k - cur) mod cols) else nat_lookup hm k.
Proof.
  induction rows as [|row rows IH]; intros i hm cur Hf k; simpl.
  - replace ((cur <=? k) && (k <? cur + 0)) with false; [reflexivity|].
    symmetry. apply andb_false_iff. destruct (Nat.leb_spec cur k); [right; apply Nat.ltb_ge; lia|auto].
  - inversion Hf as [|? ? Hrow Hf']; subst cols.
    destruct (get_coordinates_row_spec i row 0 hm cur) as [H1 H2].
    destruct (get_coordinates_row i 0 row (hm, cur)) as [hm1 cur1] eqn:E. simpl in H1, H2. subst cur1.
    rewrite IH by exact Hf'. rewrite H2.
    destruct (Nat.leb_spec (cur + length row) k), (Nat.ltb_spec k (cur + length row + length rows * length row)),
             (Nat.leb_spec cur k), (Nat.ltb_spec k (cur + (length row + length rows * length row))),
             (Nat.ltb_spec k (cur + length row));
      simpl; try lia; try reflexivity.
    + assert (Hc : length row <> 0) by lia.
      replace (k - cur) with ((k - (cur + length row)) + 1 * length row) by lia.
      rewrite Nat.div_add, Nat.Div0.mod_add by exact Hc. f_equal. f_equal. lia.
    + rewrite Nat.div_small, Nat.mod_small by lia. f_equal. f_equal; lia.
Qed.

Lemma get_coordinates_lookup m : is_rectangular m = true ->
  forall k, nat_lookup (get_coordinates m) k =
    if k <? length m * length (hd [] m)
    then Some (k / length (hd [] m), k mod length (hd [] m)) else None.
Proof.
  intros Hr k. unfold get_coordinates.
  rewrite (get_coordinates_rows_spec (length (hd [] m))).
  - simpl. rewrite Nat.sub_0_r. destruct (k <? length m * length (hd [] m)); reflexivity.
  - apply Forall_forall. intros row Hrow. unfold is_rectangular in Hr.
    rewrite forallb_forall in Hr. apply Nat.eqb_eq. apply Hr. exact Hrow.
Qed.

Lemma cell_div_mod cols a b : b < cols -> (a * cols + b) / cols = a /\ (a * cols + b) mod cols = b.
Proof.
  intros Hb. assert (Hc : cols <> 0) by lia. split.
  - rewrite Nat.add_comm, Nat.div_add, Nat.div_small by lia. lia.
  - rewrite Nat.add_comm, Nat.Div0.mod_add. apply Nat.mod_small. exact Hb.
Qed.

Lemma get_neighbours_moves m row0 x y tile ns :
  nth_error m 0 = Some row0 -> x < length m -> y < length row0 ->
  get_neighbours m x y (x * length row0 + y) tile = Some ns ->
  forall nb, In nb ns -> exists d, moves (x, y) d
    (Node.index nb / length row0, Node.index nb mod length row0).
Proof.
  intros H0 Hx Hy. unfold get_neighbours. rewrite H0.
  set (rows := length m) in *. set (cols := length row0) in *.
  intros H.
  repeat match type of H with
  | (match ?e with Some _ => _ | None => None end) = Some _ =>
      let E := fresh "E" in destruct e as [?|] eqn:E; [|discriminate]
  end.
  injection H as <-.
  intros nb Hnb. repeat rewrite in_app_iff in Hnb.
  destruct Hnb as [Hnb|[Hnb|[Hnb|Hnb]]].
  - destruct (neighbour_block_label _ _ _ _ _ _ _ E nb Hnb) as [Hc Hl].
    apply andb_true_iff in Hc as [Hc _]. apply andb_true_iff in Hc as [Hc _]. apply Nat.leb_le in Hc.
    unfold usize_sub in Hl. destruct (x * cols + y <? cols); [discriminate|]. injection Hl as Hl.
    replace (Node.index nb) with ((x - 1) * cols + y) by nia.
    destruct (cell_div_mod cols (x - 1) y Hy) as [-> ->]. exists Up. simpl. lia.
  - destruct (neighbour_block_label _ _ _ _ _ _ _ E0 nb Hnb) as [Hc Hl].
    apply andb_true_iff in Hc as [_ Hc]. apply Nat.ltb_lt in Hc. injection Hl as Hl.
    replace (Node.index nb) with (x * cols + S y) by lia.
    destruct (cell_div_mod cols x (S y) Hc) as [-> ->]. exists Right. simpl. lia.
  - destruct (neighbour_block_label _ _ _ _ _ _ _ E1 nb Hnb) as [_ Hl]. injection Hl as Hl.
    replace (Node.index nb) with (S x * cols + y) by lia.
    destruct (cell_div_mod cols (S x) y Hy) as [-> ->]. exists Down. simpl. lia.
  - destruct (neighbour_block_label _ _ _ _ _ _ _ E2 nb Hnb) as [Hc Hl].
    apply andb_true_iff in Hc as [Hc _]. apply andb_true_iff in Hc as [_ Hc]. apply Nat.leb_le in Hc.
    unfold usize_sub in Hl. destruct (x * cols + y <? 1); [discriminate|]. injection Hl as Hl.
    replace (Node.index nb) with (x * cols + (y - 1)) by lia.
    destruct (cell_div_mod cols x (y - 1) ltac:(lia)) as [-> ->]. exists Left. simpl. lia.
Qed.

Lemma change_matrix_row_moves m toc row0 x : forall row y mn tn label mn' tn' label',
  nth_error m 0 = Some row0 -> x < length m ->
  y + length row = length row0 -> label = x * length row0 + y ->
  edges_move (length row0) mn ->
  change_matrix_row m toc x y row (mn, tn, label) = Some (mn', tn', label') ->
  edges_move (length row0) mn' /\ label' = x * length row0 + length row0.
Proof.
  induction row as [|tile row IH]; intros y mn tn label mn' tn' label' H0 Hx Hy Hl Hok H;
    simpl in H.
  - injection H as <- <- <-. simpl in Hy. split; auto. lia.
  - simpl in Hy.
    destruct (is_wakable tile).
    + destruct (get_neighbours m x y label tile) as [ns|] eqn:En; [|discriminate].
      destruct ns as [|n0 ns'].
      * eapply IH; [exact H0|exact Hx| | |exact Hok|exact H]; lia.
      * destruct (Nat.ltb_spec label (length mn)) as [Hlt|]; [|discriminate].
        eapply IH; [exact H0|exact Hx| | | |exact H]; [lia|lia|].
        intros u nb Hnb. rewrite nth_list_set in Hnb by exact Hlt.
        destruct (Nat.eqb_spec u label) as [->|]; [|eapply Hok; eauto].
        apply in_app_or in Hnb. destruct Hnb as [Hnb|Hnb]; [eapply Hok; eauto|].
        subst label. destruct (cell_div_mod (length row0) x y ltac:(lia)) as [-> ->].
        eapply get_neighbours_moves; [exact H0|exact Hx| |exact En|exact Hnb]. lia.
    + eapply IH; [exact H0|exact Hx| | |exact Hok|exact H]; lia.
Qed.

Lemma change_matrix_rows_moves m toc row0 : forall rows x mn tn label res,
  nth_error m 0 = Some row0 -> x + length rows = length m ->
  Forall (fun row => length row = length row0) rows ->
  label = x * length row0 -> edges_move (length row0) mn ->
  change_matrix_rows m toc x rows (mn, tn, label) = Some res ->
  edges_move (length row0) (fst (fst res)).
Proof.
  induction rows as [|row rows IH]; intros x mn tn label res H0 Hx Hf Hl Hok H; simpl in H.
  - injection H as <-. exact Hok.
  - pose proof (Forall_inv Hf) as Hrow. pose proof (Forall_inv_tail Hf) as Hf'. simpl in Hrow.
    destruct (change_matrix_row m toc x 0 row (mn, tn, label)) as [[[mn1 tn1] l1]|] eqn:E;
      [|discriminate].
    simpl in Hx.
    assert (Hr0 : 0 + length row = length row0) by (simpl; exact Hrow).
    assert (Hl0 : label = x * length row0 + 0) by lia.
    destruct (change_matrix_row_moves m toc row0 x row 0 mn tn label mn1 tn1 l1 H0 ltac:(lia)
                Hr0 Hl0 Hok E) as [Hok1 Hl1].
    eapply IH; [exact H0| |exact Hf'| |exact Hok1|exact H]; lia.
Qed.

Lemma change_matrix_moves m toc graph targets :
  is_rectangular m = true -> change_matrix m toc = Some (graph, targets) ->
  length graph = length m * length (hd [] m) /\ edges_move (length (hd [] m)) graph.
Proof.
  intros Hr H. unfold change_matrix in H.
  destruct (nth_error m 0) as [row0|] eqn:H0; [|discriminate].
  destruct (change_matrix_rows _ _ _ _ _) as [[[mn tn] l]|] eqn:E; [|discriminate].
  injection H as <- <-.
  assert (Hhd : hd [] m = row0) by (destruct m; [discriminate|injection H0 as <-; reflexivity]).
  rewrite Hhd.
  assert (Hf : Forall (fun row => length row = length row0) m).
  { apply Forall_forall. intros row Hrow. unfold is_rectangular in Hr.
    rewrite forallb_forall in Hr. specialize (Hr row Hrow). apply Nat.eqb_eq in Hr.
    rewrite Hhd in Hr. exact Hr. }
  split.
  - destruct (change_matrix_rows_valid m toc row0 m 0 _ [] 0 _ H0 eq_refl Hf eq_refl
                ltac:(apply repeat_length)
                ltac:(intros u nb Hnb; rewrite nth_repeat in Hnb; destruct Hnb) E) as [Hlen _].
    exact Hlen.
  - apply (change_matrix_rows_moves m toc row0 m 0 (repeat [] (length m * length row0)) [] 0 _ H0 eq_refl Hf eq_refl
             ltac:(intros u nb Hnb; rewrite nth_repeat in Hnb; destruct Hnb) E).
Qed.

Lemma moves_step p d q : moves p d q -> step_coords p d = q.
Proof.
  destruct p as [r c], q as [r' c'], d; simpl; intros [H1 H2]; f_equal; lia.
Qed.

Lemma steps_ok_snoc coordinates l u v ds d p q :
  steps_ok coordinates (l ++ [u]) ds ->
  nat_lookup coordinates u = Some p -> nat_lookup coordinates v = Some q -> moves p d q ->
  steps_ok coordinates (l ++ [u; v]) (ds ++ [d]).
Proof.
  intros [Hl Hi] Hu Hv Hm. rewrite length_app in Hl. simpl in Hl.
  split.
  - rewrite !length_app. simpl. lia.
  - intros i Hi'. rewrite length_app in Hi'. simpl in Hi'.
    destruct (Nat.eq_dec i (length ds)) as [->|Hne].
    + exists p, q.
      rewrite (app_nth2 l [u; v]) by lia. rewrite (app_nth2 l [u; v]) by lia.
      rewrite (app_nth2 ds [d]) by lia.
      replace (length ds - length l) with 0 by lia.
      replace (S (length ds) - length l) with 1 by lia.
      rewrite Nat.sub_diag. simpl. auto.
    + destruct (Hi i ltac:(lia)) as [p' [q' [H1 [H2 H3]]]]. exists p', q'.
      replace (l ++ [u; v]) with ((l ++ [u]) ++ [v]) by (rewrite <- app_assoc; reflexivity).
      rewrite (app_nth1 (l ++ [u]) [v]) by (rewrite length_app; simpl; lia).
      rewrite (app_nth1 (l ++ [u]) [v]) by (rewrite length_app; simpl; lia).
      rewrite (app_nth1 ds [d]) by lia. auto.
Qed.

Lemma collect_results_nth sd preds : forall targets rs,
  collect_results sd preds targets = Some rs ->
  length rs = length targets /\
  forall i r, nth_error rs i = Some r -> exists t d,
    nth_error targets i = Some t /\ target_node r = t /\
    reconstruct_shortest_path preds t = Some (path r) /\
    nth_error sd t = Some d /\ total_cost r = match d with None => 0%Z | Some z => z end.
Proof.
  induction targets as [|t targets IH]; intros rs H; simpl in H.
  - injection H as <-. split; [reflexivity|]. intros [|i] r Hr; discriminate.
  - destruct (reconstruct_shortest_path preds t) as [p|] eqn:Ep; [|discriminate].
    destruct (nth_error sd t) as [d|] eqn:Ed; [|discriminate].
    destruct (collect_results sd preds targets) as [rs'|] eqn:Er; [|discriminate].
    injection H as <-. destruct (IH rs' eq_refl) as [Hl Hn]. split; [simpl; lia|].
    intros [|i] r Hr; simpl in Hr.
    + injection Hr as <-. exists t, d. simpl. auto.
    + apply Hn. exact Hr.
Qed.

Lemma find_shortest_paths_results pop graph start targets results :
  pops_min pop ->
  (forall u nb, In nb (nth u graph []) -> Node.index nb < length graph) ->
  find_shortest_paths pop graph start targets = Some results ->
  length results = length targets /\
  forall i r, nth_error results i = Some r ->
    nth_error targets i = Some (target_node r) /\ target_node r < length graph /\
    ((path r = None /\ total_cost r = 0%Z /\
      (target_node r = start \/
       forall rp w, path_to graph start rp w -> hd_error rp = Some (target_node r) ->
         (Z.to_N INF <= w)%N)) \/
     (exists p, path r = Some p /\ target_node r <> start /\
        hd_error p = Some start /\ hd_error (rev p) = Some (target_node r) /\
        path_to graph start (rev p) (Z.to_N (total_cost r)) /\
        (0 <= total_cost r < INF)%Z /\
        forall rp w, path_to graph start rp w -> hd_error rp = Some (target_node r) ->
          (Z.to_N (total_cost r) <= w)%N)).
Proof.
  intros Hpop Hg H. unfold find_shortest_paths in H.
  destruct (dijkstra pop graph start) as [[dist pred]|] eqn:Ed; [|discriminate].
  destruct (dijkstra_correct pop graph start dist pred Hpop Hg Ed)
    as [Hst [Hlen [Hsome [Hnone [Hrec1 Hrec2]]]]].
  destruct (collect_results_nth dist pred targets results H) as [Hl Hn].
  split; [exact Hl|]. intros i r Hr.
  destruct (Hn i r Hr) as [t [d [Hti [<- [Hp [Hd Hc]]]]]].
  assert (Htl : target_node r < length graph)
    by (rewrite <- Hlen; apply nth_error_Some; congruence).
  split; [exact Hti|]. split; [exact Htl|].
  apply nth_error_nth with (d := None) in Hd.
  destruct (Nat.eq_dec (target_node r) start) as [Heq|Hne].
  - left. rewrite (Hrec1 (target_node r) Htl (or_introl Heq)) in Hp. injection Hp as Hp.
    split; [symmetry; exact Hp|]. split; [|left; exact Heq].
    rewrite Hc. destruct d as [z|]; [|reflexivity].
    destruct (Hsome _ _ Hd) as [Hr0 [_ Hmin]].
    assert (Hle : (Z.to_N z <= 0)%N) by (apply (Hmin [start] 0%N (path_start _ _)); simpl; rewrite Heq; reflexivity).
    lia.
  - destruct d as [z|].
    + right. destruct (Hrec2 _ _ Hne Hd) as [p [Ep [Hh [Hl' Hpt]]]].
      rewrite Ep in Hp. injection Hp as Hp. rewrite Hc.
      destruct (Hsome _ _ Hd) as [Hr0 [_ Hmin]].
      exists p. split; [symmetry; exact Hp|]. auto 7.
    + left. rewrite (Hrec1 (target_node r) Htl (or_intror Hd)) in Hp. injection Hp as Hp.
      split; [symmetry; exact Hp|]. split; [exact Hc|]. right. apply Hnone. exact Hd.
Qed.

Lemma min_by_total_cost_in paths best : min_by_total_cost paths = Some best -> In best paths.
Proof.
  destruct paths as [|x rest]; simpl; [discriminate|]. intros H; injection H as <-.
  assert (Hg : forall acc, In acc (x :: rest) -> forall l, incl l (x :: rest) ->
     In (fold_left (fun acc y => if (total_cost y <? total_cost acc)%Z then y else acc) l acc) (x :: rest)).
  { intros acc Hacc l. revert acc Hacc. induction l as [|y l IH]; intros acc Hacc Hl; simpl; [exact Hacc|].
    apply IH; [destruct (_ <? _)%Z; [apply Hl; left; reflexivity|exact Hacc]|].
    intros z Hz. apply Hl. right. exact Hz. }
  apply Hg; [left; reflexivity|]. intros z Hz. right. exact Hz.
Qed.

Lemma collect_results_no_path sd preds : forall targets,
  (forall t, In t targets -> reconstruct_shortest_path preds t = Some None /\ t < length sd) ->
  exists rs, collect_results sd preds targets = Some rs /\ length rs = length targets /\
    forall r, In r rs -> path r = None.
Proof.
  induction targets as [|t targets IH]; intros H; simpl.
  - exists []. split; [reflexivity|]. split; [reflexivity|]. intros r [].
  - destruct (H t (or_introl eq_refl)) as [Hr Ht]. rewrite Hr.
    destruct (nth_error sd t) as [d|] eqn:Ed; [|apply nth_error_None in Ed; lia].
    destruct IH as [rs [E [Hl Hp]]]; [intros t' Ht'; apply H; right; exact Ht'|].
    rewrite E. eexists. split; [reflexivity|]. split; [simpl; lia|].
    intros r [<-|Hin]; [reflexivity|apply Hp; exact Hin].
Qed.

Lemma steps_ok_walk coordinates : forall p a ds pa b,
  steps_ok coordinates (a :: p) ds -> hd_error (rev (a :: p)) = Some b ->
  nat_lookup coordinates a = Some pa ->
  exists pb, nat_lookup coordinates b = Some pb /\ fold_left step_coords ds pa = pb.
Proof.
  induction p as [|a' p IH]; intros a ds pa b [Hl Hi] Hb Ha.
  - simpl in Hb. injection Hb as <-. destruct ds; [|simpl in Hl; lia].
    exists pa. auto.
  - destruct ds as [|d ds]; [simpl in Hl; lia|].
    destruct (Hi 0 ltac:(simpl; lia)) as [p' [q [Hp [Hq Hm]]]]. simpl in Hp, Hq, Hm.
    rewrite Ha in Hp. injection Hp as <-.
    destruct (IH a' ds q b) as [pb [Hpb Hf]].
    + split; [simpl in Hl |- *; lia|]. intros i Hi'. apply (Hi (S i)). simpl. lia.
    + rewrite <- Hb. simpl. rewrite <- app_assoc.
      destruct (rev p); reflexivity.
    + exact Hq.
    + exists pb. split; [exact Hpb|]. simpl. rewrite (moves_step _ _ _ Hm). exact Hf.
Qed.

Lemma build_path_loop_reaches pop graph coordinates :
  pops_min pop ->
  (forall u nb, In nb (nth u graph []) -> Node.index nb < length graph) ->
  coords_small coordinates ->
  forall fuel start targets acc segs p0,
  nat_lookup coordinates start = Some p0 ->
  build_path_loop pop fuel graph start targets coordinates acc = Returns (inl segs) ->
  exists more, segs = acc ++ more /\
    forall t, In t targets -> exists k q, nat_lookup coordinates t = Some q /\
      fold_left step_coords (concat (firstn k more)) p0 = q.
Proof.
  intros Hpop Hg Hs. induction fuel as [|fuel IH]; intros start targets acc segs p0 Hp0 H;
    simpl in H; [discriminate|].
  destruct targets as [|t0 ts].
  { injection H as <-. exists []. rewrite app_nil_r. split; [reflexivity|intros t []]. }
  destruct (find_shortest_paths pop graph start (t0 :: ts)) as [paths|] eqn:Ef; [|discriminate].
  destruct (min_by_total_cost paths) as [best|] eqn:Em; [|eapply IH; eauto].
  destruct (path best) as [p|] eqn:Ep; [|eapply IH; eauto].
  destruct (find_shortest_paths_results pop graph start (t0 :: ts) paths Hpop Hg Ef) as [_ Hspec].
  destruct (In_nth_error _ _ (min_by_total_cost_in _ _ Em)) as [i Hi].
  destruct (Hspec i best Hi) as [Hti [_ [[Hn _]|[p' [Ep' [_ [Hh [Hl _]]]]]]]]; [congruence|].
  rewrite Ep in Ep'. injection Ep' as <-.
  rewrite Hl in H.
  destruct (path_to_directions coordinates p) as [[ds|e]|] eqn:Ed; try discriminate.
  apply path_to_directions_steps in Ed; [|exact Hs].
  destruct p as [|a p]; [discriminate|]. simpl in Hh. injection Hh as ->.
  destruct (steps_ok_walk coordinates p start ds p0 (target_node best) Ed Hl Hp0) as [pb [Hpb Hf]].
  destruct (IH _ _ _ _ pb Hpb H) as [more [Hsegs Hmore]].
  exists (ds :: more). split; [rewrite Hsegs, <- app_assoc; reflexivity|].
  intros t Ht. destruct (Nat.eq_dec t (target_node best)) as [->|Hne].
  - exists 1, pb. split; [exact Hpb|]. simpl. rewrite app_nil_r. exact Hf.
  - destruct (Hmore t) as [k [q [Hq Hk]]].
    { apply filter_In. split; [exact Ht|]. apply negb_true_iff, Nat.eqb_neq. exact Hne. }
    exists (S k), q. split; [exact Hq|]. simpl. rewrite fold_left_app, Hf. exact Hk.
Qed.

Lemma add_to_plot_props x y s :
  exists p, add_to_plot x y s = (Ok tt, set_plot s p) /\
    (forall k, In k p <-> In k (plot s) \/ k = (x, y)) /\ (NoDup (plot s) -> NoDup p).
Proof.
  unfold add_to_plot. destruct (existsb _ (plot s)) eqn:E.
  - exists (plot s). rewrite set_plot_id. split; [reflexivity|]. split; [|auto].
    intros k. split; [auto|]. intros [H| ->]; [exact H|].
    apply existsb_exists in E. destruct E as [[a b] [Hin Hab]].
    apply andb_true_iff in Hab. destruct Hab as [Ha Hb].
    apply Nat.eqb_eq in Ha, Hb. subst. exact Hin.
  - exists (plot s ++ [(x, y)]). split; [reflexivity|]. split.
    + intros k. rewrite in_app_iff. simpl. intuition.
    + intros Hnd. apply NoDup_app; [exact Hnd | repeat constructor; simpl; tauto |].
      intros k Hk [<-|[]]. assert (existsb (fun '(a, b) => (a =? x) && (b =? y)) (plot s) = true)
        by (apply existsb_exists; exists (x, y); rewrite !Nat.eqb_refl; auto).
      congruence.
Qed.

Lemma view_cols_spec flag r c i js : forall s,
  (forall j, In j js -> flag i j = false ->
     1 <= r + i /\ 1 <= c + j /\ tile_at (map (world s)) (r + i - 1) (c + j - 1) <> None) ->
  exists p, view_cols flag r c i js s =
              (Ok (List.map (view_cell (map (world s)) flag r c i) js), set_plot s p) /\
    (forall k, In k p <-> In k (plot s) \/
       exists j, In j js /\ flag i j = false /\ k = (r + i - 1, c + j - 1)) /\
    (NoDup (plot s) -> NoDup p).
Proof.
  induction js as [|j js IH]; intros s Hin; simpl.
  - exists (plot s). rewrite set_plot_id. split; [reflexivity|]. split; [|auto].
    intros k. split; [auto|]. intros [H|(j & [] & _)]. exact H.
  - destruct (flag i j) eqn:Ef.
    + destruct (IH s) as (p & Hr & Hp & Hnd).
      { intros j' Hj'. apply Hin. right. exact Hj'. }
      unfold bind at 1; simpl. rewrite (bind_ok _ _ _ _ _ Hr).
      exists p. split; [unfold view_cell; rewrite Ef; reflexivity|]. split; [|exact Hnd].
      intros k. rewrite Hp. split.
      * intros [H|(j' & H1 & H2 & H3)]; [left; exact H| right; exists j'; auto].
      * intros [H|(j' & [<-|H1] & H2 & H3)]; [left; exact H|congruence|right; exists j'; auto].
    + destruct (Hin j (or_introl eq_refl) Ef) as (Hri & Hcj & Ht).
      unfold usize_sub. destruct (r + i <? 1) eqn:E1; [apply Nat.ltb_lt in E1; lia|].
      destruct (c + j <? 1) eqn:E2; [apply Nat.ltb_lt in E2; lia|].
      destruct (tile_at (map (world s)) (r + i - 1) (c + j - 1)) as [t|] eqn:Et; [|congruence].
      assert (Hrt : read_tile (r + i - 1) (c + j - 1) s = (Ok t, s))
        by (unfold read_tile; rewrite Et; reflexivity).
      destruct (add_to_plot_props (r + i - 1) (c + j - 1) s) as (p1 & Hp1 & Hin1 & Hnd1).
      assert (Hcell : (t0 <- read_tile (r + i - 1) (c + j - 1) ;;
                       add_to_plot (r + i - 1) (c + j - 1) ;;; ret (Some t0)) s
                      = (Ok (Some t), set_plot s p1)).
      { rewrite (bind_ok _ _ _ _ _ Hrt). rewrite (bind_ok _ _ _ _ _ Hp1). reflexivity. }
      rewrite (bind_ok _ _ _ _ _ Hcell).
      destruct (IH (set_plot s p1)) as (p & Hr & Hp & Hnd).
      { intros j' Hj'. apply Hin. right. exact Hj'. }
      rewrite (bind_ok _ _ _ _ _ Hr).
      exists p. split; [unfold view_cell; rewrite Ef, Et; reflexivity|]. split.
      * intros k. rewrite Hp. simpl. rewrite Hin1. split.
        -- intros [[H| ->]|(j' & H1 & H2 & H3)]; [left; exact H|right; exists j; auto|
                                                 right; exists j'; auto].
        -- intros [H|(j' & [<-|H1] & H2 & H3)]; [left; left; exact H|left; right; exact H3|
                                                 right; exists j'; auto].
      * intros H. apply Hnd, Hnd1, H.
Qed.

Lemma view_rows_spec flag r c is : forall s,
  (forall i j, In i is -> In j [0; 1; 2] -> flag i j = false ->
     1 <= r + i /\ 1 <= c + j /\ tile_at (map (world s)) (r + i - 1) (c + j - 1) <> None) ->
  exists p, view_rows flag r c is s =
     (Ok (List.map (fun i => List.map (view_cell (map (world s)) flag r c i) [0; 1; 2]) is),
      set_plot s p) /\
    (forall k, In k p <-> In k (plot s) \/
       exists i j, In i is /\ In j [0; 1; 2] /\ flag i j = false /\ k = (r + i - 1, c + j - 1)) /\
    (NoDup (plot s) -> NoDup p).
Proof.
  induction is as [|i is IH]; intros s Hin; simpl.
  - exists (plot s). rewrite set_plot_id. split; [reflexivity|]. split; [|auto].
    intros k. split; [auto|]. intros [H|(i & j & [] & _)]. exact H.
  - destruct (view_cols_spec flag r c i [0; 1; 2] s) as (p1 & Hr1 & Hp1 & Hnd1).
    { intros j Hj. apply Hin; [left; reflexivity|exact Hj]. }
    rewrite (bind_ok _ _ _ _ _ Hr1).
    destruct (IH (set_plot s p1)) as (p & Hr & Hp & Hnd).
    { intros i' j Hi Hj. apply Hin; [right; exact Hi|exact Hj]. }
    rewrite (bind_ok _ _ _ _ _ Hr).
    exists p. split; [reflexivity|]. split.
    + intros k. rewrite Hp. simpl. rewrite Hp1. split.
      * intros [[H|(j & H1 & H2 & H3)]|(i' & j & H1 & H2 & H3 & H4)];
          [left; exact H|right; exists i, j; auto|right; exists i', j; auto].
      * intros [H|(i' & j & [<-|H1] & H2 & H3 & H4)];
          [left; left; exact H|left; right; exists j; auto|right; exists i', j; auto].
    + intros H. apply Hnd, Hnd1, H.
Qed.

Lemma square_tile_at w x y : square w -> x < dimension w -> y < dimension w ->
  exists t, tile_at (map w) x y = Some t.
Proof.
  intros [Hl Hrow] Hx Hy. unfold tile_at.
  destruct (nth_error (map w) x) as [row|] eqn:E.
  - assert (Hr := Hrow row (nth_error_In _ _ E)).
    destruct (nth_error row y) as [t|] eqn:E'; [eauto|].
    apply nth_error_None in E'. lia.
  - apply nth_error_None in E. lia.
Qed.

Lemma tile_at_square w x y t : square w -> tile_at (map w) x y = Some t ->
  x < dimension w /\ y < dimension w.
Proof.
  intros [Hl Hrow]. unfold tile_at.
  destruct (nth_error (map w) x) as [row|] eqn:E; [|discriminate].
  intros H. assert (Hr := Hrow row (nth_error_In _ _ E)).
  assert (x < length (map w)) by (apply nth_error_Some; congruence).
  assert (y < length row) by (apply nth_error_Some; congruence). lia.
Qed.

Lemma in012 i : In i [0; 1; 2] <-> i < 3.
Proof.
  simpl. split; [intros [<-|[<-|[<-|[]]]]; lia|].
  intros H. destruct i as [|[|[|i]]]; auto. lia.
Qed.

Lemma view_flag_spec r c dim i j : r < dim -> c < dim -> i < 3 -> j < 3 ->
  view_flag (r =? 0) (c =? 0) (r =? dim - 1) (c =? dim - 1) i j =
  negb ((1 <=? r + i) && (r + i <=? dim) && (1 <=? c + j) && (c + j <=? dim)).
Proof.
  intros Hr Hc Hi Hj. unfold view_flag. apply eq_true_iff_eq.
  rewrite negb_true_iff, ?orb_true_iff, ?andb_true_iff, ?andb_false_iff, ?Nat.eqb_eq,
    ?Nat.leb_le, ?Nat.leb_gt.
  split; intros; lia.
Qed.

Lemma nth_view3 (f : nat -> nat -> option Tile) i j : i < 3 -> j < 3 ->
  nth j (nth i (List.map (fun i => List.map (f i) [0; 1; 2]) [0; 1; 2]) []) None = f i j.
Proof.
  intros Hi Hj. destruct i as [|[|[|i]]]; [| | |lia]; destruct j as [|[|[|j]]]; try lia;
  reflexivity.
Qed.

Lemma robot_view_run (s : St) (r c : nat) :
  square (world s) -> coordinate (robot s) = (r, c) ->
  r < dimension (world s) -> c < dimension (world s) ->
  let dim := dimension (world s) in
  exists out p, robot_view s = (Ok out, set_plot s p) /\
    length out = 3 /\ (forall row, In row out -> length row = 3) /\
    (forall i j, i < 3 -> j < 3 ->
       nth j (nth i out []) None =
       if (1 <=? r + i) && (r + i <=? dim) && (1 <=? c + j) && (c + j <=? dim)
       then tile_at (map (world s)) (r + i - 1) (c + j - 1) else None) /\
    (forall x y, In (x, y) p <-> In (x, y) (plot s) \/
       (x < dim /\ y < dim /\ x <= r + 1 /\ r <= x + 1 /\ y <= c + 1 /\ c <= y + 1)) /\
    (NoDup (plot s) -> NoDup p).
Proof.
  intros Hsq Hrc Hr Hc dim.
  unfold robot_view. rewrite (bind_ok get _ s s s eq_refl). rewrite Hrc.
  destruct (Nat.eqb_spec (dimension (world s)) 0) as [E|_]; [lia|].
  set (flag := view_flag _ _ _ _).
  assert (Hflag : forall i j, i < 3 -> j < 3 -> flag i j = false <->
            1 <= r + i <= dim /\ 1 <= c + j <= dim).
  { intros i j Hi Hj. unfold flag. rewrite view_flag_spec by assumption.
    unfold dim.
    repeat match goal with
           | |- context [?a <=? ?b] => destruct (Nat.leb_spec a b)
           end; simpl; split; intros; first [reflexivity | lia | discriminate]. }
  destruct (view_rows_spec flag r c [0; 1; 2] s) as (p & Hv & Hp & Hnd).
  { intros i j Hi Hj Hf. apply in012 in Hi, Hj.
    apply Hflag in Hf; [|assumption|assumption].
    destruct (square_tile_at (world s) (r + i - 1) (c + j - 1)) as [t Ht];
      [exact Hsq|unfold dim in Hf; lia|unfold dim in Hf; lia|].
    split; [lia|]. split; [lia|]. congruence. }
  exists (List.map (fun i => List.map (view_cell (map (world s)) flag r c i) [0; 1; 2]) [0; 1; 2]), p.
  split; [exact Hv|]. split; [reflexivity|]. split.
  { simpl. intros row [<-|[<-|[<-|[]]]]; reflexivity. }
  split.
  { intros i j Hi Hj. rewrite nth_view3 by assumption. unfold view_cell.
    unfold flag. rewrite view_flag_spec by assumption. fold dim.
    destruct (_ && _); reflexivity. }
  split; [|exact Hnd].
  intros x y. rewrite Hp. split.
  - intros [H|(i & j & Hi & Hj & Hf & E)]; [left; exact H|right].
    apply in012 in Hi, Hj. apply Hflag in Hf; [|assumption|assumption].
    injection E as -> ->. lia.
  - intros [H|(Hx & Hy & H1 & H2 & H3 & H4)]; [left; exact H|right].
    exists (x + 1 - r), (y + 1 - c).
    split; [apply in012; lia|]. split; [apply in012; lia|].
    split; [apply Hflag; lia|]. f_equal; lia.
Qed.

Lemma in_list_set {A} (l : list A) i x z : In z (list_set l i x) -> In z l \/ z = x.
Proof.
  revert i; induction l as [|h t IH]; intros [|i]; simpl; auto.
  - intros [<-|H]; auto.
  - intros [<-|H]; auto. destruct (IH i H); auto.
Qed.

Lemma existsb_coord (x y : nat) pl :
  existsb (coord_eqb (x, y)) pl = true <-> In (x, y) pl.
Proof.
  rewrite existsb_exists. split.
  - intros [k [Hk E]]. apply coord_eqb_true in E. subst. exact Hk.
  - intros H. exists (x, y). split; [exact H|]. apply coord_eqb_true. reflexivity.
Qed.

Lemma fill_plot_spec (w : World) pl : forall out,
  square w -> grid_dims (dimension w) out ->
  (forall x y, In (x, y) pl -> x < dimension w /\ y < dimension w) ->
  exists out', fill_plot (map w) out pl = Some out' /\ grid_dims (dimension w) out' /\
    forall x y, nth y (nth x out' []) None =
      if existsb (coord_eqb (x, y)) pl then tile_at (map w) x y else nth y (nth x out []) None.
Proof.
  induction pl as [|[x0 y0] rest IH]; intros out Hsq [Hlen Hrows] Hpl; simpl.
  - exists out. split; [reflexivity|]. split; [split; assumption|]. reflexivity.
  - destruct (Hpl x0 y0 (or_introl eq_refl)) as [Hx0 Hy0].
    destruct (square_tile_at w x0 y0 Hsq Hx0 Hy0) as [t Ht]. rewrite Ht.
    destruct (nth_error out x0) as [row|] eqn:Erow.
    2:{ apply nth_error_None in Erow. lia. }
    assert (Hrow : length row = dimension w) by (apply Hrows; eapply nth_error_In; eauto).
    destruct (Nat.ltb_spec y0 (length row)) as [_|]; [|lia].
    set (out1 := list_set out x0 (list_set row y0 (Some t))).
    destruct (IH out1) as (out' & Hf & Hd & Hn).
    + exact Hsq.
    + split; [unfold out1; rewrite length_list_set; exact Hlen|].
      intros row' Hr'. apply in_list_set in Hr'. destruct Hr' as [Hr'| ->]; [apply Hrows, Hr'|].
      rewrite length_list_set. exact Hrow.
    + intros x y Hin. apply Hpl. right. exact Hin.
    + exists out'. split; [exact Hf|]. split; [exact Hd|]. intros x y. rewrite Hn.
      destruct (existsb (coord_eqb (x, y)) rest) eqn:Er; [rewrite orb_true_r; reflexivity|].
      rewrite orb_false_r. unfold out1. rewrite nth_list_set by lia.
      unfold coord_eqb; simpl.
      destruct (Nat.eqb_spec x x0) as [->|]; simpl; [|reflexivity].
      rewrite nth_list_set by lia. destruct (Nat.eqb_spec y y0) as [->|]; simpl.
      * symmetry. exact Ht.
      * apply nth_error_nth with (d := []) in Erow. rewrite Erow. reflexivity.
Qed.

Lemma fill_plot_out_of_range (w : World) pl : forall out,
  square w -> grid_dims (dimension w) out ->
  (exists x y, In (x, y) pl /\ ~ (x < dimension w /\ y < dimension w)) ->
  fill_plot (map w) out pl = None.
Proof.
  induction pl as [|[x0 y0] rest IH]; intros out Hsq [Hlen Hrows] (x & y & Hin & Hout);
    [destruct Hin|]; simpl.
  destruct (tile_at (map w) x0 y0) as [t|] eqn:Ht; [|reflexivity].
  destruct (tile_at_square w x0 y0 t Hsq Ht) as [Hx0 Hy0].
  destruct (nth_error out x0) as [row|] eqn:Erow; [|reflexivity].
  assert (Hrow : length row = dimension w) by (apply Hrows; eapply nth_error_In; eauto).
  destruct (Nat.ltb_spec y0 (length row)) as [_|]; [|reflexivity].
  destruct Hin as [E|Hin]; [injection E as -> ->; tauto|].
  apply IH; [exact Hsq| |exists x, y; auto].
  split; [rewrite length_list_set; exact Hlen|].
  intros row' Hr'. apply in_list_set in Hr'. destruct Hr' as [Hr'| ->]; [apply Hrows, Hr'|].
  rewrite length_list_set. exact Hrow.
Qed.

Lemma grid_dims_repeat {A} n (a : A) : grid_dims n (repeat (repeat a n) n).
Proof.
  split; [apply repeat_length|]. intros row H. apply repeat_spec in H. subst. apply repeat_length.
Qed.

Lemma robot_map_run (s : St) :
  square (world s) ->
  (forall x y, In (x, y) (plot s) -> x < dimension (world s) /\ y < dimension (world s)) ->
  exists out, robot_map false s = (Ok (Some out), s) /\ grid_dims (dimension (world s)) out /\
    forall x y, x < dimension (world s) -> y < dimension (world s) ->
      (In (x, y) (plot s) -> nth y (nth x out []) None = tile_at (map (world s)) x y) /\
      (~ In (x, y) (plot s) -> nth y (nth x out []) None = None).
Proof.
  intros Hsq Hpl.
  destruct (fill_plot_spec (world s) (plot s) (repeat (repeat None (dimension (world s))) (dimension (world s))))
    as (out & Hf & Hd & Hn); [exact Hsq|apply grid_dims_repeat|exact Hpl|].
  exists out. unfold robot_map. rewrite Hf. split; [reflexivity|]. split; [exact Hd|].
  intros x y Hx Hy. rewrite Hn. split.
  - intros H. apply existsb_coord in H. rewrite H. reflexivity.
  - intros H. destruct (existsb (coord_eqb (x, y)) (plot s)) eqn:E.
    + apply existsb_coord in E. contradiction.
    + rewrite nth_indep with (d' := repeat None (dimension (world s))) by (rewrite repeat_length; exact Hx).
      rewrite nth_repeat. apply nth_repeat.
Qed.

Lemma frame_refl t s : frame t s s.
Proof. constructor; auto. Qed.

Lemma frame_trans t s1 s2 s3 : frame t s1 s2 -> frame t s2 s3 -> frame t s1 s3.
Proof.
  intros [] []. constructor; try congruence; [lia|].
  intros x y H. rewrite fr_tiles1 by exact H. apply fr_tiles0, H.
Qed.

Lemma keeps_bind {A B} t (m : SM St A) (k : A -> SM St B) :
  keeps t m -> (forall a, keeps t (k a)) -> keeps t (bind m k).
Proof.
  intros Hm Hk s r s' H. apply bind_inv in H.
  destruct H as [(a & s1 & H1 & H2)|[(e & H1 & _)|(H1 & _)]].
  - eapply frame_trans; [eapply Hm; exact H1|eapply Hk; exact H2].
  - eapply Hm; exact H1.
  - eapply Hm; exact H1.
Qed.

Lemma keeps_ret {A} t (a : A) : keeps t (ret a).
Proof. intros s r s' H. injection H as _ <-. apply frame_refl. Qed.

Lemma keeps_fail {A} t e : keeps t (@fail St A e).
Proof. intros s r s' H. injection H as _ <-. apply frame_refl. Qed.

Lemma keeps_panic {A} t : keeps t (@panic St A).
Proof. intros s r s' H. injection H as _ <-. apply frame_refl. Qed.

Lemma keeps_get t : keeps t get.
Proof. intros s r s' H. injection H as _ <-. apply frame_refl. Qed.

Lemma keeps_read_tile t r c : keeps t (read_tile r c).
Proof.
  intros s res s' H. unfold read_tile in H.
  destruct (tile_at _ r c); injection H as _ <-; apply frame_refl.
Qed.

Lemma keeps_write_tile r c tile : keeps (r, c) (write_tile r c tile).
Proof.
  intros s res s' H. injection H as _ <-. constructor; try reflexivity.
  intros x y Hne. apply tile_at_write_other. exact Hne.
Qed.

Lemma keeps_on_backpack {A} t (m : SM BackPack A) : keeps t (on_backpack m).
Proof.
  intros s res s' H. unfold on_backpack in H. destruct (m _) as [x b].
  injection H as _ <-. constructor; reflexivity.
Qed.

Lemma keeps_consume t n : keeps t (on_energy (consume_energy n)).
Proof.
  intros s res s' H. unfold on_energy, consume_energy in H.
  destruct (negb _); injection H as _ <-; constructor; simpl; try reflexivity; lia.
Qed.

Create HintDb keeps.

#[local] Hint Resolve keeps_ret keeps_fail keeps_panic keeps_get keeps_read_tile
  keeps_write_tile keeps_on_backpack keeps_consume : keeps.

Ltac keeps_tac :=
  repeat (match goal with
          | |- keeps _ (bind _ _) => apply keeps_bind; [|intros ?]
          | |- keeps _ (match ?x with _ => _ end) => destruct x
          | |- keeps _ (let '(_, _) := ?x in _) => destruct x
          | |- keeps _ _ => progress cbv beta zeta
          end); auto with keeps.

Lemma in_bounds_ro d s : exists x, in_bounds d s = (x, s).
Proof.
  unfold in_bounds. destruct (coordinate (robot s)) as [r c].
  destruct d; repeat (match goal with |- context [if ?b then _ else _] => destruct b end); eauto.
Qed.

Lemma get_coords_row_col_ok d s rc s1 r c :
  coordinate (robot s) = (r, c) -> get_coords_row_col d s = (Ok rc, s1) ->
  s1 = s /\ rc = step_coords (r, c) d.
Proof.
  intros Hrc. unfold get_coords_row_col. rewrite Hrc.
  destruct d; simpl; try (destruct (r =? 0)); try (destruct (c =? 0));
    intros H; inversion H; subst; split; try reflexivity; simpl; f_equal; lia.
Qed.

Lemma get_coords_row_col_ro d s : forall x s1, get_coords_row_col d s = (x, s1) -> s1 = s.
Proof.
  unfold get_coords_row_col. destruct (coordinate (robot s)) as [r c].
  destruct d; simpl; try (destruct (r =? 0)); try (destruct (c =? 0));
    intros x s1 H; inversion H; reflexivity.
Qed.


Lemma square_b_ok w : square_b w = true -> square w.
Proof.
  unfold square_b, square. rewrite andb_true_iff, Nat.eqb_eq, forallb_forall.
  intros [Hl Hr]. split; [exact Hl|]. intros row Hin. apply Nat.eqb_eq, Hr, Hin.
Qed.

Lemma edges_in_range_ok graph : edges_in_range graph = true ->
  forall u nb, In nb (nth u graph []) -> Node.index nb < length graph.
Proof.
  unfold edges_in_range. rewrite forallb_forall. intros H u nb Hin.
  destruct (Nat.ltb_spec u (length graph)) as [Hu|Hu].
  - specialize (H _ (nth_In graph [] Hu)). rewrite forallb_forall in H.
    apply Nat.ltb_lt, H, Hin.
  - rewrite nth_overflow in Hin by exact Hu. destruct Hin.
Qed.

Lemma nat_lookup_In {V} (m : list (nat * V)) k v : nat_lookup m k = Some v -> In (k, v) m.
Proof.
  induction m as [|[k' v'] m IH]; simpl; [discriminate|].
  destruct (Nat.eqb_spec k k') as [<-|_].
  - intros H; injection H as <-. left. reflexivity.
  - intros H. right. apply IH, H.
Qed.

Lemma coords_small_b_ok coordinates : coords_small_b coordinates = true -> coords_small coordinates.
Proof.
  unfold coords_small_b, coords_small. rewrite forallb_forall. intros H k [x y] Hk.
  apply nat_lookup_In in Hk. specialize (H _ Hk). simpl in H.
  rewrite andb_true_iff, !N.ltb_lt in H. exact H.
Qed.


(** * Claims *)

Module Claims.

(** C4: along any sequence of [consume_energy] and [recharge_energy] calls
    on an [Energy] built by [Energy::new], the level stays within
    [0..=MAX_ENERGY_LEVEL]; [consume_energy n] with a level below [n]
    returns [NotEnoughEnergy] and leaves the level as it was; and
    [recharge_energy n] sets the level to [min(MAX_ENERGY_LEVEL, level + n)]
    (for any [n] whose addition does not overflow [usize]; the crate
    recharges by 10). *)
Theorem energy_level_bounded :
  (forall l ops e', run_energy ops (energy_new l) = Some e' ->
                    energy_level e' <= MAX_ENERGY_LEVEL) /\
  (forall e n, energy_level e < n -> consume_energy n e = (Err NotEnoughEnergy, e)) /\
  (forall e n, energy_level e <= MAX_ENERGY_LEVEL ->
     (N.of_nat n <= usize_max - N.of_nat MAX_ENERGY_LEVEL)%N ->
     recharge_energy n e =
       (Ok tt, mkEnergy (Nat.min MAX_ENERGY_LEVEL (energy_level e + n)))).
Proof.
  split; [|split].
  - intros l ops e' H. eapply run_energy_bounded; [|exact H].
    simpl. apply Nat.le_min_r.
  - intros e n Hlt. unfold consume_energy, has_enough_energy.
    assert ((n <=? energy_level e) = false) as -> by (apply Nat.leb_gt; exact Hlt).
    reflexivity.
  - intros e n He Hn. unfold recharge_energy, fits_usize.
    assert ((N.of_nat (energy_level e + n) <=? usize_max)%N = true) as ->.
    { apply N.leb_le. rewrite Nat2N.inj_add.
      unfold MAX_ENERGY_LEVEL in *. unfold usize_max in *. lia. }
    reflexivity.
Qed.

(** C5: from a fresh backpack, any sequence of [add_to_backpack] calls
    keeps the total stored at most the capacity; and adding [n] units when
    the free space [r = size - total] is below [n] stores exactly [r] units
    of that content (nothing else changes, the backpack is then full) and
    returns [NotEnoughSpace(r)]. *)
Theorem add_to_backpack_capacity :
  (forall n adds, backpack_sum (run_adds adds (backpack_new n)) <= n) /\
  (forall b c n,
     backpack_sum b <= size b -> size b - backpack_sum b < n ->
     exists b',
       add_to_backpack c n b = (Err (NotEnoughSpace (size b - backpack_sum b)), b') /\
       size b' = size b /\
       backpack_sum b' = size b /\
       stored b' c = stored b c + (size b - backpack_sum b) /\
       (forall c', to_default c' <> to_default c -> stored b' c' = stored b c')).
Proof.
  split.
  - intros n adds.
    pose proof (run_adds_bounded adds (backpack_new n)) as H.
    rewrite run_adds_size in H. apply H. rewrite backpack_new_sum. simpl. lia.
  - intros b c n Hb Hlt. unfold add_to_backpack.
    assert ((size b <? backpack_sum b) = false) as -> by (apply Nat.ltb_ge; exact Hb).
    assert ((n <=? size b - backpack_sum b) = false) as -> by (apply Nat.leb_gt; exact Hlt).
    assert (Nat.min n (size b - backpack_sum b) = size b - backpack_sum b) as ->
      by (apply Nat.min_r; lia).
    eexists; split; [reflexivity|].
    split; [reflexivity|]. split.
    + unfold backpack_sum at 1; simpl. rewrite hm_sum_entry_add. fold (backpack_sum b). lia.
    + split.
      * unfold stored; simpl. rewrite hm_get_entry_add_same.
        destruct (hm_get (contents b) (to_default c)); reflexivity.
      * intros c' Hne. unfold stored; simpl.
        rewrite hm_get_entry_add_other by exact Hne. reflexivity.
Qed.

(** C6: when the tile [put] targets holds [Bank(0..11)] and the robot holds
    20 coins, [put(Coin, 5, d)] returns [Ok(5)], the bank becomes
    [Bank(5..11)] (the tile is otherwise unchanged), 15 coins are left and
    the energy is unchanged (a coin costs nothing to deposit). *)
Theorem put_coins_into_bank (s : St) (d : Direction) (r c : nat) (tt0 : TileType.t)
  (e : N) (v rock_draw : nat) :
  in_bounds d s = (Ok tt, s) ->
  get_coords_row_col d s = (Ok (r, c), s) ->
  tile_at (map (world s)) r c = Some (mkTile tt0 (Content.Bank (mkRange 0 11)) e) ->
  stored (backpack (robot s)) (Content.Coin 0) = 20 ->
  exists s',
    put (Content.Coin v) 5 d rock_draw s = (Ok 5, s') /\
    tile_at (map (world s')) r c = Some (mkTile tt0 (Content.Bank (mkRange 5 11)) e) /\
    stored (backpack (robot s')) (Content.Coin 0) = 15 /\
    energy (robot s') = energy (robot s).
Proof.
  intros Hin Hrc Ht Hst.
  assert (Hcoin : hm_get (contents (backpack (robot s))) (Content.Coin 0) = Some 20).
  { unfold stored in Hst; simpl in Hst.
    destruct (hm_get (contents (backpack (robot s))) (Content.Coin 0)); [congruence | discriminate]. }
  unfold put. rewrite (bind_ok _ _ _ _ _ Hin), (bind_ok _ _ _ _ _ Hrc). cbn iota beta.
  assert (Hrt : read_tile r c s = (Ok (mkTile tt0 (Content.Bank (mkRange 0 11)) e), s))
    by (unfold read_tile; rewrite Ht; reflexivity).
  rewrite (bind_ok _ _ _ _ _ Hrt). simpl.
  unfold put_receptacle. simpl.
  destruct tt0;
    cbv [bind get ret can_store on_backpack remove_from_backpack write_tile on_energy
         consume_energy fail panic];
    cbn [to_default]; repeat (rewrite Hcoin; simpl);
    (eexists; split; [reflexivity|]); simpl;
    (split; [eapply tile_at_write_same; exact Ht|]);
    (split; [unfold stored; simpl; erewrite hm_get_set_same by exact Hcoin; reflexivity
            | destruct (energy (robot s)); simpl; f_equal; lia]).
Qed.

Lemma put_coins_into_bank_witness :
  in_bounds Down bank_state = (Ok tt, bank_state) /\
  get_coords_row_col Down bank_state = (Ok (1, 1), bank_state) /\
  tile_at (map (world bank_state)) 1 1 =
    Some (mkTile TileType.Grass (Content.Bank (mkRange 0 11)) 0) /\
  stored (backpack (robot bank_state)) (Content.Coin 0) = 20 /\
  exists s',
    put (Content.Coin 0) 5 Down 1 bank_state = (Ok 5, s') /\
    tile_at (map (world s')) 1 1 = Some (mkTile TileType.Grass (Content.Bank (mkRange 5 11)) 0) /\
    stored (backpack (robot s')) (Content.Coin 0) = 15 /\
    energy (robot s') = energy (robot bank_state).
Proof.
  refine (conj eq_refl (conj eq_refl (conj eq_refl (conj eq_refl _)))).
  apply (put_coins_into_bank bank_state Down 1 1 TileType.Grass 0%N 0 1);
    vm_compute; reflexivity.
Defined.

(** C1 (counterexample): the backpack has 2 free slots and the rock yields
    3; [destroy] does not succeed but fails with [NotEnoughSpace(2)], after
    storing 2 rocks; the rock stays on the tile and no energy is spent. *)
Lemma destroy_partial_space_fails :
  let '(r, s') := destroy Right 0 rock_state in
  r = Err (NotEnoughSpace 2) /\
  stored (backpack (robot rock_state)) (Content.Rock 0) = 0 /\
  stored (backpack (robot s')) (Content.Rock 0) = 2 /\
  tile_at (map (world s')) 0 1 = Some (mkTile TileType.Grass (Content.Rock 3) 0) /\
  energy (robot s') = energy (robot rock_state).
Proof. vm_compute. repeat split. Qed.

(** C1 (amended): let [destroy] reach its storage step (the target is in
    bounds and destroyable, yielding [q] units of [c] for [cost] energy,
    which the robot has) with [free] slots left.  If [q <= free] it returns
    [Ok(q)], stores [q] units, spends [cost] and clears the tile.  If
    [free < q] it fails with [NotEnoughSpace(free)] after storing [free]
    units, which fills the backpack; the energy and the world are left
    as they were (so the tile keeps its content).  With [free = 0] nothing
    is stored. *)
Theorem destroy_storage (d : Direction) (w : nat) (s : St) (tr tc : nat) (t : Tile)
  (c : Content.t) (q cost : nat) :
  in_bounds d s = (Ok tt, s) ->
  get_coords_row_col d s = (Ok (tr, tc), s) ->
  fst (destroy_target tr tc w s) = Ok (c, q, cost) ->
  tile_at (map (world s)) tr tc = Some t ->
  cost <= energy_level (energy (robot s)) ->
  backpack_sum (backpack (robot s)) <= size (backpack (robot s)) ->
  let b := backpack (robot s) in
  let free := size b - backpack_sum b in
  (q <= free ->
   exists s', destroy d w s = (Ok q, s') /\
     stored (backpack (robot s')) c = stored b c + q /\
     energy_level (energy (robot s')) = energy_level (energy (robot s)) - cost /\
     tile_at (map (world s')) tr tc = Some (with_content t Content.None)) /\
  (free < q ->
   exists b', destroy d w s = (Err (NotEnoughSpace free), set_backpack s b') /\
     stored b' c = stored b c + free /\
     backpack_sum b' = size b /\
     (forall c', to_default c' <> to_default c -> stored b' c' = stored b c')).
Proof.
  intros Hin Hrc Htgt Ht Hen Hsum b free. subst b free.
  assert (Htgt' : destroy_target tr tc w s = (Ok (c, q, cost), s)).
  { destruct (destroy_target tr tc w s) as [x s'] eqn:E.
    rewrite (destroy_target_state _ _ _ _ _ _ E). simpl in Htgt. subst x. reflexivity. }
  split; intros Hq;
    unfold destroy; rewrite (bind_ok _ _ _ _ _ Hin), (bind_ok _ _ _ _ _ Hrc); cbn iota beta;
    rewrite (bind_ok _ _ _ _ _ Htgt'); cbn iota beta;
    unfold bind at 1, get; cbn beta iota;
    unfold has_enough_energy; rewrite (proj2 (Nat.leb_le _ _) Hen);
    unfold bind at 1, on_backpack at 1, add_to_backpack;
    rewrite (proj2 (Nat.ltb_ge _ _) Hsum), to_default_idem.
  - rewrite (proj2 (Nat.leb_le _ _) Hq). rewrite (Nat.min_l _ _ Hq).
    cbv [bind on_energy consume_energy has_enough_energy]. simpl.
    rewrite (proj2 (Nat.leb_le _ _) Hen). simpl.
    unfold read_tile at 1. simpl. rewrite Ht. cbv [write_tile ret]. simpl.
    eexists; split; [reflexivity|]. simpl.
    split; [|split; [reflexivity|]].
    + unfold stored; simpl. rewrite hm_get_entry_add_same.
      destruct (hm_get (contents (backpack (robot s))) (to_default c)); reflexivity.
    + eapply tile_at_write_same. exact Ht.
  - rewrite (proj2 (Nat.leb_gt _ _) Hq). rewrite (Nat.min_r _ _ (Nat.lt_le_incl _ _ Hq)).
    eexists; split; [reflexivity|]. simpl.
    split; [|split].
    + unfold stored; simpl. rewrite hm_get_entry_add_same.
      destruct (hm_get (contents (backpack (robot s))) (to_default c)); reflexivity.
    + unfold backpack_sum at 1; simpl. rewrite hm_sum_entry_add.
      fold (backpack_sum (backpack (robot s))). lia.
    + intros c' Hne. unfold stored; simpl. rewrite hm_get_entry_add_other by exact Hne.
      reflexivity.
Qed.

Lemma destroy_storage_witness :
  in_bounds Right rock_state = (Ok tt, rock_state) /\
  get_coords_row_col Right rock_state = (Ok (0, 1), rock_state) /\
  fst (destroy_target 0 1 0 rock_state) = Ok (Content.Rock 3, 3, 1) /\
  tile_at (map (world rock_state)) 0 1 = Some (mkTile TileType.Grass (Content.Rock 3) 0) /\
  1 <= energy_level (energy (robot rock_state)) /\
  backpack_sum (backpack (robot rock_state)) <= size (backpack (robot rock_state)) /\
  (let b := backpack (robot rock_state) in
   let free := size b - backpack_sum b in
   (3 <= free ->
    exists s', destroy Right 0 rock_state = (Ok 3, s') /\
      stored (backpack (robot s')) (Content.Rock 3) = stored b (Content.Rock 3) + 3 /\
      energy_level (energy (robot s')) = energy_level (energy (robot rock_state)) - 1 /\
      tile_at (map (world s')) 0 1 =
        Some (with_content (mkTile TileType.Grass (Content.Rock 3) 0) Content.None)) /\
   (free < 3 ->
    exists b', destroy Right 0 rock_state = (Err (NotEnoughSpace free), set_backpack rock_state b') /\
      stored b' (Content.Rock 3) = stored b (Content.Rock 3) + free /\
      backpack_sum b' = size b /\
      (forall c', to_default c' <> to_default (Content.Rock 3) ->
                  stored b' c' = stored b c'))).
Proof.
  refine (conj eq_refl (conj eq_refl (conj eq_refl (conj eq_refl _)))).
  split; [vm_compute; lia|]. split; [vm_compute; lia|].
  apply (destroy_storage Right 0 rock_state 0 1 (mkTile TileType.Grass (Content.Rock 3) 0)
           (Content.Rock 3) 3 1); vm_compute; first [reflexivity | lia].
Defined.

(** C3 (as the code behaves): when [go] fails with [NotEnoughEnergy] and
    its target is an unactivated teleport, the robot is unchanged but the
    target tile has been activated all the same: the flag is flipped before
    the energy is consumed. *)
Theorem go_activates_teleport_on_failure f d s s' r c t :
  get_coords_row_col d s = (Ok (r, c), s) ->
  tile_at (map (world s)) r c = Some t ->
  tile_type t = TileType.Teleport false ->
  go f d s = (Err NotEnoughEnergy, s') ->
  tile_at (map (world s')) r c = Some (with_tile_type t (TileType.Teleport true)) /\
  robot s' = robot s.
Proof.
  intros Hrc Ht Htt H.
  assert (Hrt : read_tile r c s = (Ok t, s)) by (unfold read_tile; rewrite Ht; reflexivity).
  unfold go in H.
  apply bind_inv in H as [(a & s1 & Ha & H) | [(e & Ha & He) | (Ha & He)]]; [| |discriminate].
  2:{ destruct (go_allowed_cases d s) as [x [Hx Hne]]. rewrite Hx in Ha.
      inversion Ha; subst. congruence. }
  assert (s1 = s).
  { destruct (go_allowed_cases d s) as [x [Hx _]]. rewrite Hx in Ha. inversion Ha; reflexivity. }
  subst s1.
  rewrite (bind_ok _ _ _ _ _ Hrc) in H. cbn iota beta in H.
  rewrite (bind_ok _ _ _ _ _ Hrt) in H. unfold bind at 1, get in H. cbn beta iota in H.
  destruct (tile_at (map (world s)) (fst (coordinate (robot s))) (snd (coordinate (robot s))))
    as [cur|] eqn:Hc.
  2:{ unfold bind at 1, read_tile in H. rewrite Hc in H. discriminate. }
  assert (Hcur : read_tile (fst (coordinate (robot s))) (snd (coordinate (robot s))) s = (Ok cur, s))
    by (unfold read_tile; rewrite Hc; reflexivity).
  rewrite (bind_ok _ _ _ _ _ Hcur) in H.
  destruct (negb _); [discriminate|].
  rewrite Htt in H.
  assert (tiletype_eqb (TileType.Teleport false) (TileType.Teleport false) = true) as E
    by (apply tiletype_eqb_true; reflexivity).
  rewrite E in H. unfold write_tile at 1 in H. cbn beta iota in H.
  destruct (negb (fits_usize _)); [discriminate|].
  cbv [bind on_energy consume_energy ret has_enough_energy] in H. cbn in H.
  match type of H with
  | context [if negb (?a <=? ?b) then _ else _] => destruct (a <=? b)
  end; cbn in H; [discriminate|].
  inversion H; subst; clear H. simpl. split.
  - eapply tile_at_write_same. exact Ht.
  - destruct s as [[en co b] w p]; reflexivity.
Qed.

Lemma go_activates_teleport_on_failure_witness :
  get_coords_row_col Right teleport_state = (Ok (0, 1), teleport_state) /\
  tile_at (map (world teleport_state)) 0 1 =
    Some (mkTile (TileType.Teleport false) Content.None 1) /\
  tile_type (mkTile (TileType.Teleport false) Content.None 1) = TileType.Teleport false /\
  go env_cost_unchanged Right teleport_state =
    (Err NotEnoughEnergy, snd (go env_cost_unchanged Right teleport_state)) /\
  tile_at (map (world (snd (go env_cost_unchanged Right teleport_state)))) 0 1 =
    Some (with_tile_type (mkTile (TileType.Teleport false) Content.None 1) (TileType.Teleport true)) /\
  robot (snd (go env_cost_unchanged Right teleport_state)) = robot teleport_state.
Proof.
  refine (conj eq_refl (conj eq_refl (conj eq_refl (conj _ _)))); [vm_compute; reflexivity|].
  apply (go_activates_teleport_on_failure env_cost_unchanged Right teleport_state
           (snd (go env_cost_unchanged Right teleport_state)) 0 1
           (mkTile (TileType.Teleport false) Content.None 1));
    vm_compute; reflexivity.
Defined.

(** C10 (counterexample): selling garbage the robot does not hold to a
    market with 3 operations left fails with [NoContent], not
    [WrongContentUsed], and the market is decremented all the same. *)
Lemma market_sale_without_content :
  let '(r, s') := put (Content.Garbage 0) 1 Right 1 market_state in
  r = Err NoContent /\
  tile_at (map (world s')) 0 1 = Some (mkTile TileType.Grass (Content.Market 2) 0).
Proof. vm_compute. split; reflexivity. Qed.

(** C10 (amended): [put] toward a tile holding [Market(n)] never changes
    the energy.  If [n >= 1] and the content offered is not [None] and has
    market rate zero (anything but rock, tree and fish), the market is
    decremented to [Market(n - 1)] and [min(held, quantity)] units are
    removed; the call then fails with [WrongContentUsed] if the robot held
    some of that content, and with [NoContent] if it held none. *)
Theorem put_market (s : St) d r c tt0 e n content_in quantity rock_draw :
  in_bounds d s = (Ok tt, s) ->
  get_coords_row_col d s = (Ok (r, c), s) ->
  tile_at (map (world s)) r c = Some (mkTile tt0 (Content.Market n) e) ->
  energy (robot (snd (put content_in quantity d rock_draw s))) = energy (robot s) /\
  (1 <= n -> market_rate content_in = 0 -> content_in <> Content.None ->
   let held := stored (backpack (robot s)) content_in in
   let '(res, s') := put content_in quantity d rock_draw s in
   res = (if held =? 0 then Err NoContent else Err WrongContentUsed) /\
   tile_at (map (world s')) r c = Some (mkTile tt0 (Content.Market (n - 1)) e) /\
   stored (backpack (robot s')) content_in = held - Nat.min held quantity).
Proof.
  intros Hin Hrc Ht. rewrite (put_market_unfold s d r c tt0 e n content_in quantity rock_draw Hin Hrc Ht).
  split.
  - destruct (_ && _); [reflexivity|].
    unfold put_market_sale. destruct (n <? 1); [reflexivity|].
    cbv [bind write_tile on_backpack fail]. rewrite remove_from_backpack_spec. simpl.
    destruct (hm_get _ _) as [v|]; [destruct (v =? 0)|]; simpl; try reflexivity.
    destruct (market_rate content_in =? 0); [reflexivity|].
    destruct (add_to_backpack _ _ _); reflexivity.
  - intros Hn Hrate Hnn held.
    assert (content_eqb content_in Content.None = false) as -> by (apply content_eqb_false; exact Hnn).
    simpl. unfold put_market_sale.
    assert ((n <? 1) = false) as -> by (apply Nat.ltb_ge; exact Hn).
    cbv [bind write_tile on_backpack fail]. rewrite remove_from_backpack_spec. simpl.
    rewrite Hrate. subst held. unfold stored. simpl.
    destruct (hm_get (contents (backpack (robot s))) (to_default content_in)) as [v|] eqn:Hv; simpl.
    + destruct (v =? 0) eqn:Ev; simpl.
      * split; [reflexivity|]. split; [eapply tile_at_write_same; exact Ht|].
        rewrite Hv. apply Nat.eqb_eq in Ev. subst. reflexivity.
      * split; [reflexivity|]. split; [eapply tile_at_write_same; exact Ht|].
        erewrite hm_get_set_same by exact Hv. reflexivity.
    + split; [reflexivity|]. split; [eapply tile_at_write_same; exact Ht|].
      rewrite Hv. reflexivity.
Qed.

Lemma put_market_witness :
  in_bounds Right market_state = (Ok tt, market_state) /\
  get_coords_row_col Right market_state = (Ok (0, 1), market_state) /\
  tile_at (map (world market_state)) 0 1 = Some (mkTile TileType.Grass (Content.Market 3) 0) /\
  energy (robot (snd (put (Content.Garbage 0) 1 Right 1 market_state))) =
    energy (robot market_state) /\
  (1 <= 3 -> market_rate (Content.Garbage 0) = 0 -> Content.Garbage 0 <> Content.None ->
   let held := stored (backpack (robot market_state)) (Content.Garbage 0) in
   let '(res, s') := put (Content.Garbage 0) 1 Right 1 market_state in
   res = (if held =? 0 then Err NoContent else Err WrongContentUsed) /\
   tile_at (map (world s')) 0 1 = Some (mkTile TileType.Grass (Content.Market (3 - 1)) 0) /\
   stored (backpack (robot s')) (Content.Garbage 0) = held - Nat.min held 1).
Proof.
  refine (conj eq_refl (conj eq_refl (conj eq_refl _))).
  apply (put_market market_state Right 0 1 TileType.Grass 0%N 3 (Content.Garbage 0) 1 1);
    vm_compute; reflexivity.
Defined.

(** C2 (as the code behaves): [craft(Garbage)] with 1 or 2 rocks, room for
    one more unit and at least 4 energy succeeds whatever else the backpack
    holds: the partial removal of the rocks is re-added, and then the 4
    energy are charged and a garbage is added anyway, as if the recipe had
    been satisfied. *)
Theorem craft_garbage_without_recipe (s : St) (v g : nat) :
  hm_get (contents (backpack (robot s))) (Content.Rock 0) = Some v -> 0 < v < 3 ->
  4 <= energy_level (energy (robot s)) ->
  backpack_sum (backpack (robot s)) < size (backpack (robot s)) ->
  let '(r, s') := craft (Content.Garbage g) s in
  r = Ok (Content.Garbage g) /\
  stored (backpack (robot s')) (Content.Rock 0) = v /\
  stored (backpack (robot s')) (Content.Garbage 0) =
    stored (backpack (robot s)) (Content.Garbage 0) + 1 /\
  energy_level (energy (robot s')) = energy_level (energy (robot s)) - 4.
Proof.
  intros Hv Hv3 He Hs.
  destruct s as [[en co [sz l]] w p]. simpl in *.
  unfold craft. simpl. unfold on_backpack at 1. rewrite remove_from_backpack_spec. simpl.
  rewrite Hv. 
  assert ((v =? 0) = false) as -> by (apply Nat.eqb_neq; lia). simpl.
  rewrite (Nat.min_l v 3) by lia. rewrite Nat.sub_diag.
  assert ((v =? 3) = false) as -> by (apply Nat.eqb_neq; lia).
  pose proof (hm_sum_set l (Content.Rock 0) 0 v Hv) as Hs1.
  assert (Hrock : hm_get (hm_set l (Content.Rock 0) 0) (Content.Rock 0) = Some 0)
    by (eapply hm_get_set_same; exact Hv).
  unfold backpack_sum in Hs. simpl in Hs.
  assert (Hen4 : has_enough_energy en 4 = true) by (apply Nat.leb_le; lia).
  cbv [bind ret on_backpack on_energy consume_energy add_to_backpack backpack_sum].
  cbn -[Nat.leb Nat.ltb has_enough_energy Nat.sub hm_sum hm_set hm_entry_add hm_get Nat.min].
  assert ((sz <? hm_sum (hm_set l (Content.Rock 0) 0)) = false) as -> by (apply Nat.ltb_ge; lia).
  assert ((v <=? sz - hm_sum (hm_set l (Content.Rock 0) 0)) = true) as -> by (apply Nat.leb_le; lia).
  rewrite (Nat.min_l v) by lia. cbn -[Nat.leb Nat.ltb has_enough_energy Nat.sub hm_sum hm_set hm_entry_add hm_get Nat.min].
  rewrite Hen4. cbn -[Nat.leb Nat.ltb has_enough_energy Nat.sub hm_sum hm_set hm_entry_add hm_get Nat.min].
  rewrite hm_sum_entry_add.
  assert ((sz <? hm_sum (hm_set l (Content.Rock 0) 0) + v) = false) as -> by (apply Nat.ltb_ge; lia).
  assert ((1 <=? sz - (hm_sum (hm_set l (Content.Rock 0) 0) + v)) = true) as -> by (apply Nat.leb_le; lia).
  rewrite (Nat.min_l 1) by lia.
  simpl. split; [reflexivity|]. unfold stored; simpl.
  split; [|split; [|reflexivity]].
  - rewrite hm_get_entry_add_other by discriminate. rewrite hm_get_entry_add_same, Hrock. reflexivity.
  - rewrite hm_get_entry_add_same, hm_get_entry_add_other by discriminate.
    rewrite hm_get_set_other by discriminate.
    destruct (hm_get l (Content.Garbage 0)); reflexivity.
Qed.

Lemma craft_garbage_without_recipe_witness :
  hm_get (contents (backpack (robot one_rock_state))) (Content.Rock 0) = Some 1 /\ 0 < 1 < 3 /\
  4 <= energy_level (energy (robot one_rock_state)) /\
  backpack_sum (backpack (robot one_rock_state)) < size (backpack (robot one_rock_state)) /\
  let '(r, s') := craft (Content.Garbage 0) one_rock_state in
  r = Ok (Content.Garbage 0) /\
  stored (backpack (robot s')) (Content.Rock 0) = 1 /\
  stored (backpack (robot s')) (Content.Garbage 0) =
    stored (backpack (robot one_rock_state)) (Content.Garbage 0) + 1 /\
  energy_level (energy (robot s')) = energy_level (energy (robot one_rock_state)) - 4.
Proof.
  refine (conj eq_refl _). split; [lia|]. split; [vm_compute; lia|]. split; [vm_compute; lia|].
  apply craft_garbage_without_recipe; [reflexivity | lia | vm_compute; lia | vm_compute; lia].
Defined.

(** C7: [discover_tiles] with [k] coordinates fails with [NoMoreDiscovery],
    the state untouched, when [k] exceeds the remaining budget; when it
    succeeds the budget has decreased by exactly [k] (out-of-map
    coordinates included), the energy by exactly [3 * k], and the result
    maps each requested coordinate to its tile if it is on the map and to
    [None] otherwise. *)
Theorem discover_tiles_budget (s : St) (to_discover : list (nat * nat)) :
  (discoverable (world s) < length to_discover ->
   discover_tiles to_discover s = (Err NoMoreDiscovery, s)) /\
  (forall res s', discover_tiles to_discover s = (Ok res, s') ->
   discoverable (world s') = discoverable (world s) - length to_discover /\
   energy_level (energy (robot s')) = energy_level (energy (robot s)) - 3 * length to_discover /\
   forall x y, In (x, y) to_discover ->
     coord_lookup res (x, y) = Some (tile_at (map (world s)) x y)).
Proof.
  split.
  - intros Hlt. unfold discover_tiles, bind at 1, get. cbn beta iota.
    assert ((length to_discover <=? discoverable (world s)) = false) as -> by (apply Nat.leb_gt; exact Hlt).
    reflexivity.
  - intros res s' H. unfold discover_tiles, bind at 1, get in H. cbn beta iota in H.
    destruct (length to_discover <=? discoverable (world s)); [|discriminate].
    destruct (has_enough_energy (energy (robot s)) (length to_discover * 3)) eqn:He; [|discriminate].
    cbv [bind on_energy consume_energy] in H. cbn in H.
    rewrite He in H. cbn in H.
    apply discover_loop_spec in H as (Hw & Hr & Hk).
    rewrite Hw, Hr. cbn. split; [reflexivity|]. split; [lia|].
    intros x y Hin. rewrite Hk.
    assert (existsb (coord_eqb (x, y)) to_discover = true) as ->.
    { apply existsb_exists. exists (x, y). split; [exact Hin | apply coord_eqb_true; reflexivity]. }
    reflexivity.
Qed.

(** C8: let [t = min(distance, cells to the edge)] be the clipped distance
    of [one_direction_view] (the robot on a square map).  For [t <= 1] the
    view succeeds and spends no energy; for [t >= 2] it fails with
    [NotEnoughEnergy] and no state change when the robot has less than
    [3 * t], and otherwise spends exactly [3 * t].  The tiles returned are
    those of the strip's coordinates, and the strip is exactly the band of
    on-map cells 1 to [t] steps away, the robot's own tile excluded: it
    narrows at the edges, with no placeholder. *)
Theorem one_direction_view_spec (s : St) (d : Direction) (distance r c : nat) :
  coordinate (robot s) = (r, c) ->
  r < dimension (world s) -> c < dimension (world s) ->
  length (map (world s)) = dimension (world s) ->
  Forall (fun row => length row = dimension (world s)) (map (world s)) ->
  let dim := dimension (world s) in
  let t := tile_to_see d r c dim distance in
  let e := energy_level (energy (robot s)) in
  (t <= 1 -> exists out s', one_direction_view d distance s = (Ok out, s') /\
                            energy (robot s') = energy (robot s) /\ world s' = world s) /\
  (2 <= t -> e < 3 * t -> one_direction_view d distance s = (Err NotEnoughEnergy, s)) /\
  (2 <= t -> 3 * t <= e -> exists out s', one_direction_view d distance s = (Ok out, s') /\
                            energy_level (energy (robot s')) = e - 3 * t /\ world s' = world s) /\
  (forall out s', one_direction_view d distance s = (Ok out, s') -> 1 <= t ->
     List.map (List.map (fun k => tile_at (map (world s)) (fst k) (snd k))) (strip_coords d r c dim t) =
     List.map (List.map Some) out) /\
  (forall x y, In (x, y) (concat (strip_coords d r c dim t)) <-> view_band d r c dim t x y) /\
  (forall x y, In (x, y) (concat (strip_coords d r c dim t)) ->
     x < dim /\ y < dim /\ (x, y) <> (r, c)).
Proof.
  intros Hco Hr Hc Hlen Hrows dim t e.
  assert (Hread : forall k, In k (concat (strip_coords d r c dim t)) ->
                  tile_at (map (world s)) (fst k) (snd k) <> None).
  { intros [x y] Hk. simpl. apply strip_in_bounds in Hk as (Hx & Hy & _); [|exact Hr|exact Hc].
    rewrite tile_at_bounds.
    assert (Hrow : length (nth x (map (world s)) []) = dim).
    { rewrite Forall_forall in Hrows. apply Hrows. apply nth_In. unfold dim in Hx. lia. }
    assert ((x <? length (map (world s))) = true) as -> by (apply Nat.ltb_lt; unfold dim in Hx; lia).
    assert ((y <? length (nth x (map (world s)) [])) = true) as -> by (apply Nat.ltb_lt; lia).
    discriminate. }
  destruct (read_rows_spec _ s Hread) as (out & p & Hrr & Hmap).
  assert (Hview : one_direction_view d distance s =
    if t =? 0 then (Ok [], s)
    else if has_enough_energy (energy (robot s)) (if t <=? 1 then 0 else t * 3)
    then (Ok out, set_energy (set_plot s p)
                    (mkEnergy (e - (if t <=? 1 then 0 else t * 3))))
    else (Err NotEnoughEnergy, s)).
  { unfold one_direction_view, bind at 1, get. cbn beta iota. rewrite Hco. fold dim. fold t.
    destruct (t =? 0); [reflexivity|].
    unfold bind at 1, check_price_view, check_energy, bind at 1. cbv beta iota.
    destruct (has_enough_energy _ _) eqn:He; [|reflexivity].
    cbv [ret]. rewrite (bind_ok _ _ _ _ _ Hrr).
    cbv [bind on_energy consume_energy ret]. simpl. rewrite He. reflexivity. }
  split; [|split; [|split; [|split; [|split]]]].
  - intros Ht1. rewrite Hview. destruct (t =? 0); [eexists; eexists; eauto|].
    assert ((t <=? 1) = true) as -> by (apply Nat.leb_le; exact Ht1).
    assert (has_enough_energy (energy (robot s)) 0 = true) as -> by (apply Nat.leb_le; lia).
    eexists; eexists; split; [reflexivity|]. simpl. split; [|reflexivity].
    destruct (energy (robot s)); simpl; f_equal. unfold e; simpl; lia.
  - intros Ht2 Hlt. rewrite Hview.
    assert ((t =? 0) = false) as -> by (apply Nat.eqb_neq; lia).
    assert ((t <=? 1) = false) as -> by (apply Nat.leb_gt; lia).
    assert (has_enough_energy (energy (robot s)) (t * 3) = false) as ->
      by (apply Nat.leb_gt; unfold e in Hlt; lia).
    reflexivity.
  - intros Ht2 Hle. rewrite Hview.
    assert ((t =? 0) = false) as -> by (apply Nat.eqb_neq; lia).
    assert ((t <=? 1) = false) as -> by (apply Nat.leb_gt; lia).
    assert (has_enough_energy (energy (robot s)) (t * 3) = true) as ->
      by (apply Nat.leb_le; unfold e in Hle; lia).
    eexists; eexists; split; [reflexivity|]. simpl. split; [lia | reflexivity].
  - intros o s' H Ht1. rewrite Hview in H.
    assert ((t =? 0) = false) as E by (apply Nat.eqb_neq; lia). rewrite E in H.
    destruct (has_enough_energy _ _); inversion H; subst. exact Hmap.
  - intros x y. apply in_strip_coords; assumption.
  - intros x y Hin. apply strip_in_bounds in Hin; assumption.
Qed.

Lemma one_direction_view_spec_witness :
  coordinate (robot bank_state) = (0, 1) /\
  0 < dimension (world bank_state) /\ 1 < dimension (world bank_state) /\
  length (map (world bank_state)) = dimension (world bank_state) /\
  Forall (fun row => length row = dimension (world bank_state)) (map (world bank_state)) /\
  let t := tile_to_see Down 0 1 3 4 in
  let e := energy_level (energy (robot bank_state)) in
  (t <= 1 -> exists out s', one_direction_view Down 4 bank_state = (Ok out, s') /\
                            energy (robot s') = energy (robot bank_state) /\
                            world s' = world bank_state) /\
  (2 <= t -> e < 3 * t -> one_direction_view Down 4 bank_state = (Err NotEnoughEnergy, bank_state)) /\
  (2 <= t -> 3 * t <= e -> exists out s', one_direction_view Down 4 bank_state = (Ok out, s') /\
                            energy_level (energy (robot s')) = e - 3 * t /\
                            world s' = world bank_state) /\
  (forall out s', one_direction_view Down 4 bank_state = (Ok out, s') -> 1 <= t ->
     List.map (List.map (fun k => tile_at (map (world bank_state)) (fst k) (snd k)))
       (strip_coords Down 0 1 3 t) = List.map (List.map Some) out) /\
  (forall x y, In (x, y) (concat (strip_coords Down 0 1 3 t)) <-> view_band Down 0 1 3 t x y) /\
  (forall x y, In (x, y) (concat (strip_coords Down 0 1 3 t)) ->
     x < 3 /\ y < 3 /\ (x, y) <> (0, 1)).
Proof.
  refine (conj eq_refl _). split; [vm_compute; lia|]. split; [vm_compute; lia|].
  refine (conj eq_refl _). split; [repeat constructor|].
  exact (one_direction_view_spec bank_state Down 4 0 1 eq_refl
           ltac:(vm_compute; lia) ltac:(vm_compute; lia) eq_refl
           ltac:(repeat constructor)).
Defined.


(** C9: on a graph built by [change_matrix] from a rectangular grid, for
    any start node, [dijkstra] gives each node whose shortest path weighs
    less than [i32::MAX] that weight (witnessed by a path, and no path is
    lighter), and leaves [None] at every node whose paths all weigh at least
    [i32::MAX]; [reconstruct_shortest_path] returns [None] for the start and
    for nodes left at [None], and otherwise a path from the start to the
    target whose weight is the computed distance. *)
Theorem dijkstra_shortest_paths pop matrix_tile tile_or_content graph target_nodes
    start dist pred :
  pops_min pop ->
  is_rectangular matrix_tile = true ->
  change_matrix matrix_tile tile_or_content = Some (graph, target_nodes) ->
  dijkstra pop graph start = Some (dist, pred) ->
  start < length graph /\
  length dist = length graph /\
  (forall v z, nth v dist None = Some z ->
     (0 <= z < INF)%Z /\
     (exists rp, path_to graph start rp (Z.to_N z) /\ hd_error rp = Some v) /\
     (forall rp w, path_to graph start rp w -> hd_error rp = Some v -> (Z.to_N z <= w)%N)) /\
  (forall v, nth v dist None = None ->
     forall rp w, path_to graph start rp w -> hd_error rp = Some v -> (Z.to_N INF <= w)%N) /\
  (forall target, target < length graph -> (target = start \/ nth target dist None = None) ->
     reconstruct_shortest_path pred target = Some None) /\
  (forall target z, target <> start -> nth target dist None = Some z ->
     exists path, reconstruct_shortest_path pred target = Some (Some path) /\
       hd_error path = Some start /\ hd_error (rev path) = Some target /\
       path_to graph start (rev path) (Z.to_N z)).
Proof.
  intros Hpop Hr Hc Hd.
  exact (dijkstra_correct pop graph start dist pred Hpop
           (change_matrix_valid matrix_tile tile_or_content graph target_nodes Hr Hc) Hd).
Qed.

(** C9 (counterexample): on [steep_grid] node [1] is reachable from node [0]
    by a path of weight [2147488282], but that weight does not fit the [i32]
    distances, so [dijkstra] leaves node [1] at [None] and
    [reconstruct_shortest_path] reports no path to it. *)
Lemma dijkstra_steep_unreached :
  pops_min pop_min /\
  is_rectangular steep_grid = true /\
  change_matrix steep_grid (TileTypeOrContent.TileType TileType.Grass)
    = Some ([[Node.mk 1 2147488282]; [Node.mk 0 1]], [0; 1]) /\
  path_to [[Node.mk 1 2147488282]; [Node.mk 0 1]] 0 [1; 0] 2147488282 /\
  dijkstra pop_min [[Node.mk 1 2147488282]; [Node.mk 0 1]] 0
    = Some ([Some 0%Z; None], [None; None]) /\
  reconstruct_shortest_path [None; None] 1 = Some None.
Proof.
  split; [exact pop_min_spec|].
  split; [vm_compute; reflexivity|].
  split; [vm_compute; reflexivity|].
  split; [|split; vm_compute; reflexivity].
  change 2147488282%N with (0 + Node.distance (Node.mk 1 2147488282))%N at 2.
  apply (path_step _ _ 0 [] 0 (Node.mk 1 2147488282)); [apply path_start|].
  simpl. left. reflexivity.
Qed.

(** C9 (witness): on [small_grid], from node [0], no path to node [5]
    weighs less than the computed distance [5]. *)
Lemma dijkstra_shortest_paths_witness :
  is_rectangular small_grid = true /\
  change_matrix small_grid (TileTypeOrContent.TileType TileType.Grass)
    = Some ([[Node.mk 1 0]; [Node.mk 2 9; Node.mk 4 4; Node.mk 0 1];
             [Node.mk 5 1; Node.mk 1 0]; []; [Node.mk 1 0; Node.mk 5 1];
             [Node.mk 2 9; Node.mk 4 4]], [0; 5]) /\
  dijkstra pop_min [[Node.mk 1 0]; [Node.mk 2 9; Node.mk 4 4; Node.mk 0 1];
             [Node.mk 5 1; Node.mk 1 0]; []; [Node.mk 1 0; Node.mk 5 1];
             [Node.mk 2 9; Node.mk 4 4]] 0
    = Some ([Some 0%Z; Some 0%Z; Some 9%Z; None; Some 4%Z; Some 5%Z],
            [None; Some 0; Some 1; None; Some 1; Some 4]) /\
  (forall rp w, path_to [[Node.mk 1 0]; [Node.mk 2 9; Node.mk 4 4; Node.mk 0 1];
             [Node.mk 5 1; Node.mk 1 0]; []; [Node.mk 1 0; Node.mk 5 1];
             [Node.mk 2 9; Node.mk 4 4]] 0 rp w -> hd_error rp = Some 5 -> (5 <= w)%N).
Proof.
  assert (Hr : is_rectangular small_grid = true) by (vm_compute; reflexivity).
  assert (Hc : change_matrix small_grid (TileTypeOrContent.TileType TileType.Grass)
    = Some ([[Node.mk 1 0]; [Node.mk 2 9; Node.mk 4 4; Node.mk 0 1];
             [Node.mk 5 1; Node.mk 1 0]; []; [Node.mk 1 0; Node.mk 5 1];
             [Node.mk 2 9; Node.mk 4 4]], [0; 5])) by (vm_compute; reflexivity).
  assert (Hd : dijkstra pop_min [[Node.mk 1 0]; [Node.mk 2 9; Node.mk 4 4; Node.mk 0 1];
             [Node.mk 5 1; Node.mk 1 0]; []; [Node.mk 1 0; Node.mk 5 1];
             [Node.mk 2 9; Node.mk 4 4]] 0
    = Some ([Some 0%Z; Some 0%Z; Some 9%Z; None; Some 4%Z; Some 5%Z],
            [None; Some 0; Some 1; None; Some 1; Some 4])) by (vm_compute; reflexivity).
  split; [exact Hr|]. split; [exact Hc|]. split; [exact Hd|].
  destruct (dijkstra_shortest_paths pop_min small_grid _ _ _ 0 _ _ pop_min_spec Hr Hc Hd)
    as [_ [_ [Hs _]]].
  exact (proj2 (proj2 (Hs 5 5%Z eq_refl))).
Defined.


End Claims.

(** * Further properties of the code *)

Module Extras.

(** X1: when [pop] takes out an entry of least distance, the edges of
    [graph] point at its nodes, [start] is a node and [len * len] fits a
    [usize], [find_connected_targets] returns the targets reachable from
    [start], each once. *)
Theorem find_connected_targets_spec pop graph start targets :
  pops_min pop ->
  (forall u nb, In nb (nth u graph []) -> Node.index nb < length graph) ->
  start < length graph ->
  (N.of_nat (length graph * length graph) <= usize_max)%N ->
  exists ct, find_connected_targets pop graph start targets = Some ct /\
    NoDup ct /\ forall t, In t ct <-> In t targets /\ reachable graph start t.
Proof.
  intros Hpop Hg Hst Hsmall. unfold find_connected_targets.
  destruct (connected_loop_some graph Hg Hsmall targets pop Hpop (S (S (edge_count graph)))
              (mkCState [Node.mk start 0] (repeat false (length graph)) [])) as [ct Hct].
  - apply repeat_length.
  - intros x [<-|[]]. simpl. split; [exact Hst|lia].
  - simpl. rewrite unvisited_edges_none. lia.
  - exists ct. split; [exact Hct|].
    eapply connected_loop_correct; [exact Hpop|apply cinv_init|exact Hct].
Qed.

Lemma find_connected_targets_spec_witness :
  exists ct, find_connected_targets pop_min small_grid_graph 0 [0; 3; 5] = Some ct /\
    NoDup ct /\ forall t, In t ct <-> In t [0; 3; 5] /\ reachable small_grid_graph 0 t.
Proof.
  apply find_connected_targets_spec.
  - exact pop_min_spec.
  - apply edges_in_range_ok. vm_compute. reflexivity.
  - simpl. lia.
  - apply N.leb_le. vm_compute. reflexivity.
Defined.

(** X2: on a rectangular matrix, [get_coordinates] maps each index [k]
    below [rows * cols] to [(k / cols, k mod cols)] and has no other key. *)
Theorem get_coordinates_spec m : is_rectangular m = true ->
  forall k, nat_lookup (get_coordinates m) k =
    if k <? length m * length (hd [] m)
    then Some (k / length (hd [] m), k mod length (hd [] m)) else None.
Proof. exact (get_coordinates_lookup m). Qed.

Lemma get_coordinates_spec_witness :
  nat_lookup (get_coordinates small_grid) 4 =
    if 4 <? length small_grid * length (hd [] small_grid)
    then Some (4 / length (hd [] small_grid), 4 mod length (hd [] small_grid)) else None.
Proof. apply get_coordinates_spec. vm_compute. reflexivity. Defined.

(** X3: when every coordinate fits an [i32], [path_to_directions] returns
    [Ok dirs] exactly when [dirs] has one direction per consecutive pair of
    the path, each pair has coordinates, and the second cell of each pair is
    one step from the first in that direction. *)
Theorem path_to_directions_spec coordinates path dirs :
  coords_small coordinates ->
  path_to_directions coordinates path = Some (inl dirs) <-> steps_ok coordinates path dirs.
Proof. exact (path_to_directions_steps coordinates path dirs). Qed.

Lemma path_to_directions_spec_witness :
  path_to_directions (get_coordinates small_grid) [0; 1; 4; 5] = Some (inl [Right; Down; Right])
  <-> steps_ok (get_coordinates small_grid) [0; 1; 4; 5] [Right; Down; Right].
Proof. apply path_to_directions_spec. apply coords_small_b_ok. vm_compute. reflexivity. Defined.

(** X4: on a rectangular matrix whose sides fit an [i32], every path of
    the graph [change_matrix] builds converts through [get_coordinates] and
    [path_to_directions] into directions, one per edge, that walk from the
    start cell to the cell of the path's last node. *)
Theorem change_matrix_path_directions m toc graph targets start rp w t :
  is_rectangular m = true ->
  (N.of_nat (length m) < 2147483647)%N ->
  (N.of_nat (length (hd [] m)) < 2147483647)%N ->
  change_matrix m toc = Some (graph, targets) ->
  start < length graph ->
  path_to graph start rp w -> hd_error rp = Some t ->
  exists dirs, path_to_directions (get_coordinates m) (rev rp) = Some (inl dirs) /\
    length dirs = length rp - 1 /\
    fold_left step_coords dirs (start / length (hd [] m), start mod length (hd [] m))
      = (t / length (hd [] m), t mod length (hd [] m)).
Proof.
  intros Hr Hrows Hcols Hc Hst Hp Ht.
  destruct (change_matrix_moves m toc graph targets Hr Hc) as [Hlen Hmv].
  pose proof (change_matrix_valid m toc graph targets Hr Hc) as Hg.
  set (cols := length (hd [] m)) in *.
  assert (Hlk : forall k, k < length graph ->
            nat_lookup (get_coordinates m) k = Some (k / cols, k mod cols)).
  { intros k Hk. rewrite get_coordinates_lookup by exact Hr. fold cols.
    rewrite Hlen in Hk. apply Nat.ltb_lt in Hk. rewrite Hk. reflexivity. }
  assert (Hsmall : coords_small (get_coordinates m)).
  { intros k p Hk. rewrite get_coordinates_lookup in Hk by exact Hr. fold cols in Hk.
    destruct (Nat.ltb_spec k (length m * cols)) as [Hlt|]; [|discriminate].
    injection Hk as <-. simpl. assert (cols <> 0) by (intros E; rewrite E in Hlt; lia).
    split.
    - assert (k / cols < length m) by (apply Nat.Div0.div_lt_upper_bound; lia). lia.
    - assert (k mod cols < cols) by (apply Nat.mod_upper_bound; assumption). lia. }
  assert (Hind : forall t, hd_error rp = Some t -> t < length graph /\
            exists dirs, steps_ok (get_coordinates m) (rev rp) dirs /\
              fold_left step_coords dirs (start / cols, start mod cols) = (t / cols, t mod cols)).
  { clear t Ht. induction Hp as [|u rp w nb Hp IH Hnb]; intros t Ht; injection Ht as <-.
    - split; [exact Hst|]. exists []. split; [|reflexivity].
      split; [reflexivity|]. intros i Hi. simpl in Hi. lia.
    - destruct (IH u eq_refl) as [Hu [dirs [Hok Hf]]].
      split; [apply (Hg u); exact Hnb|].
      destruct (Hmv u nb Hnb) as [d Hm].
      exists (dirs ++ [d]). split.
      + change (rev (Node.index nb :: u :: rp)) with ((rev rp ++ [u]) ++ [Node.index nb]).
        rewrite <- app_assoc. simpl.
        eapply steps_ok_snoc; [exact Hok|apply Hlk; exact Hu|apply Hlk, (Hg u); exact Hnb|exact Hm].
      + rewrite fold_left_app. simpl. rewrite Hf. apply moves_step. exact Hm. }
  destruct (Hind t Ht) as [_ [dirs [Hok Hf]]].
  exists dirs. split; [apply path_to_directions_steps; assumption|].
  split; [destruct Hok as [Hl _]; rewrite length_rev in Hl; exact Hl|exact Hf].
Qed.

Lemma change_matrix_path_directions_witness :
  exists dirs, path_to_directions (get_coordinates small_grid) (rev [1; 0]) = Some (inl dirs) /\
    length dirs = length [1; 0] - 1 /\
    fold_left step_coords dirs (0 / length (hd [] small_grid), 0 mod length (hd [] small_grid))
      = (1 / length (hd [] small_grid), 1 mod length (hd [] small_grid)).
Proof.
  apply (change_matrix_path_directions small_grid (TileTypeOrContent.TileType TileType.Grass)
           small_grid_graph [0; 5] 0 [1; 0] 0 1).
  - vm_compute. reflexivity.
  - vm_compute. reflexivity.
  - vm_compute. reflexivity.
  - vm_compute. reflexivity.
  - simpl. lia.
  - exact (path_step small_grid_graph 0 0 [] 0 (Node.mk 1 0) (path_start _ _) (or_introl eq_refl)).
  - reflexivity.
Defined.

(** X5: [find_shortest_paths] returns one result per target, in order; a
    result without a path has cost [0] and its target is the start or has no
    path lighter than [INF]; a result with a path holds a least-weight path
    from the start to the target, of weight [total_cost] below [INF]. *)
Theorem find_shortest_paths_spec pop graph start targets results :
  pops_min pop ->
  (forall u nb, In nb (nth u graph []) -> Node.index nb < length graph) ->
  find_shortest_paths pop graph start targets = Some results ->
  length results = length targets /\
  forall i r, nth_error results i = Some r ->
    nth_error targets i = Some (target_node r) /\ target_node r < length graph /\
    ((path r = None /\ total_cost r = 0%Z /\
      (target_node r = start \/
       forall rp w, path_to graph start rp w -> hd_error rp = Some (target_node r) ->
         (Z.to_N INF <= w)%N)) \/
     (exists p, path r = Some p /\ target_node r <> start /\
        hd_error p = Some start /\ hd_error (rev p) = Some (target_node r) /\
        path_to graph start (rev p) (Z.to_N (total_cost r)) /\
        (0 <= total_cost r < INF)%Z /\
        forall rp w, path_to graph start rp w -> hd_error rp = Some (target_node r) ->
          (Z.to_N (total_cost r) <= w)%N)).
Proof. exact (find_shortest_paths_results pop graph start targets results). Qed.

Lemma find_shortest_paths_spec_witness :
  let graph := small_grid_graph in let start := 0 in let targets := [0; 5] in
  let results := [mkPathResult None 0 0%Z; mkPathResult (Some [0; 1; 4; 5]) 5 5%Z] in
  length results = length targets /\
  forall i r, nth_error results i = Some r ->
    nth_error targets i = Some (target_node r) /\ target_node r < length graph /\
    ((path r = None /\ total_cost r = 0%Z /\
      (target_node r = start \/
       forall rp w, path_to graph start rp w -> hd_error rp = Some (target_node r) ->
         (Z.to_N INF <= w)%N)) \/
     (exists p, path r = Some p /\ target_node r <> start /\
        hd_error p = Some start /\ hd_error (rev p) = Some (target_node r) /\
        path_to graph start (rev p) (Z.to_N (total_cost r)) /\
        (0 <= total_cost r < INF)%Z /\
        forall rp w, path_to graph start rp w -> hd_error rp = Some (target_node r) ->
          (Z.to_N (total_cost r) <= w)%N)).
Proof.
  refine (find_shortest_paths_spec pop_min small_grid_graph 0 [0; 5] _ _ _ _).
  - exact pop_min_spec.
  - apply edges_in_range_ok. vm_compute. reflexivity.
  - vm_compute. reflexivity.
Defined.

(** X6: when no target is reachable from the start (each target is the
    start itself or left at [None] by [dijkstra]), [build_path] never
    returns: each round finds no path and keeps the same targets. *)
Theorem build_path_stuck pop graph start targets coordinates dist pred :
  pops_min pop ->
  (forall u nb, In nb (nth u graph []) -> Node.index nb < length graph) ->
  dijkstra pop graph start = Some (dist, pred) ->
  targets <> [] ->
  (forall t, In t targets -> t < length graph /\ (t = start \/ nth t dist None = None)) ->
  forall fuel, build_path pop fuel graph start targets coordinates = OutOfFuel.
Proof.
  intros Hpop Hg Hd Hne Ht.
  destruct (dijkstra_correct pop graph start dist pred Hpop Hg Hd)
    as [_ [Hlen [_ [_ [Hrec1 _]]]]].
  destruct (collect_results_no_path dist pred targets) as [rs [E [Hl Hp]]].
  { intros t Hin. destruct (Ht t Hin) as [Hlt Hor]. split; [apply Hrec1; assumption|lia]. }
  unfold build_path. generalize (@nil (list Direction)) as acc.
  intros acc fuel. revert acc. induction fuel as [|fuel IH]; intros acc; [reflexivity|].
  simpl. destruct targets as [|t0 ts]; [congruence|].
  unfold find_shortest_paths. rewrite Hd. rewrite E.
  destruct (min_by_total_cost rs) as [best|] eqn:Em; [|apply IH].
  rewrite (Hp best (min_by_total_cost_in _ _ Em)). apply IH.
Qed.

Lemma build_path_stuck_witness :
  build_path pop_min 50 small_grid_graph 0 [3] (get_coordinates small_grid) = OutOfFuel.
Proof.
  apply (build_path_stuck pop_min small_grid_graph 0 [3] (get_coordinates small_grid)
           [Some 0%Z; Some 0%Z; Some 9%Z; None; Some 4%Z; Some 5%Z]
           [None; Some 0; Some 1; None; Some 1; Some 4]).
  - exact pop_min_spec.
  - apply edges_in_range_ok. vm_compute. reflexivity.
  - vm_compute. reflexivity.
  - discriminate.
  - intros t [<-|[]]. split; [simpl; lia|right; reflexivity].
Defined.

(** X7: when [build_path] returns [Ok segs], each target has coordinates,
    and walking the concatenation of some prefix of [segs] from the start's
    cell ends on that target's cell. *)
Theorem build_path_reaches pop graph start targets coordinates fuel segs p0 :
  pops_min pop ->
  (forall u nb, In nb (nth u graph []) -> Node.index nb < length graph) ->
  coords_small coordinates ->
  nat_lookup coordinates start = Some p0 ->
  build_path pop fuel graph start targets coordinates = Returns (inl segs) ->
  forall t, In t targets -> exists k q, nat_lookup coordinates t = Some q /\
    fold_left step_coords (concat (firstn k segs)) p0 = q.
Proof.
  intros Hpop Hg Hs Hp0 H.
  destruct (build_path_loop_reaches pop graph coordinates Hpop Hg Hs fuel start targets [] segs p0 Hp0 H)
    as [more [-> Hm]].
  exact Hm.
Qed.

Lemma build_path_reaches_witness :
  exists k q, nat_lookup (get_coordinates small_grid) 2 = Some q /\
    fold_left step_coords (concat (firstn k [[Right; Down; Right]; [Up]])) (0, 0) = q.
Proof.
  apply (build_path_reaches pop_min small_grid_graph 0 [5; 2] (get_coordinates small_grid) 10
           [[Right; Down; Right]; [Up]] (0, 0)).
  - exact pop_min_spec.
  - apply edges_in_range_ok. vm_compute. reflexivity.
  - apply coords_small_b_ok. vm_compute. reflexivity.
  - vm_compute. reflexivity.
  - vm_compute. reflexivity.
  - simpl. auto.
Defined.

(** X8: on a square world with the robot inside, [robot_view] returns a
    3x3 grid whose cell [(i, j)] is the tile at [(r + i - 1, c + j - 1)]
    when that cell is on the map and [None] otherwise; it adds to the plot
    exactly the on-map cells around the robot, and adds no duplicates. *)
Theorem robot_view_spec (s : St) (r c : nat) :
  square (world s) -> coordinate (robot s) = (r, c) ->
  r < dimension (world s) -> c < dimension (world s) ->
  let dim := dimension (world s) in
  exists out p, robot_view s = (Ok out, set_plot s p) /\
    length out = 3 /\ (forall row, In row out -> length row = 3) /\
    (forall i j, i < 3 -> j < 3 ->
       nth j (nth i out []) None =
       if (1 <=? r + i) && (r + i <=? dim) && (1 <=? c + j) && (c + j <=? dim)
       then tile_at (map (world s)) (r + i - 1) (c + j - 1) else None) /\
    (forall x y, In (x, y) p <-> In (x, y) (plot s) \/
       (x < dim /\ y < dim /\ x <= r + 1 /\ r <= x + 1 /\ y <= c + 1 /\ c <= y + 1)) /\
    (NoDup (plot s) -> NoDup p).
Proof. exact (robot_view_run s r c). Qed.

Lemma robot_view_spec_witness :
  let s := grid3_state [] in let r := 0 in let c := 1 in
  let dim := dimension (world s) in
  exists out p, robot_view s = (Ok out, set_plot s p) /\
    length out = 3 /\ (forall row, In row out -> length row = 3) /\
    (forall i j, i < 3 -> j < 3 ->
       nth j (nth i out []) None =
       if (1 <=? r + i) && (r + i <=? dim) && (1 <=? c + j) && (c + j <=? dim)
       then tile_at (map (world s)) (r + i - 1) (c + j - 1) else None) /\
    (forall x y, In (x, y) p <-> In (x, y) (plot s) \/
       (x < dim /\ y < dim /\ x <= r + 1 /\ r <= x + 1 /\ y <= c + 1 /\ c <= y + 1)) /\
    (NoDup (plot s) -> NoDup p).
Proof.
  refine (robot_view_spec (grid3_state []) 0 1 _ _ _ _).
  - apply square_b_ok. vm_compute. reflexivity.
  - reflexivity.
  - simpl. lia.
  - simpl. lia.
Defined.

(** X9: on a square world whose plot lies on the map, [robot_map false]
    returns a [dim x dim] grid holding the tile of every plotted cell and
    [None] elsewhere, and leaves the state unchanged. *)
Theorem robot_map_spec (s : St) :
  square (world s) ->
  (forall x y, In (x, y) (plot s) -> x < dimension (world s) /\ y < dimension (world s)) ->
  exists out, robot_map false s = (Ok (Some out), s) /\ grid_dims (dimension (world s)) out /\
    forall x y, x < dimension (world s) -> y < dimension (world s) ->
      (In (x, y) (plot s) -> nth y (nth x out []) None = tile_at (map (world s)) x y) /\
      (~ In (x, y) (plot s) -> nth y (nth x out []) None = None).
Proof. exact (robot_map_run s). Qed.

Lemma robot_map_spec_witness :
  let s := grid3_state [(0, 1); (1, 2)] in
  exists out, robot_map false s = (Ok (Some out), s) /\ grid_dims (dimension (world s)) out /\
    forall x y, x < dimension (world s) -> y < dimension (world s) ->
      (In (x, y) (plot s) -> nth y (nth x out []) None = tile_at (map (world s)) x y) /\
      (~ In (x, y) (plot s) -> nth y (nth x out []) None = None).
Proof.
  refine (robot_map_spec (grid3_state [(0, 1); (1, 2)]) _ _).
  - apply square_b_ok. vm_compute. reflexivity.
  - intros x y [E|[E|[]]]; injection E as <- <-; simpl; lia.
Defined.

(** X10: on a square world, [robot_map false] panics, leaving the state as
    it was, when the plot holds a cell outside the map. *)
Theorem robot_map_panics (s : St) :
  square (world s) ->
  (exists x y, In (x, y) (plot s) /\ ~ (x < dimension (world s) /\ y < dimension (world s))) ->
  robot_map false s = (Panic, s).
Proof.
  intros Hsq Hbad. unfold robot_map.
  rewrite fill_plot_out_of_range; [reflexivity|exact Hsq|apply grid_dims_repeat|exact Hbad].
Qed.

Lemma robot_map_panics_witness :
  robot_map false (grid3_state [(0, 1); (3, 0)]) = (Panic, grid3_state [(0, 1); (3, 0)]).
Proof.
  apply robot_map_panics.
  - apply square_b_ok. vm_compute. reflexivity.
  - exists 3, 0. split; [simpl; auto|simpl; lia].
Defined.

(** X11: on a square world whose plot lies on the map, every tile
    [robot_view] shows is then in the grid [robot_map false] returns, at the
    same map cell. *)
Theorem robot_view_recorded_in_map (s : St) (r c : nat) :
  square (world s) -> coordinate (robot s) = (r, c) ->
  r < dimension (world s) -> c < dimension (world s) ->
  (forall x y, In (x, y) (plot s) -> x < dimension (world s) /\ y < dimension (world s)) ->
  exists v s' out, robot_view s = (Ok v, s') /\ robot_map false s' = (Ok (Some out), s') /\
    forall i j t, i < 3 -> j < 3 -> nth j (nth i v []) None = Some t ->
      nth (c + j - 1) (nth (r + i - 1) out []) None = Some t.
Proof.
  intros Hsq Hrc Hr Hc Hpl.
  destruct (robot_view_run s r c Hsq Hrc Hr Hc) as (v & p & Hv & _ & _ & Hcell & Hp & _).
  destruct (robot_map_run (set_plot s p)) as (out & Hm & _ & Hout).
  - exact Hsq.
  - intros x y Hin. simpl in Hin. apply Hp in Hin. destruct Hin as [Hin|Hin]; [apply Hpl, Hin|simpl; lia].
  - exists v, (set_plot s p), out. split; [exact Hv|]. split; [exact Hm|].
    intros i j t Hi Hj Ht. rewrite Hcell in Ht by assumption.
    destruct (Nat.leb_spec 1 (r + i)), (Nat.leb_spec (r + i) (dimension (world s))),
      (Nat.leb_spec 1 (c + j)), (Nat.leb_spec (c + j) (dimension (world s)));
      simpl in Ht; try discriminate.
    simpl in Hout. destruct (Hout (r + i - 1) (c + j - 1)) as [Hin _]; [lia|lia|].
    rewrite Hin; [exact Ht|]. apply Hp. right. lia.
Qed.

Lemma robot_view_recorded_in_map_witness :
  let s := grid3_state [(2, 2)] in let r := 0 in let c := 1 in
  exists v s' out, robot_view s = (Ok v, s') /\ robot_map false s' = (Ok (Some out), s') /\
    forall i j t, i < 3 -> j < 3 -> nth j (nth i v []) None = Some t ->
      nth (c + j - 1) (nth (r + i - 1) out []) None = Some t.
Proof.
  refine (robot_view_recorded_in_map (grid3_state [(2, 2)]) 0 1 _ _ _ _ _).
  - apply square_b_ok. vm_compute. reflexivity.
  - reflexivity.
  - simpl. lia.
  - simpl. lia.
  - intros x y [E|[]]. injection E as <- <-. simpl. lia.
Defined.

(** X12: with the robot inside a square world, [teleport] to a cell off
    the map fails with [OutOfBounds]; to a cell on the map it fails with
    [OperationNotAllowed] unless both the robot's tile and the target tile
    are activated teleports, and then with [NotEnoughEnergy] below 30
    energy. Each failure leaves the state unchanged. *)
Theorem teleport_refused (s : St) (r c tr tc : nat) :
  square (world s) -> coordinate (robot s) = (r, c) ->
  r < dimension (world s) -> c < dimension (world s) ->
  let dim := dimension (world s) in
  let m := map (world s) in
  (~ (tr < dim /\ tc < dim) -> teleport (tr, tc) s = (Err OutOfBounds, s)) /\
  (tr < dim -> tc < dim ->
     (tile_type_at m r c <> Some (TileType.Teleport true) \/
      tile_type_at m tr tc <> Some (TileType.Teleport true)) ->
     teleport (tr, tc) s = (Err OperationNotAllowed, s)) /\
  (tr < dim -> tc < dim ->
     tile_type_at m r c = Some (TileType.Teleport true) ->
     tile_type_at m tr tc = Some (TileType.Teleport true) ->
     energy_level (energy (robot s)) < TELEPORT_COST ->
     teleport (tr, tc) s = (Err NotEnoughEnergy, s)).
Proof.
  destruct s as [[en rc b] [m dim disc env] p]; simpl. intros Hsq Hrc Hr Hc; subst rc.
  destruct (square_tile_at _ r c Hsq Hr Hc) as [t1 Ht1]; simpl in Ht1.
  unfold tile_type_at.
  unfold teleport, teleport_allowed, go_allowed_row_col, bind, get, ret, fail, read_tile; simpl.
  split; [|split].
  - intros Hout. destruct (Nat.ltb_spec tr dim), (Nat.ltb_spec tc dim); try (exfalso; lia);
      reflexivity.
  - intros Htr Htc Hne.
    destruct (square_tile_at _ tr tc Hsq Htr Htc) as [t2 Ht2]; simpl in Ht2.
    apply Nat.ltb_lt in Htr, Htc. rewrite Htr, Htc. simpl. rewrite Ht1.
    destruct (tiletype_eqb (tile_type t1) (TileType.Teleport true)) eqn:E1; simpl; [|reflexivity].
    rewrite Ht2.
    destruct (tiletype_eqb (tile_type t2) (TileType.Teleport true)) eqn:E2; simpl; [|reflexivity].
    apply tiletype_eqb_true in E1, E2. rewrite Ht1, Ht2 in Hne. simpl in Hne.
    rewrite E1, E2 in Hne. tauto.
  - intros Htr Htc H1 H2 Hlow.
    destruct (square_tile_at _ tr tc Hsq Htr Htc) as [t2 Ht2]; simpl in Ht2.
    apply Nat.ltb_lt in Htr, Htc. rewrite Htr, Htc. simpl.
    rewrite Ht1 in H1. rewrite Ht2 in H2. simpl in H1, H2.
    injection H1 as H1. injection H2 as H2.
    rewrite Ht1. simpl. rewrite H1. simpl. rewrite Ht2. simpl. rewrite H2. simpl.
    assert (E : has_enough_energy en TELEPORT_COST = false) by (apply Nat.leb_gt; exact Hlow).
    unfold on_energy, consume_energy. simpl. rewrite E. reflexivity.
Qed.

Lemma teleport_refused_witness :
  let s := teleport_grid_state 10 in let r := 0 in let c := 0 in let tr := 0 in let tc := 1 in
  let dim := dimension (world s) in
  let m := map (world s) in
  (~ (tr < dim /\ tc < dim) -> teleport (tr, tc) s = (Err OutOfBounds, s)) /\
  (tr < dim -> tc < dim ->
     (tile_type_at m r c <> Some (TileType.Teleport true) \/
      tile_type_at m tr tc <> Some (TileType.Teleport true)) ->
     teleport (tr, tc) s = (Err OperationNotAllowed, s)) /\
  (tr < dim -> tc < dim ->
     tile_type_at m r c = Some (TileType.Teleport true) ->
     tile_type_at m tr tc = Some (TileType.Teleport true) ->
     energy_level (energy (robot s)) < TELEPORT_COST ->
     teleport (tr, tc) s = (Err NotEnoughEnergy, s)).
Proof.
  refine (teleport_refused (teleport_grid_state 10) 0 0 0 1 _ _ _ _).
  - apply square_b_ok. vm_compute. reflexivity.
  - reflexivity.
  - simpl. lia.
  - simpl. lia.
Defined.

(** X13: with the robot on an activated teleport inside a square world,
    the target an activated teleport on the map, and at least 30 energy,
    [teleport] spends 30 energy, moves the robot to the target and returns
    the view and coordinates [where_am_i] gives there. *)
Theorem teleport_success (s : St) (r c tr tc : nat) :
  square (world s) -> coordinate (robot s) = (r, c) ->
  r < dimension (world s) -> c < dimension (world s) ->
  tr < dimension (world s) -> tc < dimension (world s) ->
  tile_type_at (map (world s)) r c = Some (TileType.Teleport true) ->
  tile_type_at (map (world s)) tr tc = Some (TileType.Teleport true) ->
  TELEPORT_COST <= energy_level (energy (robot s)) ->
  let s1 := set_coordinate
              (set_energy s (mkEnergy (energy_level (energy (robot s)) - TELEPORT_COST))) (tr, tc) in
  exists v p, robot_view s1 = (Ok v, set_plot s1 p) /\
    teleport (tr, tc) s = (Ok (v, (tr, tc)), set_plot s1 p).
Proof.
  intros Hsq Hrc Hr Hc Htr Htc H1 H2 Hen s1.
  destruct (robot_view_run s1 tr tc) as (v & p & Hv & _); try assumption; try reflexivity.
  exists v, p. split; [exact Hv|].
  assert (Hw : where_am_i s1 = (Ok (v, (tr, tc)), set_plot s1 p))
    by (unfold where_am_i; rewrite (bind_ok _ _ _ _ _ Hv); reflexivity).
  rewrite <- Hw. unfold s1. clear Hw Hv s1.
  destruct s as [[en rc b] [m dim disc env] pl]; simpl in *. subst rc.
  destruct (square_tile_at _ r c Hsq Hr Hc) as [t1 Ht1]; simpl in Ht1.
  destruct (square_tile_at _ tr tc Hsq Htr Htc) as [t2 Ht2]; simpl in Ht2.
  unfold tile_type_at in H1, H2. rewrite Ht1 in H1. rewrite Ht2 in H2. simpl in H1, H2.
  injection H1 as H1. injection H2 as H2.
  unfold teleport, teleport_allowed, go_allowed_row_col, bind, get, ret, fail, read_tile; simpl.
  apply Nat.ltb_lt in Htr, Htc. rewrite Htr, Htc. simpl.
  rewrite Ht1. simpl. rewrite H1. simpl. rewrite Ht2. simpl. rewrite H2. simpl.
  assert (E : has_enough_energy en TELEPORT_COST = true) by (apply Nat.leb_le; exact Hen).
  unfold on_energy, consume_energy. simpl. rewrite E. reflexivity.
Qed.

Lemma teleport_success_witness :
  let s := teleport_grid_state 100 in let tr := 0 in let tc := 1 in
  let s1 := set_coordinate
              (set_energy s (mkEnergy (energy_level (energy (robot s)) - TELEPORT_COST))) (tr, tc) in
  exists v p, robot_view s1 = (Ok v, set_plot s1 p) /\
    teleport (tr, tc) s = (Ok (v, (tr, tc)), set_plot s1 p).
Proof.
  refine (teleport_success (teleport_grid_state 100) 0 0 0 1 _ _ _ _ _ _ _ _ _).
  - apply square_b_ok. vm_compute. reflexivity.
  - reflexivity.
  - simpl. lia.
  - simpl. lia.
  - simpl. lia.
  - simpl. lia.
  - vm_compute. reflexivity.
  - vm_compute. reflexivity.
  - apply Nat.leb_le. vm_compute. reflexivity.
Defined.



(** X15: whatever [destroy] returns, it leaves the robot's coordinate, the
    world's dimension, discoverable count, conditions and the plot as they
    were, does not raise the energy, and changes no tile other than the one
    next to the robot in the given direction. *)
Theorem destroy_frame (d : Direction) (water_draw : nat) (s s' : St) (res0 : res nat) (r c : nat) :
  coordinate (robot s) = (r, c) -> destroy d water_draw s = (res0, s') ->
  frame (step_coords (r, c) d) s s'.
Proof.
  intros Hrc H. unfold destroy in H. apply bind_inv in H.
  destruct (in_bounds_ro d s) as [x Hib].
  destruct H as [(a & s1 & H1 & H)|[(e & H1 & _)|(H1 & _)]]; rewrite Hib in H1;
    injection H1 as _ <-; [|apply frame_refl|apply frame_refl].
  apply bind_inv in H.
  destruct H as [(rc & s1 & H1 & H)|[(e & H1 & _)|(H1 & _)]];
    [|apply get_coords_row_col_ro in H1; subst; apply frame_refl
     |apply get_coords_row_col_ro in H1; subst; apply frame_refl].
  destruct (get_coords_row_col_ok d s rc s1 r c Hrc H1) as [-> <-].
  destruct rc as [tr tc]. cbv beta iota in H.
  match type of H with ?m ?s0 = _ => enough (K : keeps (tr, tc) m) by exact (K _ _ _ H) end.
  apply keeps_bind.
  - intros s0 r0 s1 Hd. rewrite (destroy_target_state _ _ _ _ _ _ Hd). apply frame_refl.
  - intros [[c0 v] cost]. keeps_tac.
Qed.

Lemma destroy_frame_witness :
  let s := pair_state 1000 (backpack_new 20) (mkTile TileType.Grass (Content.Rock 3) 0) in
  frame (step_coords (0, 0) Right) s (snd (destroy Right 0 s)).
Proof.
  intros s.
  apply (destroy_frame Right 0 s (snd (destroy Right 0 s)) (fst (destroy Right 0 s)) 0 0).
  - reflexivity.
  - apply surjective_pairing.
Defined.

(** X16: [remove_from_backpack] keeps the backpack's size; with none of
    the content held it fails with [NoContent] and changes nothing;
    otherwise it removes and returns the lesser of the quantity held and the
    quantity asked, and leaves every other content as it was. *)
Theorem remove_from_backpack_result (c : Content.t) (q : nat) (b b' : BackPack) r :
  remove_from_backpack c q b = (r, b') ->
  size b' = size b /\
  ((r = Err NoContent /\ b' = b /\ stored b c = 0) \/
   (0 < stored b c /\ r = Ok (Nat.min (stored b c) q) /\
    stored b' c = stored b c - Nat.min (stored b c) q /\
    (forall c', to_default c' <> to_default c -> stored b' c' = stored b c') /\
    backpack_sum b' + Nat.min (stored b c) q = backpack_sum b)).
Proof.
  rewrite remove_from_backpack_spec. unfold stored.
  destruct (hm_get (contents b) (to_default c)) as [v|] eqn:Hv.
  - destruct (Nat.eqb_spec v 0) as [->|Hv0]; intros H; injection H as <- <-.
    + split; [reflexivity|]. left. auto.
    + split; [reflexivity|]. right. simpl. split; [lia|]. split; [reflexivity|].
      split; [rewrite (hm_get_set_same _ _ _ _ Hv); reflexivity|]. split.
      * intros c' Hne. rewrite hm_get_set_other by exact Hne. reflexivity.
      * unfold backpack_sum; simpl. pose proof (hm_sum_set (contents b) (to_default c) (v - Nat.min v q) v Hv). lia.
  - intros H; injection H as <- <-. split; [reflexivity|]. left. auto.
Qed.

Lemma remove_from_backpack_result_witness :
  let c := Content.Rock 0 in let q := 3 in let b := backpack_with 20 (Content.Rock 0) 5 in
  let b' := snd (remove_from_backpack c q b) in let r := fst (remove_from_backpack c q b) in
  size b' = size b /\
  ((r = Err NoContent /\ b' = b /\ stored b c = 0) \/
   (0 < stored b c /\ r = Ok (Nat.min (stored b c) q) /\
    stored b' c = stored b c - Nat.min (stored b c) q /\
    (forall c', to_default c' <> to_default c -> stored b' c' = stored b c') /\
    backpack_sum b' + Nat.min (stored b c) q = backpack_sum b)).
Proof.
  intros c q b b' r. apply remove_from_backpack_result. apply surjective_pairing.
Defined.

(** X17: removing the quantity a successful [add_to_backpack] of a
    positive quantity reported gives back exactly the quantity asked and a
    backpack that holds what it held before the add. *)
Theorem add_then_remove (c : Content.t) (q n : nat) (b b1 : BackPack) :
  0 < q -> add_to_backpack c q b = (Ok n, b1) ->
  exists b2, remove_from_backpack c n b1 = (Ok q, b2) /\ size b2 = size b /\
    (forall c', stored b2 c' = stored b c') /\ backpack_sum b2 = backpack_sum b.
Proof.
  intros Hq Hadd. unfold add_to_backpack in Hadd.
  destruct (size b <? backpack_sum b); [discriminate|].
  destruct (Nat.leb_spec q (size b - backpack_sum b)) as [Hle|]; [|discriminate].
  injection Hadd as <- <-. rewrite Nat.min_l by exact Hle.
  rewrite remove_from_backpack_spec; simpl. rewrite hm_get_entry_add_same.
  set (v := match hm_get (contents b) (to_default c) with Some v => v | None => 0 end).
  assert (Hv : match hm_get (contents b) (to_default c) with Some v => v + q | None => q end = v + q)
    by (unfold v; destruct (hm_get _ _); reflexivity).
  rewrite Hv. destruct (Nat.eqb_spec (v + q) 0) as [|_]; [lia|].
  rewrite Nat.min_r by lia. replace (v + q - q) with v by lia.
  eexists. split; [reflexivity|]. split; [reflexivity|]. split.
  - intros c'. unfold stored; simpl.
    destruct (content_eq_dec (to_default c') (to_default c)) as [E|Hne].
    + rewrite E. rewrite (hm_get_set_same _ _ _ (v + q)) by (rewrite hm_get_entry_add_same, Hv; reflexivity).
      unfold v. destruct (hm_get _ _); reflexivity.
    + rewrite hm_get_set_other, hm_get_entry_add_other by exact Hne. reflexivity.
  - unfold backpack_sum; simpl.
    assert (Hg : hm_get (hm_entry_add (contents b) (to_default c) q) (to_default c) = Some (v + q))
      by (rewrite hm_get_entry_add_same, Hv; reflexivity).
    pose proof (hm_sum_set _ _ v _ Hg) as H.
    rewrite hm_sum_entry_add in H. lia.
Qed.

Lemma add_then_remove_witness :
  let c := Content.Rock 0 in let b := backpack_new 5 in
  exists b2, remove_from_backpack c 3 (snd (add_to_backpack c 3 b)) = (Ok 3, b2) /\
    size b2 = size b /\ (forall c', stored b2 c' = stored b c') /\
    backpack_sum b2 = backpack_sum b.
Proof.
  intros c b. apply (add_then_remove c 3 3 b).
  - lia.
  - vm_compute. reflexivity.
Defined.

End Extras.
